(** * pivid: the frame player and the server main loop

    A shallow embedding of [src/frame_player.cpp] (class
    [ThreadFramePlayer]) and of [Server::main_loop_thread] in
    [src/pivid_server.cpp], with the properties of the scheduling
    algorithm proved about it.

    Each thread body is written in a small state-and-failure monad whose
    state holds the variables guarded by the mutex, whether the running
    thread owns the mutex, and the list of calls the thread has made to
    its collaborators (logger, condition variable, display driver, script
    runner).  A computation that would be undefined behaviour in C++
    (dereferencing [end()], unlocking a mutex that is not owned) or that
    aborts ([ASSERT]) has no result.  The [double]s of the main loop
    are IEEE 754 binary64 values with their rounded operations.

    The handlers around the loop, the list of modes of [on_screens]
    and the two destructors with the threads they join follow, and
    the pure parts of the device lister [src/pivid_list_v4l.cpp]. *)

From Stdlib Require Import ZArith List Bool Lia Sorted SpecFloat.
From Stdlib Require String.
Import ListNotations.

Local Open Scope Z_scope.

(** ** The thread monad *)

Module Thread.

Record world (V E : Type) : Type := World
  { vars : V;                     (* the variables guarded by the mutex *)
    held : bool;                  (* does this thread own the mutex? *)
    events : list (bool * E) }.   (* calls made, each with [held] at the call *)

Arguments World {V E} _ _ _.
Arguments vars {V E} _.
Arguments held {V E} _.
Arguments events {V E} _.

Definition M (V E A : Type) : Type := world V E -> option (A * world V E).

Section Ops.
Context {V E : Type}.

Definition ret {A} (a : A) : M V E A := fun w => Some (a, w).

Definition bind {A B} (c : M V E A) (k : A -> M V E B) : M V E B :=
  fun w => match c w with
           | Some (a, w') => k a w'
           | None => None
           end.

(** Undefined behaviour, or an abort. *)
Definition undefined {A} : M V E A := fun _ => None.

Definition lift {A} (o : option A) : M V E A :=
  fun w => match o with Some a => Some (a, w) | None => None end.

Definition get_vars : M V E V := fun w => Some (vars w, w).

Definition put_vars (v : V) : M V E unit :=
  fun w => Some (tt, World v (held w) (events w)).

Definition emit (e : E) : M V E unit :=
  fun w => Some (tt, World (vars w) (held w) (events w ++ [(held w, e)])).

(** [std::mutex::lock]: undefined when the caller already owns it. *)
Definition mutex_lock : M V E unit :=
  fun w => if held w then None else Some (tt, World (vars w) true (events w)).

(** [std::mutex::unlock]: undefined when the caller does not own it. *)
Definition mutex_unlock : M V E unit :=
  fun w => if held w then Some (tt, World (vars w) false (events w)) else None.

Definition when (b : bool) (c : M V E unit) : M V E unit :=
  if b then c else ret tt.

(** Runs a computation for a thread that enters with [h] as its
    ownership of the mutex and must leave with the same; the result
    comes with the variables and the calls made. *)
Definition exec {A} (h : bool) (c : M V E A) (v : V)
    : option (A * V * list (bool * E)) :=
  match c (World v h []) with
  | Some (a, w) =>
      if Bool.eqb (held w) h then Some (a, vars w, events w) else None
  | None => None
  end.

End Ops.

(** The operations of the monad, for [autounfold]. *)
Create HintDb thread_ops.
#[export] Hint Unfold ret bind undefined lift get_vars put_vars emit mutex_lock
  mutex_unlock when exec : thread_ops.

Module Notations.
Declare Scope thread_scope.
Delimit Scope thread_scope with thread.
Notation "x <- c ;; k" := (bind c (fun x => k))
  (at level 61, c at next level, right associativity) : thread_scope.
Notation "c ;; k" := (bind c (fun _ => k))
  (at level 61, right associativity) : thread_scope.
End Notations.

End Thread.

Import Thread Thread.Notations.

(** [spdlog]'s levels, in increasing severity. *)
Module log_level.
Inductive t : Set := trace | debug | info | warn | err | critical.
End log_level.

(** [std::equal(first1, last1, first2, pred)]: walks the first range and
    reads the second range in step; the second range running out first
    is undefined. *)
Fixpoint std_equal {A B : Type} (pred : A -> B -> bool)
    (r1 : list A) (r2 : list B) : option bool :=
  match r1 with
  | [] => Some true
  | a :: r1' =>
      match r2 with
      | [] => None
      | b :: r2' => if pred a b then std_equal pred r1' r2' else Some false
      end
  end.

(** A list of keys in strictly increasing order, as the iteration of a
    [std::map] yields them. *)
Fixpoint strictly_increasing (ks : list Z) : bool :=
  match ks with
  | [] => true
  | k :: rest =>
      match rest with
      | [] => true
      | k' :: _ => (k <? k') && strictly_increasing rest
      end
  end.

(** ** The frame player ([src/frame_player.cpp]) *)

Module FramePlayer.

(** What the player's log lines report.  Times are carried as clock
    ticks; the formatting to seconds is not modelled. *)
Inductive message : Set :=
| SetTimelineEmpty                                   (* "Set timeline empty" *)
| SetTimelineInfo (size : nat) (first last : Z) (same : bool)
                                                     (* "Set timeline {}f ..." *)
| Stopping                                           (* "Stopping frame player..." *)
| PlayNoFrames                                       (* "PLAY (no frames, ...)" *)
| PlayTimeline (size : nat) (first last : Z)         (* "PLAY timeline {}f ..." *)
| SkipFrame (sched age_ms : Z)                       (* "Skip frame sched=..." *)
| NoMoreFrames                                       (* "> (no more frames, ...)" *)
| WaitingForFrame (delay_ms : Z)                     (* "> (waiting {}ms ...)" *)
| UpdatePending                                      (* "> (update pending, ...)" *)
| ShowFrame (sched lag_ms : Z).                      (* "Show frame sched=..." *)

Section Player.

(** [DisplayAtom], what one [update] call hands to the driver. *)
Context {Atom : Type}.

(** [logger->should_log(level)]: the logger's configured threshold. *)
Variable should_log : log_level.t -> bool.

(** The number of clock ticks of [1ms] (the period of [steady_clock]). *)
Variable ms : Z.

(** [Timeline]: a [std::map] from time points to atoms, held as the
    sequence of its entries in iteration order.  An iterator is the
    index of its entry; [end()] is the length.

    A time point is a signed 64-bit count of clock ticks, carried as an
    integer.  The code compares time points, subtracts them for its log
    lines and adds [5ms] to one; signed overflow being undefined in C++,
    these are taken to stay in range. *)
Definition Timeline : Type := list (Z * Atom).

Definition keys (tl : Timeline) : list Z := map fst tl.

(** The fields guarded by the mutex. *)
Record PlayerState : Type := mkPlayer
  { timeline : Timeline;
    shown : Z;
    shutdown : bool }.

(** A freshly constructed [ThreadFramePlayer]. *)
Definition initial : PlayerState :=
  {| timeline := []; shown := 0; shutdown := false |}.

(** The calls the player's code makes. *)
Inductive event : Type :=
| Log (lvl : log_level.t) (m : message)   (* a line handed to the logger *)
| NotifyAll                               (* wakeup.notify_all() *)
| Wait                                    (* blocked in wakeup.wait(lock) *)
| WaitUntil (t : Z)                       (* blocked in sys->wait_until(t, ...) *)
| UpdateDoneYet (done : bool)             (* driver->update_done_yet(...) *)
| Update (k : Z) (a : Atom).              (* driver->update(..., show->second),
                                             [k] being show->first *)

Definition P (A : Type) : Type := M PlayerState event A.

Definition set_shown (k : Z) : P unit :=
  (st <- get_vars ;;
   put_vars {| timeline := timeline st; shown := k; shutdown := shutdown st |})%thread.

Definition set_shutdown (b : bool) : P unit :=
  (st <- get_vars ;;
   put_vars {| timeline := timeline st; shown := shown st; shutdown := b |})%thread.

Definition assign_timeline (tl : Timeline) : P unit :=
  (st <- get_vars ;;
   put_vars {| timeline := tl; shown := shown st; shutdown := shutdown st |})%thread.

(** [logger->trace(...)], [logger->warn(...)], ...: the logger drops
    lines below its threshold. *)
Definition log (lvl : log_level.t) (m : message) : P unit :=
  when (should_log lvl) (emit (Log lvl m)).

(** [wakeup.wait(lock)]: releases the mutex, blocks, takes the mutex
    again before it returns. *)
Definition cv_wait : P unit :=
  (mutex_unlock ;; emit Wait ;; mutex_lock)%thread.

(** Modelled from the spec: [UnixSystem::wait_until(t, &wakeup, &lock)],
    declared in [unix_system.h]; its body is not among the files
    embedded here.  It releases the caller's mutex for the duration of
    the sleep and takes it again before returning. *)
Definition wait_until (t : Z) : P unit :=
  (mutex_unlock ;; emit (WaitUntil t) ;; mutex_lock)%thread.

(** [timeline.upper_bound(k)]: the first entry whose key is greater
    than [k]. *)
Fixpoint upper_bound (tl : Timeline) (k : Z) : nat :=
  match tl with
  | [] => O
  | (k', _) :: rest => if k <? k' then O else S (upper_bound rest k)
  end.

(** [*it]; dereferencing [end()] is undefined. *)
Definition deref (tl : Timeline) (it : nat) : option (Z * Atom) :=
  nth_error tl it.

(** Lines 113-119 of [player_thread]: the position to show. *)
Definition select_show (tl : Timeline) (now shown : Z) : option nat :=
  let show := upper_bound tl now in
  if negb (show =? 0)%nat then
    let before := (show - 1)%nat in
    match deref tl before with
    | Some (k, _) => Some (if shown <? k then before else show)
    | None => None
    end
  else Some show.

(** Lines 121-130: the loop [for (s = ...; s != show; ++s)], with
    [rest] the entries from [s] on. *)
Fixpoint skip_loop (now : Z) (rest : Timeline) (s show : nat) : P unit :=
  if (s =? show)%nat then ret tt
  else
    match rest with
    | [] => undefined
    | (k, _) :: rest' =>
        (when (should_log log_level.warn)
           (log log_level.warn (SkipFrame k (Z.quot (now - k) ms))) ;;
         set_shown k ;;
         skip_loop now rest' (S s) show)%thread
    end.

(** [timeline.begin()->first] and [timeline.rbegin()->first]. *)
Definition front_key (tl : Timeline) : option Z := option_map fst (hd_error tl).

Definition back_key (tl : Timeline) : option Z :=
  option_map fst (hd_error (rev tl)).

(** One pass through the body of [while (!shutdown)], entered with the
    mutex held.  [now] is what [sys->steady_time()] returns and [done]
    what [driver->update_done_yet(connector_id)] returns, should the
    pass ask. *)
Definition player_iteration (now : Z) (done : bool) : P unit :=
  (st <- get_vars ;;
   let tl := timeline st in
   match tl with
   | [] =>
       log log_level.trace PlayNoFrames ;;
       cv_wait
   | _ :: _ =>
       when (should_log log_level.trace)
         (first <- lift (front_key tl) ;;
          last <- lift (back_key tl) ;;
          log log_level.trace (PlayTimeline (length tl) first last)) ;;
       show <- lift (select_show tl now (shown st)) ;;
       let s := upper_bound tl (shown st) in
       skip_loop now (skipn s tl) s show ;;
       if (show =? length tl)%nat then
         log log_level.trace NoMoreFrames ;;
         cv_wait
       else
         e <- lift (deref tl show) ;;
         if now <? fst e then
           when (should_log log_level.trace)
             (log log_level.trace (WaitingForFrame (Z.quot (fst e - now) ms))) ;;
           wait_until (fst e)
         else
           emit (UpdateDoneYet done) ;;
           if negb done then
             log log_level.trace UpdatePending ;;
             wait_until (now + 5 * ms)
           else
             emit (Update (fst e) (snd e)) ;;
             set_shown (fst e) ;;
             when (should_log log_level.debug)
               (st' <- get_vars ;;
                log log_level.debug
                  (ShowFrame (shown st') (Z.quot (now - shown st') ms)))
   end)%thread.

(** The loop test followed by one pass; [false] once the loop is left. *)
Definition player_thread_step (now : Z) (done : bool) : P bool :=
  (st <- get_vars ;;
   if shutdown st then ret false
   else player_iteration now done ;; ret true)%thread.

(** [same_keys] of [set_timeline]; [&&] does not evaluate [std::equal]
    when the sizes differ. *)
Definition same_keys (tl cur : Timeline) : option bool :=
  if (length tl =? length cur)%nat
  then std_equal (fun a b => fst a =? fst b) tl cur
  else Some false.

(** [set_timeline], entered without the mutex. *)
Definition set_timeline (tl : Timeline) : P unit :=
  (mutex_lock ;;
   st <- get_vars ;;
   same <- lift (same_keys tl (timeline st)) ;;
   when (should_log log_level.trace)
     (match tl with
      | [] => log log_level.trace SetTimelineEmpty
      | _ :: _ =>
          first <- lift (front_key tl) ;;
          last <- lift (back_key tl) ;;
          log log_level.trace (SetTimelineInfo (length tl) first last same)
      end) ;;
   assign_timeline tl ;;
   st' <- get_vars ;;
   if negb (match timeline st' with [] => true | _ => false end) && negb same then
     mutex_unlock ;;
     emit NotifyAll
   else
     mutex_unlock)%thread.

(** [last_shown]. *)
Definition last_shown : P Z :=
  (mutex_lock ;;
   st <- get_vars ;;
   mutex_unlock ;;
   ret (shown st))%thread.

(** The destructor up to [thread.join()], for a started player. *)
Definition destroy : P unit :=
  (mutex_lock ;;
   log log_level.debug Stopping ;;
   set_shutdown true ;;
   mutex_unlock ;;
   emit NotifyAll)%thread.

(** *** Executions *)

(** What the player and the threads around it do, one entry per
    critical section.  Every wait of [player_thread] is the last
    statement of a pass, so the calls of other threads, which need the
    mutex, fall between passes. *)
Inductive action : Type :=
| Iterate (now : Z) (done : bool)
| SetTimeline (tl : Timeline)
| Destroy.

(** [player_thread] takes the mutex once, before its loop (line 96), and
    every pass returns with it; the callers of [set_timeline] and of the
    destructor come without it. *)
Definition step (a : action) (st : PlayerState)
    : option (PlayerState * list (bool * event)) :=
  match a with
  | Iterate now done =>
      option_map (fun r => (snd (fst r), snd r))
        (exec true (player_thread_step now done) st)
  | SetTimeline tl =>
      option_map (fun r => (snd (fst r), snd r)) (exec false (set_timeline tl) st)
  | Destroy =>
      option_map (fun r => (snd (fst r), snd r)) (exec false destroy st)
  end.

Fixpoint run (sched : list action) (st : PlayerState)
    : option (PlayerState * list (bool * event)) :=
  match sched with
  | [] => Some (st, [])
  | a :: rest =>
      match step a st with
      | None => None
      | Some (st1, evs1) =>
          match run rest st1 with
          | None => None
          | Some (st2, evs2) => Some (st2, evs1 ++ evs2)
          end
      end
  end.

(** The schedules that can occur: the clock never goes back from the
    reading [t], and every timeline handed over is a map. *)
Fixpoint admissible (t : Z) (sched : list action) : bool :=
  match sched with
  | [] => true
  | Iterate now _ :: rest => (t <=? now) && admissible now rest
  | SetTimeline tl :: rest => strictly_increasing (keys tl) && admissible t rest
  | Destroy :: rest => admissible t rest
  end.

(** The atoms handed to the driver, with their keys, in order. *)
Fixpoint submissions (evs : list (bool * event)) : list (Z * Atom) :=
  match evs with
  | [] => []
  | (_, Update k a) :: rest => (k, a) :: submissions rest
  | _ :: rest => submissions rest
  end.

(** The skips reported at level [warn]: scheduled time and age. *)
Fixpoint skip_warnings (evs : list (bool * event)) : list (Z * Z) :=
  match evs with
  | [] => []
  | (_, Log log_level.warn (SkipFrame sched age)) :: rest =>
      (sched, age) :: skip_warnings rest
  | _ :: rest => skip_warnings rest
  end.

(** *** Notions used to state the properties *)

(** The keys the loop of lines 121-130 visits on its way to [show]:
    those at the positions from [upper_bound(shown)] up to [show]. *)
Definition skipped (tl : Timeline) (shown : Z) (show : nat) : list Z :=
  let s := upper_bound tl shown in
  keys (firstn (show - s) (skipn s tl)).

(** The keys strictly between [lo] and the key at position [show]
    (every key above [lo] when [show] is [end()]). *)
Definition strictly_between (tl : Timeline) (lo : Z) (show : nat) : list Z :=
  filter
    (fun k => (lo <? k) &&
              match deref tl show with
              | Some e => k <? fst e
              | None => true
              end)
    (keys tl).

(** [shown] after each of [ks] has been assigned to it in turn. *)
Definition advance_through (ks : list Z) (shown : Z) : Z :=
  fold_left (fun _ k => k) ks shown.

(** The entries whose deadline has come at [now]. *)
Definition due (tl : Timeline) (now : Z) : Timeline :=
  filter (fun e => fst e <=? now) tl.

(** The selection in the words of the specification: the position just
    past the due entries is the upper bound on [now]; when there is a
    due entry, the last of them is kept if its key is greater than
    [shown], and the upper bound is kept otherwise. *)
Definition spec_show (tl : Timeline) (now shown : Z) : nat :=
  let past := length (due tl now) in
  match rev (due tl now) with
  | [] => past
  | (k, _) :: _ => if shown <? k then (past - 1)%nat else past
  end.

(** The keys of a timeline come in strictly increasing order. *)
Definition sorted (tl : Timeline) : Prop := StronglySorted Z.lt (keys tl).


(** Did the run wake the player thread? *)
Definition wakes (evs : list (bool * event)) : bool :=
  existsb (fun e => match snd e with NotifyAll => true | _ => false end) evs.

(** The states the player can be in when the clock reads [t] or more:
    the timeline is a map and [shown] is not in the future. *)
Definition valid (st : PlayerState) (t : Z) : Prop :=
  strictly_increasing (keys (timeline st)) = true /\ shown st <= t.

(** The driver answers every [update_done_yet] with [false]. *)
Definition all_busy (sched : list action) : bool :=
  forallb (fun a => match a with Iterate _ done => negb done | _ => true end) sched.

(** The calls during which the thread is blocked on the condition
    variable. *)
Definition is_wait (ev : event) : bool :=
  match ev with
  | Wait | WaitUntil _ => true
  | _ => false
  end.

(** The calls to the display driver. *)
Definition is_driver_call (ev : event) : bool :=
  match ev with
  | UpdateDoneYet _ | Update _ _ => true
  | _ => false
  end.

(** The thread owns the mutex at each call, unless the call is a wait. *)
Definition held_unless_waiting (evs : list (bool * event)) : Prop :=
  Forall (fun he => fst he = negb (is_wait (snd he))) evs.

(** The lines a filtered [log] call adds for a thread holding the mutex. *)
Definition log_events (lvl : log_level.t) (m : message) : list (bool * event) :=
  if should_log lvl then [(true, Log lvl m)] else [].

(** The warnings of the skip loop for the keys [ks]. *)
Definition skip_events (now : Z) (ks : list Z) : list (bool * event) :=
  if should_log log_level.warn
  then map (fun k => (true, Log log_level.warn (SkipFrame k (Z.quot (now - k) ms)))) ks
  else [].

(** The state with [shown] replaced. *)
Definition with_shown (k : Z) (st : PlayerState) : PlayerState :=
  {| timeline := timeline st; shown := k; shutdown := shutdown st |}.

(** What a pass does after the skip loop, for the position [show]. *)
Definition tail_events (now : Z) (done : bool) (tl : Timeline) (show : nat)
    : list (bool * event) :=
  match deref tl show with
  | None => log_events log_level.trace NoMoreFrames ++ [(false, Wait)]
  | Some (k, a) =>
      if now <? k then
        log_events log_level.trace (WaitingForFrame (Z.quot (k - now) ms))
          ++ [(false, WaitUntil k)]
      else
        (true, UpdateDoneYet done) ::
        (if done then
           (true, Update k a) ::
           log_events log_level.debug (ShowFrame k (Z.quot (now - k) ms))
         else
           log_events log_level.trace UpdatePending
             ++ [(false, WaitUntil (now + 5 * ms))])
  end.

(** [shown] at the end of a pass that selected [show]. *)
Definition final_shown (now : Z) (done : bool) (tl : Timeline) (sh : Z)
    (show : nat) : Z :=
  match deref tl show with
  | None => advance_through (skipped tl sh show) sh
  | Some (k, a) =>
      if now <? k then advance_through (skipped tl sh show) sh
      else if done then k else advance_through (skipped tl sh show) sh
  end.

(** The first and last key of a timeline, for its log line. *)
Definition key_or_zero (o : option Z) : Z :=
  match o with Some k => k | None => 0 end.

(** The calls of [set_timeline tl], [same] being its [same_keys]. *)
Definition set_timeline_events (tl : Timeline) (same : bool) : list (bool * event) :=
  match tl with
  | [] => log_events log_level.trace SetTimelineEmpty
  | _ :: _ =>
      log_events log_level.trace
        (SetTimelineInfo (length tl) (key_or_zero (front_key tl))
           (key_or_zero (back_key tl)) same)
        ++ (if negb same then [(false, NotifyAll)] else [])
  end.

(** The clock reading of the last pass of a schedule that starts when
    the clock reads [t]. *)
Fixpoint last_reading (t : Z) (sched : list action) : Z :=
  match sched with
  | [] => t
  | Iterate now _ :: rest => last_reading now rest
  | _ :: rest => last_reading t rest
  end.

(** The line a pass logs about the timeline it found. *)
Definition play_events (tl : Timeline) : list (bool * event) :=
  log_events log_level.trace
    (PlayTimeline (length tl) (key_or_zero (front_key tl)) (key_or_zero (back_key tl))).

(** *** Further notions: what a trace shows of waits and driver calls *)

(** The time points that a signed 64-bit count of clock ticks holds. *)
Definition representable (t : Z) : Prop := - 2 ^ 63 <= t < 2 ^ 63.

(** The waits of a trace, in order. *)
Definition waits (evs : list (bool * event)) : list event :=
  filter is_wait (map snd evs).

(** The calls to the driver in a trace, in order. *)
Definition driver_calls (evs : list (bool * event)) : list event :=
  filter is_driver_call (map snd evs).

(** Every [update] of the trace comes directly after an
    [update_done_yet] that answered [true]; [ready] tells whether the
    call before the trace was one. *)
Fixpoint polled (ready : bool) (evs : list (bool * event)) : bool :=
  match evs with
  | [] => true
  | (_, Update _ _) :: rest => ready && polled false rest
  | (_, UpdateDoneYet done) :: rest => polled done rest
  | _ :: rest => polled false rest
  end.

(** The entries newer than [sh] whose deadline has come at [now]. *)
Definition showable (tl : Timeline) (sh now : Z) : Timeline :=
  filter (fun e => (sh <? fst e) && (fst e <=? now)) tl.

(** The entries whose deadline is still to come at [now]. *)
Definition upcoming (tl : Timeline) (now : Z) : Timeline :=
  filter (fun e => now <? fst e) tl.

End Player.

#[export] Hint Unfold log cv_wait wait_until set_shown set_shutdown assign_timeline
  : thread_ops.

End FramePlayer.

(** ** [double] *)

(** The [double] of the program is IEEE 754 binary64.  Its values and
    operations are those of [SpecFloat] at precision 53 and exponent
    bound 1024: every operation rounds to nearest, ties to even, and
    there is one NaN. *)
Module Double.

Definition double : Set := spec_float.

Definition prec : Z := 53.
Definition emax : Z := 1024.

Definition add (a b : double) : double := SFadd prec emax a b.
Definition sub (a b : double) : double := SFsub prec emax a b.
Definition div (a b : double) : double := SFdiv prec emax a b.

(** [a < b]: false when either is NaN. *)
Definition ltb (a b : double) : bool := SFltb a b.

(** [a <= b]: false when either is NaN. *)
Definition leb (a b : double) : bool := SFleb a b.

Definition is_nan (a : double) : bool :=
  match a with
  | S754_nan => true
  | _ => false
  end.

(** The double nearest to [m * 2 ^ e]. *)
Definition scaled (m e : Z) : double := binary_normalize prec emax m e false.

(** The double nearest to the integer [n]. *)
Definition of_Z (n : Z) : double := scaled n 0.

(** The literals [0.0] and [1.0]. *)
Definition zero : double := S754_zero false.
Definition one : double := of_Z 1.

(** A number that is not negative: a zero, a positive finite double or
    plus infinity. *)
Definition nonneg (a : double) : bool :=
  match a with
  | S754_zero _ | S754_infinity false | S754_finite false _ _ => true
  | _ => false
  end.

(** A zero or a finite double. *)
Definition finite (a : double) : bool :=
  match a with
  | S754_zero _ | S754_finite _ _ _ => true
  | _ => false
  end.

(** A double that is not NaN and has the sign [s]. *)
Definition signed (s : bool) (a : double) : Prop :=
  match a with
  | S754_zero s' | S754_infinity s' | S754_finite s' _ _ => s' = s
  | S754_nan => False
  end.

End Double.

(** ** The server's main loop ([Server::main_loop_thread]) *)

Module MainLoop.

Import Double.

(** [std::max(a, b)]: [(a < b) ? b : a]. *)
Definition std_max (a b : double) : double :=
  if ltb a b then b else a.

Inductive message : Type :=
| WaitForScript                 (* "UPDATE (wait for script)" *)
| SleepFor (d : double)         (* "UPDATE (sleep {:.3f}s)" *)
| UpdateAt (mono : double)      (* "UPDATE (mono={:.3f}s)" *)
| Stop.                         (* "STOP" *)

Section Loop.

(** [Script], of which the loop reads [main_loop_hz] only. *)
Context {Script : Type}.
Variable main_loop_hz : Script -> double.

Variable should_log : log_level.t -> bool.

(** [script] and [shutdown] are guarded by the mutex; [last_mono] is
    the local variable of [main_loop_thread]. *)
Record LoopState : Type := mkLoop
  { script : option Script;
    shutdown : bool;
    last_mono : double }.

Definition initial : LoopState :=
  {| script := None; shutdown := false; last_mono := zero |}.

Inductive event : Type :=
| Log (lvl : log_level.t) (m : message)
| Sleep                       (* wakeup_mono->sleep() *)
| SleepUntil (t : double)     (* wakeup_mono->sleep_until(t) *)
| SetFlag                     (* wakeup_mono->set() *)
| HttpStop                    (* http.stop() *)
| RunnerUpdate (s : Script).  (* cx.runner->update, on the copy *)

Definition L (A : Type) : Type := M LoopState event A.

(** The [TRACE] and [DEBUG] macros: a line for the logger, dropped
    below its threshold. *)
Definition log (lvl : log_level.t) (m : message) : L unit :=
  when (should_log lvl) (emit (Log lvl m)).

Definition set_last_mono (q : double) : L unit :=
  (st <- get_vars ;;
   put_vars {| script := script st; shutdown := shutdown st; last_mono := q |})%thread.

Definition set_script (s : option Script) : L unit :=
  (st <- get_vars ;;
   put_vars {| script := s; shutdown := shutdown st; last_mono := last_mono st |})%thread.

Definition set_shutdown (b : bool) : L unit :=
  (st <- get_vars ;;
   put_vars {| script := script st; shutdown := b; last_mono := last_mono st |})%thread.

(** One pass through the body of [while (!shutdown)], entered with the
    mutex held; [mono] is what [cx.sys->clock(CLOCK_MONOTONIC)]
    returns, should the pass ask.  The [ASSERT] fails for a rate that
    is zero, negative or NaN. *)
Definition main_loop_iteration (mono : double) : L unit :=
  (st <- get_vars ;;
   match script st with
   | None =>
       log log_level.trace WaitForScript ;;
       mutex_unlock ;;
       emit Sleep ;;
       mutex_lock
   | Some sc =>
       if ltb zero (main_loop_hz sc) then        (* ASSERT *)
         let period := div one (main_loop_hz sc) in
         if ltb mono (add (last_mono st) period) then
           log log_level.trace (SleepFor (sub (add (last_mono st) period) mono)) ;;
           mutex_unlock ;;
           emit (SleepUntil (add (last_mono st) period)) ;;
           mutex_lock
         else
           log log_level.debug (UpdateAt mono) ;;
           set_last_mono (std_max (add (last_mono st) period) (sub mono period)) ;;
           let copy := sc in
           mutex_unlock ;;
           emit (RunnerUpdate copy) ;;
           mutex_lock
       else undefined
   end)%thread.

Definition main_loop_step (mono : double) : L bool :=
  (st <- get_vars ;;
   if shutdown st then ret false
   else main_loop_iteration mono ;; ret true)%thread.

(** [on_play], from the parsed script on (its log lines come before the
    mutex is taken and are left out). *)
Definition on_play (new_script : Script) : L unit :=
  (mutex_lock ;;
   set_script (Some new_script) ;;
   emit SetFlag ;;
   mutex_unlock)%thread.

(** [on_quit]. *)
Definition on_quit : L unit :=
  (mutex_lock ;;
   log log_level.debug Stop ;;
   emit HttpStop ;;
   set_shutdown true ;;
   emit SetFlag ;;
   mutex_unlock)%thread.

Inductive action : Type :=
| Tick (mono : double)
| Play (s : Script)
| Quit.

Definition step (a : action) (st : LoopState)
    : option (LoopState * list (bool * event)) :=
  match a with
  | Tick mono =>
      option_map (fun r => (snd (fst r), snd r)) (exec true (main_loop_step mono) st)
  | Play s =>
      option_map (fun r => (snd (fst r), snd r)) (exec false (on_play s) st)
  | Quit =>
      option_map (fun r => (snd (fst r), snd r)) (exec false on_quit st)
  end.

Fixpoint run (sched : list action) (st : LoopState)
    : option (LoopState * list (bool * event)) :=
  match sched with
  | [] => Some (st, [])
  | a :: rest =>
      match step a st with
      | None => None
      | Some (st1, evs1) =>
          match run rest st1 with
          | None => None
          | Some (st2, evs2) => Some (st2, evs1 ++ evs2)
          end
      end
  end.

(** The scripts handed to the runner, each with the ownership of the
    mutex at the call. *)
Fixpoint runner_updates (evs : list (bool * event)) : list (bool * Script) :=
  match evs with
  | [] => []
  | (h, RunnerUpdate s) :: rest => (h, s) :: runner_updates rest
  | _ :: rest => runner_updates rest
  end.

(** Every script installed has a positive rate, as [parse_script]
    is expected to grant and the [ASSERT] checks. *)
Fixpoint positive_rates (sched : list action) : bool :=
  match sched with
  | [] => true
  | Play s :: rest => ltb zero (main_loop_hz s) && positive_rates rest
  | _ :: rest => positive_rates rest
  end.

(** The lines a filtered [log] call adds for a thread holding the mutex. *)
Definition log_events (lvl : log_level.t) (m : message) : list (bool * event) :=
  if should_log lvl then [(true, Log lvl m)] else [].

(** The installed script, if any, has a positive rate. *)
Definition script_ok (st : LoopState) : Prop :=
  match script st with
  | Some sc => ltb zero (main_loop_hz sc) = true
  | None => True
  end.

(** *** Further notions: sleeps, clock readings, schedules without [on_play] *)

(** The calls during which the loop sleeps on its flag. *)
Definition is_sleep (ev : event) : bool :=
  match ev with
  | Sleep | SleepUntil _ => true
  | _ => false
  end.

(** The sleeps of a trace, in order. *)
Definition sleeps (evs : list (bool * event)) : list event :=
  filter is_sleep (map snd evs).

(** The clock readings a schedule gives to the loop. *)
Fixpoint readings (sched : list action) : list double :=
  match sched with
  | [] => []
  | Tick mono :: rest => mono :: readings rest
  | _ :: rest => readings rest
  end.


End Loop.

#[export] Hint Unfold log set_last_mono set_script set_shutdown : thread_ops.

End MainLoop.

(** ** The modes listed by [on_screens] ([src/pivid_server.cpp]) *)

Module Screens.

(** [std::tuple<int, int, int>]: width, height and nominal rate. *)
Definition triple : Type := Z * Z * Z.

Definition triple_eqb (a b : triple) : bool :=
  let '(a1, a2, a3) := a in
  let '(b1, b2, b3) := b in
  (a1 =? b1) && (a2 =? b2) && (a3 =? b3).

(** [added.emplace(x, y, hz)] on a [std::set]: the set afterwards and
    whether the triple was inserted.  The set is kept as the list of
    its elements; only membership is asked of it. *)
Definition emplace (t : triple) (added : list triple) : list triple * bool :=
  if existsb (triple_eqb t) added then (added, false) else (t :: added, true).

(** A [nlohmann::json] value that is [null] or an array of triples.
    [operator[]] on a fresh object creates the member as [null];
    [push_back] turns [null] into an array of one element. *)
Definition push_back (j : option (list triple)) (t : triple) : option (list triple) :=
  match j with
  | None => Some [t]
  | Some l => Some (l ++ [t])
  end.

(** [DisplayMode] is declared in [display_mode.h]; [on_screens] reads
    its [size.x], [size.y] and [nominal_hz] only. *)
Class ModeFields (DisplayMode : Type) : Type :=
  { size_x : DisplayMode -> Z;
    size_y : DisplayMode -> Z;
    nominal_hz : DisplayMode -> Z }.

Section Modes.

Context {DisplayMode : Type} {fields : ModeFields DisplayMode}.

Definition triple_of (m : DisplayMode) : triple := (size_x m, size_y m, nominal_hz m).

(** The loop over [screen.modes], with the set [added] and the value
    of [screen_j["modes"]]. *)
Fixpoint modes_loop (modes : list DisplayMode) (added : list triple)
    (modes_j : option (list triple)) : option (list triple) :=
  match modes with
  | [] => modes_j
  | m :: rest =>
      let '(added', f) := emplace (triple_of m) added in
      modes_loop rest added' (if f then push_back modes_j (triple_of m) else modes_j)
  end.

(** The value of [screen_j["modes"]] for a screen. *)
Definition listed_modes (modes : list DisplayMode) : option (list triple) :=
  modes_loop modes [] None.

(** The elements of the value: none for [null]. *)
Definition elements (j : option (list triple)) : list triple :=
  match j with
  | None => []
  | Some l => l
  end.

End Modes.

(** The set of the loop holds what has been listed. *)
Definition agree (added : list triple) (j : option (list triple)) : Prop :=
  forall t, In t added <-> In t (elements j).

End Screens.

(** ** The device lister ([src/pivid_list_v4l.cpp]) *)

Module V4L.

Import String Ascii.

(** A [uint32_t] after an operation that can carry out of it. *)
Definition uint32 (z : Z) : Z := z mod 2 ^ 32.

(** The three numbers [print_videodev_driver] prints for
    [cap.version]. *)
Definition version_fields (v : Z) : Z * Z * Z :=
  (Z.land (Z.shiftr v 16) 255, Z.land (Z.shiftr v 8) 255, Z.land v 255).

(** What is printed for a bit: the name of a [case] label, or the bit in
    hexadecimal under [default]. *)
Inductive token : Type :=
| Named (s : string)
| Unknown (bit : Z).

Section Flags.

(** The [case] labels of the [switch]; their values are those of the
    kernel's [videodev2.h]. *)
Variable label : Z -> option string.

Definition token_of (bit : Z) : token :=
  match label bit with
  | Some s => Named s
  | None => Unknown bit
  end.

(** [for (uint32_t bit = 1; bit != 0; bit <<= 1)] with its body; [out]
    is what has been printed.  The fuel bounds the number of tests of
    [bit != 0]. *)
Fixpoint flags_loop (fuel : nat) (bit flags : Z) (out : list token)
    : option (list token) :=
  match fuel with
  | O => None
  | S fuel' =>
      if bit =? 0 then Some out
      else
        flags_loop fuel' (uint32 (Z.shiftl bit 1)) flags
          (if Z.land flags bit =? 0 then out else out ++ [token_of bit])
  end.

End Flags.

(** The positions of the bits of a [uint32_t] that are set, from the
    lowest. *)
Definition set_bits (flags : Z) : list Z :=
  filter (Z.testbit flags) (map Z.of_nat (seq 0 32)).

(** [isdigit] in the C locale. *)
Definition isdigit (c : ascii) : bool :=
  ((48 <=? nat_of_ascii c) && (nat_of_ascii c <=? 57))%nat.

(** [filename[i]]: the character at [i], [char()] at [i = size()],
    undefined beyond. *)
Definition char_at (filename : string) (i : nat) : option ascii :=
  match get i filename with
  | Some c => Some c
  | None => if (i =? length filename)%nat then Some zero else None
  end.

(** The test of [scan_videodevs] on the name of an entry of [/dev]:
    [filename.substr(0, 5) == "video" && isdigit(filename[5])]. *)
Definition is_videodev (filename : string) : option bool :=
  if (substring 0 5 filename =? "video")%string then
    option_map isdigit (char_at filename 5)
  else Some false.

End V4L.

(** ** The destructors and the threads they join *)

(** The two destructors set [shutdown] and wait for their thread with
    [thread.join()].  Whether the wait ends depends on who owns the
    mutex meanwhile, so the threads are followed here from one
    acquisition or release of the mutex to the next: a state holds the
    owner of the mutex, the variables that matter and where each thread
    stands; a move lets one thread run to its next such point, and is
    not possible when the thread is blocked there. *)
Module Teardown.

(** Who owns a [std::mutex]. *)
Inductive owner : Set := Free | Worker | Caller.

(** *** [~Server] and [main_loop_thread] ([src/pivid_server.cpp]) *)

Module Loop.

(** Where [main_loop_thread] stands. *)
Inductive loop_pc : Set :=
| NotStarted      (* [run] has not started the thread *)
| AtLock          (* at [std::unique_lock lock{mutex}] (line 86) or at a
                     [lock.lock()] (lines 92, 106, 115) *)
| AtTest          (* owns the mutex, at [while (!shutdown)] (line 87) *)
| InSleep         (* mutex released, in [wakeup_mono->sleep()] (line 91) *)
| InSleepUntil    (* mutex released, in [wakeup_mono->sleep_until(...)]
                     (line 105) *)
| InUpdate        (* mutex released, in [cx.runner->update(...)] (line 114) *)
| Returned.       (* the thread function has returned, its lock released *)

(** Where the thread that runs [~Server] stands. *)
Inductive dtor_pc : Set :=
| AtEntry         (* at [std::unique_lock lock{mutex}] (line 45) *)
| AtJoinable      (* owns the mutex, at [if (thread.joinable())] (line 46) *)
| AtJoin          (* owns the mutex, in [thread.join()] (line 50) *)
| Done.           (* the destructor has returned, its lock released *)

Record state : Set := State
  { mutex : owner;
    shutdown : bool;
    script : bool;          (* a script is installed *)
    flag : bool;            (* [wakeup_mono] has been set and not yet consumed *)
    loop : loop_pc;
    dtor : dtor_pc }.

Inductive move : Set :=
| LoopMove (due : bool)   (* the loop thread; at the loop test [due] tells
                             whether the clock has reached
                             [last_mono + period] *)
| DtorMove                (* the thread in [~Server] *)
| Play                    (* a whole [on_play] *)
| Quit.                   (* a whole [on_quit] *)

(** Modelled from the spec: the flag [wakeup_mono] ([SyncFlag] of
    [unix_system.h]).  [sleep()] returns once the flag is set and
    consumes it; [sleep_until] returns when the flag is set or the
    deadline is reached; [set()] sets the flag.

    A pass of the loop that finds [shutdown] returns; one that finds no
    script sleeps; one that finds a script sleeps until its update is
    due, or calls the runner.  (A script whose rate is not positive
    aborts the process.) *)
Definition loop_move (due : bool) (s : state) : option state :=
  match loop s with
  | NotStarted | Returned => None
  | AtLock =>
      match mutex s with
      | Free => Some (State Worker (shutdown s) (script s) (flag s) AtTest (dtor s))
      | _ => None
      end
  | AtTest =>
      if shutdown s
      then Some (State Free (shutdown s) (script s) (flag s) Returned (dtor s))
      else
        Some (State Free (shutdown s) (script s) (flag s)
                (if script s then if due then InUpdate else InSleepUntil
                 else InSleep)
                (dtor s))
  | InSleep =>
      if flag s
      then Some (State (mutex s) (shutdown s) (script s) false AtLock (dtor s))
      else None
  | InSleepUntil =>
      Some (State (mutex s) (shutdown s) (script s) false AtLock (dtor s))
  | InUpdate =>
      Some (State (mutex s) (shutdown s) (script s) (flag s) AtLock (dtor s))
  end.

(** [~Server]: the lock is taken; for a joinable thread [shutdown] and
    the flag are set and the thread is joined, the lock being released
    when the destructor returns. *)
Definition dtor_move (s : state) : option state :=
  match dtor s with
  | AtEntry =>
      match mutex s with
      | Free => Some (State Caller (shutdown s) (script s) (flag s) (loop s) AtJoinable)
      | _ => None
      end
  | AtJoinable =>
      match loop s with
      | NotStarted => Some (State Free (shutdown s) (script s) (flag s) (loop s) Done)
      | _ => Some (State (mutex s) true (script s) true (loop s) AtJoin)
      end
  | AtJoin =>
      match loop s with
      | Returned => Some (State Free (shutdown s) (script s) (flag s) (loop s) Done)
      | _ => None
      end
  | Done => None
  end.

(** [on_play] and [on_quit] run under the mutex from their first
    access to the shared state to their last: [on_play] installs its
    script, [on_quit] sets [shutdown], and both set the flag. *)
Definition handler_move (quit : bool) (s : state) : option state :=
  match mutex s with
  | Free =>
      Some (State Free (shutdown s || quit) (script s || negb quit) true
              (loop s) (dtor s))
  | _ => None
  end.

Definition step (m : move) (s : state) : option state :=
  match m with
  | LoopMove due => loop_move due s
  | DtorMove => dtor_move s
  | Play => handler_move false s
  | Quit => handler_move true s
  end.

(** A schedule is run as long as its moves are possible. *)
Fixpoint run (sched : list move) (s : state) : option state :=
  match sched with
  | [] => Some s
  | m :: rest =>
      match step m s with
      | Some s' => run rest s'
      | None => None
      end
  end.

(** The server once [run] has started the loop thread. *)
Definition started : state := State Free false false false AtLock AtEntry.

(** The owner of the mutex is the thread that stands inside it. *)
Definition consistent (s : state) : bool :=
  match mutex s with
  | Free =>
      match loop s, dtor s with
      | AtTest, _ | _, AtJoinable | _, AtJoin => false
      | _, _ => true
      end
  | Worker =>
      match loop s, dtor s with
      | AtTest, (AtEntry | Done) => true
      | _, _ => false
      end
  | Caller =>
      match loop s, dtor s with
      | AtTest, _ => false
      | _, (AtJoinable | AtJoin) => true
      | _, _ => false
      end
  end.

(** The loop thread has been started and has not returned. *)
Definition running (s : state) : bool :=
  match loop s with
  | NotStarted | Returned => false
  | _ => true
  end.

Definition is_quit (m : move) : bool :=
  match m with
  | Quit => true
  | _ => false
  end.

(** No move is possible. *)
Definition stuck (s : state) : Prop := forall m, step m s = None.

(** The destructor owns the mutex and the loop thread is alive. *)
Definition joining (s : state) : bool :=
  consistent s && running s &&
  match dtor s with
  | AtJoinable | AtJoin => true
  | _ => false
  end.

(** The destructor has been entered, without a quit before it, while
    the loop thread is alive. *)
Definition entered (s : state) : bool :=
  consistent s && running s && negb (shutdown s) &&
  match dtor s with
  | AtEntry => true
  | _ => false
  end.

(** There is something for the loop thread to do. *)
Definition wanted (s : state) : bool := script s || shutdown s.

(** A loop thread in [sleep()] that is wanted finds the flag set. *)
Definition alert (s : state) : bool :=
  match loop s with
  | InSleep => implb (wanted s) (flag s)
  | _ => true
  end.

End Loop.

(** *** [~ThreadFramePlayer] and [player_thread] ([src/frame_player.cpp]) *)

Module Player.

(** Where [player_thread] stands. *)
Inductive player_pc : Set :=
| NotStarted      (* [start] has not been called *)
| AtLock          (* at [std::unique_lock lock{mutex}] (line 96), or woken
                     in a wait and taking the mutex again *)
| AtTest          (* owns the mutex, at [while (!shutdown)] (line 97) *)
| InWait          (* mutex released, blocked in [wakeup.wait(lock)]
                     (lines 100, 134) *)
| InWaitUntil     (* mutex released, blocked in [sys->wait_until(...)]
                     (lines 143, 151) *)
| Returned.       (* the thread function has returned, its lock released *)

(** Where the thread that runs [~ThreadFramePlayer] stands. *)
Inductive dtor_pc : Set :=
| AtEntry         (* at [std::unique_lock lock{mutex}] (line 24) *)
| AtJoinable      (* owns the mutex, at [if (thread.joinable())] (line 25) *)
| AtNotify        (* [shutdown] set and the mutex released (lines 27, 28),
                     at [wakeup.notify_all()] (line 29) *)
| AtJoin          (* in [thread.join()] (line 30) *)
| Done.           (* the destructor has returned *)

Record state : Set := State
  { mutex : owner;
    shutdown : bool;
    player : player_pc;
    dtor : dtor_pc }.

(** How a pass of the player ends: in [wakeup.wait], in
    [sys->wait_until], or back at the loop test after it has shown a
    frame. *)
Inductive pass : Set := Waits | WaitsUntil | Shows.

Inductive move : Set :=
| PlayerMove (p : pass)   (* the player thread; [p] is used at the loop test;
                             out of [wait_until] this is the deadline *)
| Spurious                (* a wakeup of a wait that nobody asked for *)
| DtorMove                (* the thread in [~ThreadFramePlayer] *)
| SetTimeline (wake : bool).   (* a whole [set_timeline], with its [notify_all] *)

(** [wakeup.notify_all()]: the thread leaves its wait and goes for the
    mutex. *)
Definition notified (pc : player_pc) : player_pc :=
  match pc with
  | InWait | InWaitUntil => AtLock
  | _ => pc
  end.

Definition player_move (p : pass) (s : state) : option state :=
  match player s with
  | NotStarted | Returned | InWait => None
  | AtLock =>
      match mutex s with
      | Free => Some (State Worker (shutdown s) AtTest (dtor s))
      | _ => None
      end
  | AtTest =>
      if shutdown s then Some (State Free (shutdown s) Returned (dtor s))
      else
        match p with
        | Waits => Some (State Free (shutdown s) InWait (dtor s))
        | WaitsUntil => Some (State Free (shutdown s) InWaitUntil (dtor s))
        | Shows => Some s
        end
  | InWaitUntil => Some (State (mutex s) (shutdown s) AtLock (dtor s))
  end.

Definition spurious_move (s : state) : option state :=
  match player s with
  | InWait | InWaitUntil => Some (State (mutex s) (shutdown s) AtLock (dtor s))
  | _ => None
  end.

(** [~ThreadFramePlayer]: the lock is taken; for a joinable thread
    [shutdown] is set, the lock released, the thread notified and
    joined. *)
Definition dtor_move (s : state) : option state :=
  match dtor s with
  | AtEntry =>
      match mutex s with
      | Free => Some (State Caller (shutdown s) (player s) AtJoinable)
      | _ => None
      end
  | AtJoinable =>
      match player s with
      | NotStarted => Some (State Free (shutdown s) (player s) Done)
      | _ => Some (State Free true (player s) AtNotify)
      end
  | AtNotify => Some (State (mutex s) (shutdown s) (notified (player s)) AtJoin)
  | AtJoin =>
      match player s with
      | Returned => Some (State (mutex s) (shutdown s) (player s) Done)
      | _ => None
      end
  | Done => None
  end.

(** [set_timeline] runs under the mutex; [wake] tells whether it
    notifies. *)
Definition set_timeline_move (wake : bool) (s : state) : option state :=
  match mutex s with
  | Free =>
      Some (State Free (shutdown s)
              (if wake then notified (player s) else player s) (dtor s))
  | _ => None
  end.

Definition step (m : move) (s : state) : option state :=
  match m with
  | PlayerMove p => player_move p s
  | Spurious => spurious_move s
  | DtorMove => dtor_move s
  | SetTimeline wake => set_timeline_move wake s
  end.

Fixpoint run (sched : list move) (s : state) : option state :=
  match sched with
  | [] => Some s
  | m :: rest =>
      match step m s with
      | Some s' => run rest s'
      | None => None
      end
  end.

(** The owner of the mutex is the thread that stands inside it. *)
Definition consistent (s : state) : bool :=
  match mutex s with
  | Free =>
      match player s, dtor s with
      | AtTest, _ | _, AtJoinable => false
      | _, _ => true
      end
  | Worker =>
      match player s, dtor s with
      | AtTest, AtJoinable => false
      | AtTest, _ => true
      | _, _ => false
      end
  | Caller =>
      match player s, dtor s with
      | AtTest, _ => false
      | _, AtJoinable => true
      | _, _ => false
      end
  end.

(** The moves of the two threads themselves. *)
Definition is_thread_move (m : move) : bool :=
  match m with
  | PlayerMove _ | DtorMove => true
  | _ => false
  end.

Definition thread_moves (sched : list move) : nat :=
  length (filter is_thread_move sched).

(** The moves a thread has left once [shutdown] is set. *)
Definition player_rank (pc : player_pc) : nat :=
  match pc with
  | InWait | InWaitUntil => 3
  | AtLock => 2
  | AtTest => 1
  | NotStarted | Returned => 0
  end.

Definition dtor_rank (pc : dtor_pc) : nat :=
  match pc with
  | AtEntry => 4
  | AtJoinable => 3
  | AtNotify => 2
  | AtJoin => 1
  | Done => 0
  end.

Definition rank (s : state) : nat := player_rank (player s) + dtor_rank (dtor s).

(** The states from the moment the destructor owns the mutex: the
    player passes the loop test only with [shutdown] set, and is out of
    its wait once it has been notified. *)
Definition leaving (s : state) : bool :=
  consistent s &&
  match dtor s with
  | AtEntry => false
  | AtJoinable => true
  | AtNotify =>
      shutdown s &&
      match player s with
      | NotStarted => false
      | _ => true
      end
  | AtJoin =>
      shutdown s &&
      match player s with
      | AtLock | AtTest | Returned => true
      | _ => false
      end
  | Done =>
      match player s with
      | NotStarted | Returned => true
      | _ => false
      end
  end.

End Player.

End Teardown.

(** ** Concrete scenarios

    The clock counts milliseconds from 0 and atoms are named by strings,
    as in the scenarios of the specification. *)

Module Scenarios.

Import FramePlayer String.

Definition all_levels (_ : log_level.t) : bool := true.
Definition no_levels (_ : log_level.t) : bool := false.

Definition tl_a : @Timeline String.string := [(10, "A"%string)].
Definition tl_a100 : @Timeline String.string := [(100, "A"%string)].
Definition tl_x : @Timeline String.string := [(15, "X"%string)].
Definition tl_ab : @Timeline String.string := [(10, "A"%string); (20, "B"%string)].
Definition tl_abc : @Timeline String.string :=
  [(10, "A"%string); (20, "B"%string); (30, "C"%string)].

(** A player that has shown [A] at 10 and still holds [tl_a]. *)
Definition shown_a : @PlayerState String.string :=
  {| timeline := tl_a; shown := 10; shutdown := false |}.

(** A player holding [tl_ab] that has shown nothing yet. *)
Definition fresh_ab : @PlayerState String.string :=
  {| timeline := tl_ab; shown := 0; shutdown := false |}.

(** A script is represented by its [main_loop_hz]. *)
Definition hz_of (s : Double.double) : Double.double := s.

(** A loop with a 10 Hz script installed whose last tick was at 1 s. *)
Definition loop_10hz : @MainLoop.LoopState Double.double :=
  {| MainLoop.script := Some (Double.of_Z 10);
     MainLoop.shutdown := false;
     MainLoop.last_mono := Double.of_Z 1 |}.

(** A loop with a 30 Hz script whose last tick was at 1 s. *)
Definition loop_30hz : @MainLoop.LoopState Double.double :=
  {| MainLoop.script := Some (Double.of_Z 30);
     MainLoop.shutdown := false;
     MainLoop.last_mono := Double.of_Z 1 |}.

(** A loop with a script of rate [2 ^ 40] whose last tick was at
    8192 s. *)
Definition loop_fast : @MainLoop.LoopState Double.double :=
  {| MainLoop.script := Some (Double.scaled 1 40);
     MainLoop.shutdown := false;
     MainLoop.last_mono := Double.of_Z 8192 |}.

End Scenarios.

(** Unfolds the operations of the thread monad in the goal. *)
Ltac thread_ops := repeat autounfold with thread_ops; cbn [vars held events].

(** The same in a hypothesis. *)
Ltac thread_ops_in H := repeat autounfold with thread_ops in H; cbn [vars held events] in H.

(** * Properties of the frame player *)

Module PlayerFacts.

Import FramePlayer.

Lemma strictly_increasing_sorted (ks : list Z) :
  strictly_increasing ks = true -> StronglySorted Z.lt ks.
Proof.
  intros H. apply Sorted_StronglySorted.
  - intros x y z; lia.
  - induction ks as [|k rest IH]; [constructor|].
    destruct rest as [|k' rest'].
    + repeat constructor.
    + simpl in H. apply andb_prop in H as [Hlt Hrest].
      constructor; [apply IH; exact Hrest|].
      constructor. now apply Z.ltb_lt.
Qed.

Lemma sorted_strictly_increasing (ks : list Z) :
  StronglySorted Z.lt ks -> strictly_increasing ks = true.
Proof.
  induction 1 as [|k rest Hs IH Hall]; [reflexivity|].
  destruct rest as [|k' rest']; [reflexivity|].
  simpl. apply andb_true_intro. split.
  - apply Z.ltb_lt. now inversion Hall.
  - exact IH.
Qed.


Section Facts.

Context {Atom : Type}.
Implicit Types (tl : @Timeline Atom) (e : Z * Atom).

Lemma sorted_tail e tl : sorted (e :: tl) -> sorted tl.
Proof. unfold sorted. simpl. now inversion 1. Qed.

Lemma sorted_head e tl e' : sorted (e :: tl) -> In e' tl -> fst e < fst e'.
Proof.
  unfold sorted. simpl. inversion 1 as [|? ? _ Hall]; subst.
  intros Hin. rewrite Forall_forall in Hall. apply Hall.
  unfold keys. now apply in_map.
Qed.

Lemma upper_bound_le_length tl k : (upper_bound tl k <= length tl)%nat.
Proof.
  induction tl as [|[k' a] rest IH]; simpl; [lia|].
  destruct (k <? k'); simpl; lia.
Qed.

Lemma upper_bound_before tl k i e :
  nth_error tl i = Some e -> (i < upper_bound tl k)%nat -> fst e <= k.
Proof.
  revert i. induction tl as [|[k' a] rest IH]; intros i Hn Hi; simpl in *; [lia|].
  destruct (Z.ltb_spec k k'); [lia|].
  destruct i as [|i]; simpl in Hn.
  - injection Hn as <-. simpl. lia.
  - apply (IH i); [exact Hn | lia].
Qed.

Lemma upper_bound_after tl k i e :
  sorted tl -> nth_error tl i = Some e -> (upper_bound tl k <= i)%nat -> k < fst e.
Proof.
  revert i. induction tl as [|[k' a] rest IH]; intros i Hs Hn Hi; simpl in *.
  - destruct i; discriminate.
  - destruct (Z.ltb_spec k k').
    + destruct i as [|i]; simpl in Hn.
      * injection Hn as <-. simpl. lia.
      * apply nth_error_In in Hn.
        pose proof (sorted_head _ _ _ Hs Hn) as Hlt. simpl in Hlt. lia.
    + destruct i as [|i]; [lia|]. simpl in Hn.
      apply (IH i); [eapply sorted_tail; eassumption | exact Hn | lia].
Qed.

Lemma sorted_nth_lt tl i j e1 e2 :
  sorted tl -> nth_error tl i = Some e1 -> nth_error tl j = Some e2 ->
  (i < j)%nat -> fst e1 < fst e2.
Proof.
  revert i j. induction tl as [|e0 rest IH]; intros i j Hs H1 H2 Hij.
  - destruct i; discriminate.
  - destruct j as [|j]; [lia|]. simpl in H2.
    destruct i as [|i]; simpl in H1.
    + injection H1 as <-. apply nth_error_In in H2.
      eapply sorted_head; eassumption.
    + apply (IH i j); [eapply sorted_tail; eassumption | assumption.. | lia].
Qed.

Lemma upper_bound_mono tl k1 k2 :
  sorted tl -> k1 <= k2 -> (upper_bound tl k1 <= upper_bound tl k2)%nat.
Proof.
  intros Hs Hk.
  destruct (Nat.le_gt_cases (upper_bound tl k1) (upper_bound tl k2)) as [|Hlt];
    [assumption|exfalso].
  pose proof (upper_bound_le_length tl k1) as Hlen.
  destruct (nth_error tl (upper_bound tl k2)) as [e|] eqn:Hn.
  - pose proof (upper_bound_before _ _ _ _ Hn Hlt).
    pose proof (upper_bound_after _ k2 _ _ Hs Hn (Nat.le_refl _)). lia.
  - apply nth_error_None in Hn. lia.
Qed.

(** *** The selection of [show] *)

Lemma select_show_cases tl now sh :
  (upper_bound tl now = O /\ select_show tl now sh = Some O) \/
  (exists b k a,
      upper_bound tl now = S b /\ nth_error tl b = Some (k, a) /\ k <= now /\
      select_show tl now sh = Some (if sh <? k then b else S b)).
Proof.
  unfold select_show, deref.
  destruct (upper_bound tl now) as [|b] eqn:Hub; [left; auto|right].
  simpl. rewrite Nat.sub_0_r.
  pose proof (upper_bound_le_length tl now) as Hl.
  destruct (nth_error tl b) as [[k a]|] eqn:Hn.
  - exists b, k, a. repeat split; auto.
    apply (upper_bound_before tl now b (k, a)); [auto|lia].
  - apply nth_error_None in Hn. lia.
Qed.

Lemma select_show_le_upper tl now sh show :
  select_show tl now sh = Some show -> (show <= upper_bound tl now)%nat.
Proof.
  intros Hsel.
  destruct (select_show_cases tl now sh) as [[Hub E]|(b & k & a & Hub & Hn & Hk & E)];
    rewrite E in Hsel; injection Hsel as <-; [lia|].
  destruct (sh <? k); lia.
Qed.

Lemma select_show_bounds tl now sh show :
  sorted tl -> sh <= now -> select_show tl now sh = Some show ->
  (upper_bound tl sh <= show <= length tl)%nat.
Proof.
  intros Hs Hle Hsel.
  pose proof (upper_bound_mono tl sh now Hs Hle) as Hm.
  pose proof (upper_bound_le_length tl now) as Hl.
  destruct (select_show_cases tl now sh) as [[Hub E]|(b & k & a & Hub & Hn & Hk & E)];
    rewrite E in Hsel; injection Hsel as <-.
  - lia.
  - destruct (Z.ltb_spec sh k); [|lia].
    split; [|lia].
    destruct (Nat.le_gt_cases (upper_bound tl sh) b) as [|Hlt]; [assumption|].
    pose proof (upper_bound_before _ _ _ _ Hn Hlt). simpl in *. lia.
Qed.

Lemma select_show_defined tl now sh : exists show, select_show tl now sh = Some show.
Proof.
  destruct (select_show_cases tl now sh) as [[_ E]|(b & k & a & _ & _ & _ & E)];
    eauto.
Qed.

(** An entry that is selected and due is newer than [shown]. *)
Lemma selected_due_is_newer tl now sh show k a :
  sorted tl -> select_show tl now sh = Some show ->
  nth_error tl show = Some (k, a) -> k <= now -> sh < k.
Proof.
  intros Hs Hsel Hn Hk.
  destruct (select_show_cases tl now sh) as [[Hub E]|(b & k' & a' & Hub & Hn' & Hk' & E)];
    rewrite E in Hsel; injection Hsel as <-.
  - pose proof (upper_bound_after tl now O _ Hs Hn) as H. simpl in H. lia.
  - destruct (Z.ltb_spec sh k').
    + rewrite Hn in Hn'. injection Hn' as -> ->. assumption.
    + pose proof (upper_bound_after tl now (S b) _ Hs Hn) as H'. simpl in H'. lia.
Qed.

End Facts.

(** *** Running one pass *)

Section Passes.

Context {Atom : Type}.
Variable should_log : log_level.t -> bool.
Variable ms : Z.
Implicit Types (tl : @Timeline Atom) (e : Z * Atom) (st : @PlayerState Atom).

Lemma skip_loop_run now n :
  forall (rest : @Timeline Atom) s (w : world (@PlayerState Atom) (@event Atom)),
  (n <= length rest)%nat -> held w = true ->
  skip_loop should_log ms now rest s (s + n) w =
  Some (tt, World (with_shown (advance_through (keys (firstn n rest)) (shown (vars w)))
                     (vars w))
                  true
                  (events w ++ skip_events should_log ms now (keys (firstn n rest)))).
Proof.
  induction n as [|n IH]; intros rest s w Hlen Hh.
  - rewrite Nat.add_0_r. destruct rest; simpl; rewrite Nat.eqb_refl.
    all: unfold ret, skip_events; simpl.
    all: destruct w as [[? ? ?] ? ?]; simpl in *; subst.
    all: destruct (should_log log_level.warn); simpl; rewrite app_nil_r; reflexivity.
  - destruct rest as [|[k a] rest]; [simpl in Hlen; lia|].
    simpl. destruct (Nat.eqb_spec s (s + S n)); [lia|].
    replace (s + S n)%nat with (S s + n)%nat by lia.
    unfold bind, when, log, emit, set_shown, get_vars, put_vars, skip_events.
    destruct (should_log log_level.warn) eqn:Hw; simpl.
    all: rewrite IH by (simpl in *; auto; lia); simpl.
    all: unfold skip_events, with_shown; rewrite ?Hw, ?Hh; simpl.
    all: rewrite <- ?app_assoc; reflexivity.
Qed.

Lemma skip_loop_between now (rest : @Timeline Atom) s show
    (w : world (@PlayerState Atom) (@event Atom)) :
  (s <= show)%nat -> (show - s <= length rest)%nat -> held w = true ->
  skip_loop should_log ms now rest s show w =
  Some (tt, World (with_shown
                     (advance_through (keys (firstn (show - s) rest)) (shown (vars w)))
                     (vars w))
                  true
                  (events w
                   ++ skip_events should_log ms now (keys (firstn (show - s) rest)))).
Proof.
  intros Hle Hlen Hh.
  rewrite <- (skip_loop_run now (show - s) rest s w Hlen Hh).
  f_equal. lia.
Qed.

Lemma back_key_defined tl : tl <> [] -> exists b, back_key tl = Some b.
Proof.
  intros Hne. unfold back_key.
  destruct (rev tl) as [|x l] eqn:Hr; simpl; [|eexists; reflexivity].
  apply (f_equal (@rev _)) in Hr. rewrite rev_involutive in Hr. simpl in Hr.
  congruence.
Qed.

Lemma front_key_defined tl : tl <> [] -> exists f, front_key tl = Some f.
Proof.
  destruct tl as [|e0 rest]; [congruence|].
  intros _. unfold front_key. simpl. eexists; reflexivity.
Qed.

(** The pass in closed form, for a timeline with entries. *)
Lemma player_iteration_run st now done show evs0 :
  timeline st <> [] ->
  select_show (timeline st) now (shown st) = Some show ->
  (upper_bound (timeline st) (shown st) <= show <= length (timeline st))%nat ->
  player_iteration should_log ms now done (World st true evs0) =
  Some (tt, World (with_shown (final_shown now done (timeline st) (shown st) show) st)
              true
              (evs0
               ++ play_events should_log (timeline st)
               ++ skip_events should_log ms now (skipped (timeline st) (shown st) show)
               ++ tail_events should_log ms now done (timeline st) show)).
Proof.
  intros Hne Hsel [Hlo Hhi].
  unfold player_iteration. unfold bind at 1. unfold get_vars at 1. cbn [vars].
  destruct (front_key_defined _ Hne) as [f Hf].
  destruct (back_key_defined _ Hne) as [b Hb].
  destruct (timeline st) as [|e0 rest] eqn:Htl; [congruence|]. rewrite <- Htl in *.
  unfold play_events. rewrite Hf, Hb. unfold key_or_zero.
  unfold log. unfold bind, when, lift, emit, ret. rewrite Hsel.
  unfold tail_events, final_shown, log_events, skipped, deref.
  destruct (should_log log_level.trace) eqn:Ht; cbn [vars held events].
  all: rewrite skip_loop_between by (cbn [held]; rewrite ?length_skipn; auto; lia).
  all: cbn [vars held events shown].
  all: destruct (Nat.eqb_spec show (length (timeline st))) as [Heq|Hneq].
  all: destruct (nth_error (timeline st) show) as [[k a]|] eqn:Hn.
  all: try (apply nth_error_None in Hn; lia).
  all: try (assert (show < length (timeline st))%nat
              by (apply nth_error_Some; congruence); lia).
  all: unfold cv_wait, wait_until, mutex_unlock, mutex_lock, set_shown, get_vars,
         put_vars, bind, emit, with_shown;
       cbn [vars held events shown timeline shutdown fst snd].
  all: try (destruct (now <? k)); try (destruct done); cbn [negb];
       try (destruct (should_log log_level.debug));
       cbn [vars held events shown timeline shutdown fst snd].
  all: rewrite <- ?app_assoc; cbn [app]; reflexivity.
Qed.

Implicit Types (evs : list (bool * @event Atom)).

Lemma with_shown_same st : with_shown (shown st) st = st.
Proof. destruct st; reflexivity. Qed.

Lemma step_iterate_shutdown st now done :
  shutdown st = true -> step should_log ms (Iterate now done) st = Some (st, []).
Proof.
  intros H. unfold step, exec, player_thread_step, bind, get_vars, ret. simpl.
  rewrite H. reflexivity.
Qed.

Lemma step_iterate_empty st now done :
  shutdown st = false -> timeline st = [] ->
  step should_log ms (Iterate now done) st =
  Some (st, log_events should_log log_level.trace PlayNoFrames ++ [(false, Wait)]).
Proof.
  intros H He. unfold step, exec, player_thread_step, player_iteration.
  unfold bind, get_vars, ret. cbn [vars]. rewrite H. cbn [vars]. rewrite He.
  unfold log, when, cv_wait, mutex_unlock, mutex_lock, emit, bind, log_events.
  destruct (should_log log_level.trace); reflexivity.
Qed.

Lemma step_iterate_pass st now done show :
  shutdown st = false -> timeline st <> [] ->
  select_show (timeline st) now (shown st) = Some show ->
  (upper_bound (timeline st) (shown st) <= show <= length (timeline st))%nat ->
  step should_log ms (Iterate now done) st =
  Some (with_shown (final_shown now done (timeline st) (shown st) show) st,
        play_events should_log (timeline st)
        ++ skip_events should_log ms now (skipped (timeline st) (shown st) show)
        ++ tail_events should_log ms now done (timeline st) show).
Proof.
  intros H Hne Hsel Hb. unfold step, exec, player_thread_step.
  unfold bind at 1. unfold get_vars at 1. cbn [vars]. rewrite H.
  unfold bind. rewrite (player_iteration_run st now done show [] Hne Hsel Hb).
  reflexivity.
Qed.

Lemma submissions_app evs1 evs2 :
  submissions (evs1 ++ evs2) = submissions evs1 ++ submissions evs2.
Proof.
  induction evs1 as [|[h ev] rest IH]; [reflexivity|].
  destruct ev; simpl; rewrite IH; reflexivity.
Qed.

Lemma submissions_log lvl m : submissions (@log_events Atom should_log lvl m) = [].
Proof. unfold log_events. destruct (should_log lvl); reflexivity. Qed.

Lemma submissions_skip now ks : submissions (@skip_events Atom should_log ms now ks) = [].
Proof.
  unfold skip_events. destruct (should_log log_level.warn); [|reflexivity].
  induction ks; simpl; auto.
Qed.

Lemma submissions_tail now done tl show :
  submissions (tail_events should_log ms now done tl show) =
  match deref tl show with
  | Some (k, a) => if (now <? k) || negb done then [] else [(k, a)]
  | None => []
  end.
Proof.
  unfold tail_events. destruct (deref tl show) as [[k a]|].
  - destruct (now <? k), done; simpl;
      rewrite ?submissions_app, ?submissions_log; reflexivity.
  - rewrite submissions_app, submissions_log. reflexivity.
Qed.

Lemma advance_through_last (ks : list Z) sh :
  (ks = [] /\ advance_through ks sh = sh) \/ In (advance_through ks sh) ks.
Proof.
  revert sh. induction ks as [|k rest IH]; intros sh; [left; auto|right].
  simpl. destruct (IH k) as [[-> E]|Hin]; [left; exact E | right; exact Hin].
Qed.

Lemma In_skipped tl sh show x :
  In x (skipped tl sh show) ->
  exists i e, nth_error tl i = Some e /\ fst e = x /\
              (upper_bound tl sh <= i < show)%nat.
Proof.
  unfold skipped, keys. intros Hin.
  apply in_map_iff in Hin as (e & He & Hin).
  apply In_nth_error in Hin as (i & Hi).
  rewrite nth_error_firstn in Hi.
  destruct (Nat.ltb_spec i (show - upper_bound tl sh)); [|discriminate].
  rewrite nth_error_skipn in Hi.
  exists (upper_bound tl sh + i)%nat, e. repeat split; auto; lia.
Qed.

Lemma skipped_facts tl sh now show x :
  sorted tl -> (show <= upper_bound tl now)%nat -> In x (skipped tl sh show) ->
  sh < x <= now /\ In x (keys tl) /\
  (forall k a, nth_error tl show = Some (k, a) -> x < k).
Proof.
  intros Hs Hub Hin.
  apply In_skipped in Hin as (i & e & Hn & <- & Hlo & Hhi).
  repeat split.
  - eapply upper_bound_after; eauto.
  - eapply upper_bound_before; eauto. lia.
  - unfold keys. apply in_map. eapply nth_error_In; eauto.
  - intros k a Hk. apply (sorted_nth_lt tl i show e (k, a) Hs Hn Hk Hhi).
Qed.

Lemma final_shown_facts tl now done sh show :
  sorted tl -> sh <= now -> select_show tl now sh = Some show ->
  let v := final_shown now done tl sh show in
  sh <= v <= now /\ (v = sh \/ In v (keys tl)).
Proof.
  intros Hs Hle Hsel v.
  pose proof (select_show_le_upper _ _ _ _ Hsel) as Hub.
  assert (let u := advance_through (skipped tl sh show) sh in
          sh <= u <= now /\ (u = sh \/ In u (keys tl))) as Hskip.
  { intros u. destruct (advance_through_last (skipped tl sh show) sh) as [[_ E]|Hin].
    - subst u. rewrite E. split; [lia|auto].
    - destruct (skipped_facts tl sh now show _ Hs Hub Hin) as (? & ? & _).
      split; [lia|auto]. }
  subst v. unfold final_shown, deref.
  destruct (nth_error tl show) as [[k a]|] eqn:Hn; [|exact Hskip].
  destruct (Z.ltb_spec now k); [exact Hskip|].
  destruct done; [|exact Hskip].
  pose proof (selected_due_is_newer tl now sh show k a Hs Hsel Hn ltac:(lia)).
  split; [lia|right].
  unfold keys. change k with (fst (k, a)). apply in_map. eapply nth_error_In; eauto.
Qed.


(** *** [set_timeline] and the destructor *)

Lemma std_equal_keys tl : forall cur : @Timeline Atom,
  length tl = length cur ->
  exists b, std_equal (fun a b => fst a =? fst b) tl cur = Some b /\
            (b = true <-> keys tl = keys cur).
Proof.
  induction tl as [|[k a] rest IH]; intros [|[k' a'] cur] Hlen; simpl in Hlen;
    try discriminate.
  - exists true. simpl. split; [reflexivity|tauto].
  - simpl. destruct (Z.eqb_spec k k') as [->|Hne].
    + destruct (IH cur ltac:(lia)) as (b & E & Hb).
      exists b. split; [exact E|]. rewrite Hb. split; [congruence|].
      intros H. now injection H.
    + exists false. split; [reflexivity|]. split; [discriminate|].
      intros H. injection H as H _. contradiction.
Qed.

Lemma same_keys_defined tl (cur : @Timeline Atom) :
  exists b, same_keys tl cur = Some b /\ (b = true <-> keys tl = keys cur).
Proof.
  unfold same_keys. destruct (Nat.eqb_spec (length tl) (length cur)) as [E|Hne].
  - apply std_equal_keys. exact E.
  - exists false. split; [reflexivity|]. split; [discriminate|].
    intros H. exfalso. apply Hne.
    apply (f_equal (@length Z)) in H. unfold keys in H.
    now rewrite !length_map in H.
Qed.

Lemma step_set_timeline st tl same :
  same_keys tl (timeline st) = Some same ->
  step should_log ms (SetTimeline tl) st =
  Some ({| timeline := tl; shown := shown st; shutdown := shutdown st |},
        set_timeline_events should_log tl same).
Proof.
  intros Hsame. unfold step, exec, set_timeline.
  unfold bind, mutex_lock, get_vars, lift. cbn [vars held events]. rewrite Hsame.
  unfold set_timeline_events, log_events, log, assign_timeline, when, emit, bind,
    get_vars, put_vars, mutex_unlock, lift, ret.
  destruct tl as [|e0 rest].
  - destruct (should_log log_level.trace); reflexivity.
  - destruct (front_key_defined (e0 :: rest) ltac:(discriminate)) as [f Hf].
    destruct (back_key_defined (e0 :: rest) ltac:(discriminate)) as [b Hb].
    rewrite Hf, Hb. unfold key_or_zero.
    destruct (should_log log_level.trace), same; reflexivity.
Qed.

Lemma step_destroy st :
  step should_log ms Destroy st =
  Some ({| timeline := timeline st; shown := shown st; shutdown := true |},
        log_events should_log log_level.debug Stopping ++ [(false, NotifyAll)]).
Proof.
  unfold step, destroy, log_events. thread_ops.
  destruct (should_log log_level.debug); reflexivity.
Qed.

Lemma submissions_set_timeline tl same :
  submissions (set_timeline_events should_log tl same) = [].
Proof.
  unfold set_timeline_events. destruct tl; rewrite ?submissions_app, ?submissions_log;
    [reflexivity|]. destruct same; reflexivity.
Qed.

(** *** What one pass does to a valid state *)

Lemma iterate_summary st t now done :
  valid st t -> t <= now ->
  exists st' evs,
    step should_log ms (Iterate now done) st = Some (st', evs) /\
    timeline st' = timeline st /\ shutdown st' = shutdown st /\
    shown st <= shown st' <= now /\
    (shown st' = shown st \/ In (shown st') (keys (timeline st))) /\
    (submissions evs = [] \/
     exists k a, submissions evs = [(k, a)] /\ shown st < k /\ shown st' = k /\
                 done = true /\ In (k, a) (timeline st)).
Proof.
  intros [Hsi Hle] Hnow.
  pose proof (strictly_increasing_sorted _ Hsi) as Hs. fold (sorted (timeline st)) in Hs.
  destruct (shutdown st) eqn:Hsd.
  { exists st, []. rewrite step_iterate_shutdown by assumption.
    repeat split; auto; lia. }
  destruct (timeline st) as [|e0 rest] eqn:Htl.
  { eexists st, _. rewrite step_iterate_empty by assumption.
    repeat split; auto; try lia.
    left. rewrite submissions_app, submissions_log. reflexivity. }
  rewrite <- Htl in *.
  assert (timeline st <> []) as Hne by congruence.
  destruct (select_show_defined (timeline st) now (shown st)) as [show Hsel].
  pose proof (select_show_bounds (timeline st) now (shown st) show Hs ltac:(lia) Hsel) as Hb.
  eexists _, _. rewrite (step_iterate_pass st now done show) by assumption.
  destruct (final_shown_facts (timeline st) now done (shown st) show Hs ltac:(lia) Hsel)
    as (Hrange & Hmem).
  split; [reflexivity|]. cbn [timeline shutdown shown with_shown].
  repeat split; auto; try lia.
  rewrite !submissions_app, submissions_skip, submissions_tail.
  unfold play_events. rewrite submissions_log. cbn [app].
  unfold final_shown, deref.
  destruct (nth_error (timeline st) show) as [[k a]|] eqn:Hn; [|left; reflexivity].
  destruct (Z.ltb_spec now k); [left; reflexivity|].
  destruct done; [right|left; reflexivity].
  exists k, a. cbn [orb negb]. repeat split; auto.
  - eapply selected_due_is_newer; eauto.
  - eapply nth_error_In; eauto.
Qed.

(** *** Whole executions *)

Lemma run_app (s1 s2 : list (@action Atom)) st :
  run should_log ms (s1 ++ s2) st =
  match run should_log ms s1 st with
  | Some (st1, evs1) =>
      match run should_log ms s2 st1 with
      | Some (st2, evs2) => Some (st2, evs1 ++ evs2)
      | None => None
      end
  | None => None
  end.
Proof.
  revert st. induction s1 as [|a s1 IH]; intros st; simpl.
  - destruct (run should_log ms s2 st) as [[st2 evs2]|]; reflexivity.
  - destruct (step should_log ms a st) as [[st1 evs1]|]; [|reflexivity].
    rewrite IH. destruct (run should_log ms s1 st1) as [[st1' evs1']|]; [|reflexivity].
    destruct (run should_log ms s2 st1') as [[st2 evs2]|]; [|reflexivity].
    now rewrite app_assoc.
Qed.

Lemma admissible_app (s1 s2 : list (@action Atom)) t :
  admissible t (s1 ++ s2) = admissible t s1 && admissible (last_reading t s1) s2.
Proof.
  revert t. induction s1 as [|a s1 IH]; intros t; simpl; [reflexivity|].
  destruct a; rewrite IH; rewrite ?andb_assoc; reflexivity.
Qed.

Lemma all_busy_app (s1 s2 : list (@action Atom)) :
  all_busy (s1 ++ s2) = all_busy s1 && all_busy s2.
Proof. unfold all_busy. apply forallb_app. Qed.

Lemma run_summary (sched : list (@action Atom)) : forall st t,
  valid st t -> admissible t sched = true ->
  exists st' evs,
    run should_log ms sched st = Some (st', evs) /\
    valid st' (last_reading t sched) /\
    shown st <= shown st' /\
    Forall (fun s => shown st < fst s <= shown st') (submissions evs) /\
    StronglySorted Z.lt (map fst (submissions evs)) /\
    (all_busy sched = true -> submissions evs = []).
Proof.
  induction sched as [|a rest IH]; intros st t Hv Hadm.
  { exists st, []. simpl. repeat split; try apply Hv; auto; try lia; constructor. }
  simpl in Hadm. destruct a as [now done|tl|].
  - apply andb_prop in Hadm as [Ht Hrest]. apply Z.leb_le in Ht.
    destruct (iterate_summary st t now done Hv Ht)
      as (st1 & evs1 & Hstep & Htl & Hsd & Hsh & Hmem & Hsub).
    assert (valid st1 now) as Hv1.
    { split; [rewrite Htl; apply Hv | lia]. }
    destruct (IH st1 now Hv1 Hrest) as (st2 & evs2 & Hrun & Hv2 & Hsh2 & Hall & Hsort & Hbusy).
    exists st2, (evs1 ++ evs2). cbn [run]. rewrite Hstep, Hrun.
    split; [reflexivity|]. split; [exact Hv2|]. split; [lia|].
    rewrite submissions_app.
    assert (Forall (fun s => shown st1 < fst s) (submissions evs2)) as Hgt.
    { eapply Forall_impl; [|exact Hall]. simpl. intros; lia. }
    destruct Hsub as [E|(k & a & E & Hk & Hk' & Hd & _)]; rewrite E; cbn [app].
    + split; [eapply Forall_impl; [|exact Hall]; simpl; intros; lia|].
      split; [exact Hsort|]. intros Hb. apply Hbusy.
      apply andb_prop in Hb. apply Hb.
    + split.
      * constructor; [simpl; lia|].
        eapply Forall_impl; [|exact Hall]. simpl. intros; lia.
      * split.
        -- simpl. constructor; [exact Hsort|].
           rewrite Forall_map. eapply Forall_impl; [|exact Hgt]. simpl. intros; lia.
        -- subst done. simpl. discriminate.
  - apply andb_prop in Hadm as [Hsi Hrest].
    destruct (same_keys_defined tl (timeline st)) as (b & Hsame & _).
    pose proof (step_set_timeline st tl b Hsame) as Hstep.
    set (st1 := {| timeline := tl; shown := shown st; shutdown := shutdown st |}) in *.
    assert (valid st1 t) as Hv1 by (split; [exact Hsi | apply Hv]).
    destruct (IH st1 t Hv1 Hrest) as (st2 & evs2 & Hrun & Hv2 & Hsh2 & Hall & Hsort & Hbusy).
    exists st2, (set_timeline_events should_log tl b ++ evs2).
    cbn [run]. rewrite Hstep, Hrun. rewrite submissions_app, submissions_set_timeline.
    repeat split; auto; apply Hv2.
  - pose proof (step_destroy st) as Hstep.
    set (st1 := {| timeline := timeline st; shown := shown st; shutdown := true |}) in *.
    assert (valid st1 t) as Hv1 by (split; apply Hv).
    destruct (IH st1 t Hv1 Hadm) as (st2 & evs2 & Hrun & Hv2 & Hsh2 & Hall & Hsort & Hbusy).
    exists st2, ((log_events should_log log_level.debug Stopping
                    ++ [(false, NotifyAll)]) ++ evs2).
    cbn [run]. rewrite Hstep, Hrun. rewrite !submissions_app, submissions_log.
    repeat split; auto; apply Hv2.
Qed.

End Passes.

(** *** Selection, skip accounting and whole executions *)

Section Properties.

Context {Atom : Type}.
Variable should_log : log_level.t -> bool.
Variable ms : Z.
Implicit Types (tl : @Timeline Atom) (e : Z * Atom) (st : @PlayerState Atom)
  (evs : list (bool * @event Atom)).

Lemma filter_none {A} (f : A -> bool) (l : list A) :
  (forall x, In x l -> f x = false) -> filter f l = [].
Proof.
  induction l as [|x l IH]; intros H; [reflexivity|].
  simpl. rewrite (H x (or_introl eq_refl)). apply IH.
  intros y Hy. apply H. now right.
Qed.

Lemma due_is_prefix tl now :
  sorted tl -> due tl now = firstn (upper_bound tl now) tl.
Proof.
  induction tl as [|[k a] rest IH]; intros Hs; [reflexivity|].
  unfold due in *. cbn [upper_bound].
  destruct (Z.ltb_spec now k) as [Hlt|Hge].
  - cbn [firstn]. apply filter_none. intros e [<-|Hin].
    + apply Z.leb_gt. simpl. lia.
    + pose proof (sorted_head _ _ _ Hs Hin). simpl in *. apply Z.leb_gt. lia.
  - cbn [filter fst firstn].
    destruct (Z.leb_spec k now); [|lia].
    f_equal. apply IH. eapply sorted_tail; eassumption.
Qed.

Lemma last_of_prefix {A} (l : list A) n x :
  nth_error l n = Some x -> rev (firstn (S n) l) = x :: rev (firstn n l).
Proof.
  intros Hn. apply nth_error_split in Hn as (l1 & l2 & -> & <-).
  rewrite !firstn_app, firstn_all, Nat.sub_diag.
  rewrite (firstn_all2 (n := S (length l1)) l1) by lia.
  replace (S (length l1) - length l1)%nat with 1%nat by lia.
  cbn [firstn]. rewrite app_nil_r, rev_app_distr.
  reflexivity.
Qed.

Lemma select_show_spec tl now sh :
  sorted tl -> select_show tl now sh = Some (spec_show tl now sh).
Proof.
  intros Hs. unfold spec_show. rewrite (due_is_prefix tl now Hs).
  pose proof (upper_bound_le_length tl now) as Hl.
  rewrite length_firstn, Nat.min_l by exact Hl.
  destruct (select_show_cases tl now sh) as [[Hub E]|(b & k & a & Hub & Hn & Hk & E)];
    rewrite E, Hub.
  - reflexivity.
  - rewrite (last_of_prefix _ _ _ Hn). cbn [Nat.sub]. rewrite Nat.sub_0_r.
    reflexivity.
Qed.

Lemma key_position tl now a :
  sorted tl -> In (now, a) tl ->
  exists b, upper_bound tl now = S b /\ nth_error tl b = Some (now, a).
Proof.
  intros Hs Hin. apply In_nth_error in Hin as [i Hi].
  destruct (Nat.le_gt_cases (upper_bound tl now) i) as [Hle|Hlt].
  { pose proof (upper_bound_after tl now i _ Hs Hi Hle). simpl in *. lia. }
  destruct (upper_bound tl now) as [|b] eqn:Hub; [lia|].
  exists b. split; [reflexivity|].
  destruct (Nat.eq_dec i b) as [->|Hne]; [exact Hi|exfalso].
  pose proof (upper_bound_le_length tl now) as Hl.
  destruct (nth_error tl b) as [e|] eqn:Hb; [|apply nth_error_None in Hb; lia].
  pose proof (upper_bound_before tl now b e Hb ltac:(lia)).
  pose proof (sorted_nth_lt tl i b _ _ Hs Hi Hb ltac:(lia)). simpl in *. lia.
Qed.

(** Claim C1, as the code selects.  On a timeline that is a map, the
    position chosen by lines 113-119 is the one the specification
    describes: the upper bound on [now], stepped back by one exactly when
    there is a due entry and the key of the last due entry is greater
    than [sh], the value of [shown].  When [now] is itself a key of the
    timeline and that key is greater than [shown], the entry selected is
    that key's own, and the key is not among the skipped ones. *)
Theorem show_selection tl now sh :
  strictly_increasing (keys tl) = true ->
  select_show tl now sh = Some (spec_show tl now sh) /\
  (forall a, In (now, a) tl -> sh < now ->
     deref tl (spec_show tl now sh) = Some (now, a) /\
     ~ In now (skipped tl sh (spec_show tl now sh))).
Proof.
  intros Hsi. pose proof (strictly_increasing_sorted _ Hsi) as Hs.
  fold (sorted tl) in Hs.
  pose proof (select_show_spec tl now sh Hs) as Hsel.
  split; [exact Hsel|].
  intros a Hin Hlt.
  destruct (key_position tl now a Hs Hin) as (b & Hub & Hb).
  destruct (select_show_cases tl now sh) as [[Hub' _]|(b' & k & a' & Hub' & Hn & Hk & E)];
    [congruence|].
  rewrite Hub in Hub'. injection Hub' as <-.
  rewrite Hb in Hn. injection Hn as <- <-.
  rewrite Hsel in E. injection E as E.
  destruct (Z.ltb_spec sh now); [|lia].
  rewrite E. split; [exact Hb|].
  intros Hsk.
  destruct (skipped_facts tl sh now b now Hs ltac:(lia) Hsk) as (_ & _ & Hbelow).
  specialize (Hbelow _ _ Hb). lia.
Qed.

Lemma wakes_app evs1 evs2 : wakes (evs1 ++ evs2) = wakes evs1 || wakes evs2.
Proof. unfold wakes. apply existsb_app. Qed.

Lemma wakes_log lvl m : wakes (@log_events Atom should_log lvl m) = false.
Proof. unfold log_events. destruct (should_log lvl); reflexivity. Qed.

Lemma wakes_set_timeline tl same :
  wakes (set_timeline_events should_log tl same) =
  negb (match tl with [] => true | _ => false end) && negb same.
Proof.
  unfold set_timeline_events. destruct tl as [|e0 rest].
  - apply wakes_log.
  - rewrite wakes_app, wakes_log. destruct same; reflexivity.
Qed.



(** Claim C9.  [set_timeline tl], for any [tl], changes the field
    [timeline] only: [shown] and [shutdown] are as before, and so is what
    [last_shown()] returns. *)
Theorem set_timeline_frame st tl :
  exists st' evs,
    step should_log ms (SetTimeline tl) st = Some (st', evs) /\
    timeline st' = tl /\ shown st' = shown st /\ shutdown st' = shutdown st /\
    exec false last_shown st = Some (shown st, st, []) /\
    exec false last_shown st' = Some (shown st, st', []).
Proof.
  destruct (same_keys_defined tl (timeline st)) as (b & Hsame & _).
  eexists _, _. split; [apply step_set_timeline; exact Hsame|].
  repeat split.
Qed.

Lemma prefix_keys_below tl : forall show lo,
  sorted tl -> Forall (fun k => lo < k) (keys tl) ->
  keys (firstn show tl) =
  filter (fun k => (lo <? k) &&
                   match deref tl show with
                   | Some e => k <? fst e
                   | None => true
                   end) (keys tl).
Proof.
  induction tl as [|e rest IH]; intros show lo Hs Hlo.
  - destruct show; reflexivity.
  - destruct show as [|show].
    + cbn [firstn keys map]. symmetry. apply filter_none.
      intros k Hk. apply andb_false_iff. right. apply Z.ltb_ge.
      cbn [deref nth_error]. destruct Hk as [<-|Hk]; [cbn; lia|].
      fold (keys rest) in Hk. unfold keys in Hk. apply in_map_iff in Hk as (e' & <- & Hin).
      pose proof (sorted_head _ _ _ Hs Hin). lia.
    + cbn [firstn keys map filter deref nth_error].
      fold (keys rest). fold (keys (firstn show rest)). fold (deref rest show).
      inversion Hlo as [|? ? Hlo1 Hlo2]; subst.
      assert ((lo <? fst e) &&
              match deref rest show with
              | Some e' => fst e <? fst e'
              | None => true
              end = true) as ->.
      { apply andb_true_intro. split; [apply Z.ltb_lt; exact Hlo1|].
        destruct (deref rest show) as [e'|] eqn:Hd; [|reflexivity].
        apply Z.ltb_lt. eapply sorted_head; [exact Hs|].
        eapply nth_error_In. exact Hd. }
      f_equal. apply IH; [eapply sorted_tail; exact Hs | exact Hlo2].
Qed.

(** The keys the loop visits are those strictly between [shown] and
    the key selected. *)
Lemma skipped_spec tl : forall sh show,
  sorted tl -> (upper_bound tl sh <= show)%nat ->
  skipped tl sh show = strictly_between tl sh show.
Proof.
  induction tl as [|[k a] rest IH]; intros sh show Hs Hub.
  - unfold skipped, strictly_between. simpl. destruct (show - 0)%nat; reflexivity.
  - unfold skipped, strictly_between in *. cbn [upper_bound] in *.
    destruct (Z.ltb_spec sh k) as [Hlt|Hge].
    + cbn [skipn]. rewrite Nat.sub_0_r. apply prefix_keys_below; [exact Hs|].
      constructor; [exact Hlt|]. apply Forall_forall. intros x Hx.
      fold (keys rest) in Hx. unfold keys in Hx. apply in_map_iff in Hx as (e' & <- & Hin).
      pose proof (sorted_head _ _ _ Hs Hin). simpl in *. lia.
    + destruct show as [|show]; [lia|].
      cbn [skipn Nat.sub keys map filter fst deref nth_error].
      destruct (Z.ltb_spec sh k); [lia|]. cbn [andb].
      apply IH; [eapply sorted_tail; exact Hs | lia].
Qed.

Lemma sorted_filter (f : Z -> bool) (l : list Z) :
  StronglySorted Z.lt l -> StronglySorted Z.lt (filter f l).
Proof.
  induction 1 as [|a l Hs IH Ha]; [constructor|].
  simpl. destruct (f a); [|exact IH].
  constructor; [exact IH|].
  rewrite Forall_forall in *. intros x Hx. apply Ha.
  apply filter_In in Hx. tauto.
Qed.

Lemma skip_warnings_app evs1 evs2 :
  skip_warnings (evs1 ++ evs2) = skip_warnings evs1 ++ skip_warnings evs2.
Proof.
  induction evs1 as [|[h ev] rest IH]; [reflexivity|].
  destruct ev as [lvl m| | | | |]; simpl; try exact IH.
  destruct lvl, m; simpl; rewrite ?IH; reflexivity.
Qed.

Lemma skip_warnings_log lvl m :
  (forall sched age, m <> SkipFrame sched age) ->
  skip_warnings (@log_events Atom should_log lvl m) = [].
Proof.
  intros Hm. unfold log_events. destruct (should_log lvl); [|reflexivity].
  destruct lvl, m; try reflexivity. exfalso. eapply Hm. reflexivity.
Qed.

Lemma skip_warnings_skip now ks :
  skip_warnings (@skip_events Atom should_log ms now ks) =
  if should_log log_level.warn
  then map (fun k => (k, Z.quot (now - k) ms)) ks
  else [].
Proof.
  unfold skip_events. destruct (should_log log_level.warn); [|reflexivity].
  induction ks as [|k ks IH]; [reflexivity|]. simpl. now rewrite IH.
Qed.

Lemma skip_warnings_tail now done tl show :
  skip_warnings (tail_events should_log ms now done tl show) = [].
Proof.
  unfold tail_events. destruct (deref tl show) as [[k a]|].
  - destruct (now <? k), done; cbn [skip_warnings];
      rewrite ?skip_warnings_app, ?skip_warnings_log by discriminate; reflexivity.
  - rewrite skip_warnings_app, skip_warnings_log by discriminate. reflexivity.
Qed.

(** Every due key sits before the upper bound on [now]. *)
Lemma due_key_position tl now i e :
  sorted tl -> nth_error tl i = Some e -> fst e <= now -> (i < upper_bound tl now)%nat.
Proof.
  intros Hs Hn Hle.
  destruct (Nat.le_gt_cases (upper_bound tl now) i) as [Hge|]; [|assumption].
  pose proof (upper_bound_after tl now i e Hs Hn Hge). lia.
Qed.

(** A due entry that is selected carries the greatest due key. *)
Lemma selected_due_is_latest tl now sh show k a :
  sorted tl -> select_show tl now sh = Some show ->
  nth_error tl show = Some (k, a) -> k <= now ->
  forall k', In k' (keys tl) -> k' <= now -> k' <= k.
Proof.
  intros Hs Hsel Hn Hk k' Hin Hk'.
  unfold keys in Hin. apply in_map_iff in Hin as (e' & <- & Hin).
  apply In_nth_error in Hin as [i Hi].
  pose proof (due_key_position tl now i e' Hs Hi Hk') as Hpos.
  pose proof (due_key_position tl now show _ Hs Hn Hk) as Hshow.
  destruct (select_show_cases tl now sh) as [[Hub E]|(b & k0 & a0 & Hub & Hn0 & Hk0 & E)];
    rewrite E in Hsel; injection Hsel as <-; [lia|].
  destruct (sh <? k0); [|lia].
  destruct (Nat.eq_dec i b) as [->|Hne].
  - rewrite Hn in Hi. injection Hi as <-. simpl. lia.
  - pose proof (sorted_nth_lt tl i b _ _ Hs Hi Hn ltac:(lia)). simpl in *. lia.
Qed.

(** When every key is due, the last entry is selected if it is newer
    than [shown]. *)
Lemma all_due_selects_last tl now sh k a :
  sorted tl -> nth_error tl (length tl - 1) = Some (k, a) -> k <= now -> sh < k ->
  select_show tl now sh = Some (length tl - 1)%nat.
Proof.
  intros Hs Hn Hk Hsh.
  pose proof (due_key_position tl now _ _ Hs Hn Hk) as Hpos.
  pose proof (upper_bound_le_length tl now) as Hl.
  destruct (select_show_cases tl now sh) as [[Hub E]|(b & k0 & a0 & Hub & Hn0 & Hk0 & E)];
    [lia|].
  assert (b = length tl - 1)%nat as -> by lia.
  rewrite Hn in Hn0. injection Hn0 as <- <-.
  rewrite E. destruct (Z.ltb_spec sh k); [reflexivity|lia].
Qed.

Lemma advance_through_bounds (ks : list Z) : forall lo,
  StronglySorted Z.lt ks -> Forall (fun k => lo < k) ks ->
  Forall (fun k => lo < k <= advance_through ks lo) ks.
Proof.
  induction ks as [|k ks IH]; intros lo Hss Hlo; [constructor|].
  inversion Hss as [|? ? Hss' Hall]; subst.
  inversion Hlo as [|? ? Hk Hlo']; subst.
  cbn [advance_through fold_left]. fold (advance_through ks k).
  assert (Forall (fun x => k < x <= advance_through ks k) ks) as Hks
    by (apply IH; assumption).
  constructor.
  - split; [exact Hk|].
    destruct (advance_through_last ks k) as [[_ ->]|Hin]; [lia|].
    rewrite Forall_forall in Hall. specialize (Hall _ Hin). lia.
  - rewrite Forall_forall in *. intros x Hx.
    specialize (Hks x Hx). specialize (Hlo' x Hx). lia.
Qed.

(** A pass either submits nothing and leaves [shown] where the skip
    loop put it, or submits the selected entry, which is due. *)
Lemma pass_submits tl now done sh show :
  let evs := play_events should_log tl
             ++ skip_events should_log ms now (skipped tl sh show)
             ++ tail_events should_log ms now done tl show in
  (submissions evs = [] /\
   final_shown now done tl sh show = advance_through (skipped tl sh show) sh) \/
  (exists k a,
      deref tl show = Some (k, a) /\ k <= now /\ done = true /\
      submissions evs = [(k, a)] /\ final_shown now done tl sh show = k).
Proof.
  cbv zeta. rewrite !submissions_app, submissions_skip, submissions_tail.
  unfold play_events. rewrite submissions_log. cbn [app].
  unfold final_shown.
  destruct (deref tl show) as [[k a]|] eqn:Hn; [|left; split; reflexivity].
  destruct (Z.ltb_spec now k); [left; split; reflexivity|].
  destruct done; [right|left; split; reflexivity].
  exists k, a. repeat split. lia.
Qed.

(** Claim C3, as the code accounts for skips.  In a pass over a timeline
    with entries, from a state in which [shown] is not ahead of the
    clock, the keys strictly between [shown] and the selected position
    are visited in increasing order; each is reported at level [warn]
    with its scheduled time and its age in milliseconds when the logger
    admits that level; none of them is submitted.  The pass submits at
    most the selected entry, and only if it is due and the driver
    reports the previous update as done; [shown] then is its key, the
    greatest due key, and otherwise [shown] is the last key visited (or
    unchanged).  When the last key of the timeline is due and greater
    than [shown], it is the one selected, the keys counted as skipped are
    those between [shown] and it, and its atom is submitted if the driver
    is ready. *)
Theorem skip_accounting st t now done :
  valid st t -> t <= now -> shutdown st = false -> timeline st <> [] ->
  exists show st' evs,
    select_show (timeline st) now (shown st) = Some show /\
    step should_log ms (Iterate now done) st = Some (st', evs) /\
    let between := strictly_between (timeline st) (shown st) show in
    StronglySorted Z.lt between /\
    skip_warnings evs =
      (if should_log log_level.warn
       then map (fun k => (k, Z.quot (now - k) ms)) between
       else []) /\
    ((submissions evs = [] /\ shown st' = advance_through between (shown st)) \/
     (exists k a,
         deref (timeline st) show = Some (k, a) /\ k <= now /\ done = true /\
         submissions evs = [(k, a)] /\ ~ In k between /\ shown st' = k /\
         forall k', In k' (keys (timeline st)) -> k' <= now -> k' <= k)) /\
    Forall (fun k => shown st < k <= shown st') between /\
    (forall k a,
        nth_error (timeline st) (length (timeline st) - 1) = Some (k, a) ->
        k <= now -> shown st < k ->
        show = (length (timeline st) - 1)%nat /\
        between = filter (fun x => (shown st <? x) && (x <? k)) (keys (timeline st)) /\
        (done = true -> submissions evs = [(k, a)])).
Proof.
  intros [Hsi Hle] Hnow Hsd Hne.
  pose proof (strictly_increasing_sorted _ Hsi) as Hs. fold (sorted (timeline st)) in Hs.
  destruct (select_show_defined (timeline st) now (shown st)) as [show Hsel].
  pose proof (select_show_bounds (timeline st) now (shown st) show Hs ltac:(lia) Hsel)
    as Hb.
  pose proof (select_show_le_upper _ _ _ _ Hsel) as Hup.
  exists show. eexists _, _.
  split; [exact Hsel|].
  split; [apply (step_iterate_pass should_log ms st now done show); assumption|].
  cbv zeta.
  pose proof (skipped_spec (timeline st) (shown st) show Hs (proj1 Hb)) as Hspec.
  rewrite <- Hspec.
  set (between := skipped (timeline st) (shown st) show) in *.
  assert (forall x, In x between ->
            shown st < x <= now /\ In x (keys (timeline st)) /\
            (forall k a, nth_error (timeline st) show = Some (k, a) -> x < k)) as Hbetween.
  { intros x Hx. eapply skipped_facts; eauto. }
  assert (StronglySorted Z.lt between) as Hsorted.
  { rewrite Hspec. apply sorted_filter. exact Hs. }
  assert (Forall (fun k => shown st < k <= advance_through between (shown st)) between)
    as Hadv.
  { apply advance_through_bounds; [exact Hsorted|].
    apply Forall_forall. intros x Hx. apply Hbetween in Hx. lia. }
  pose proof (pass_submits (timeline st) now done (shown st) show) as Hout.
  cbv zeta in Hout. fold between in Hout.
  cbn [shown with_shown].
  split; [exact Hsorted|].
  split.
  { rewrite !skip_warnings_app, skip_warnings_skip, skip_warnings_tail.
    unfold play_events. rewrite skip_warnings_log by discriminate.
    cbn [app]. now rewrite app_nil_r. }
  split; [|split].
  - destruct Hout as [Hnone|(k & a & Hd & Hk & Hdone & Hsub & Hfin)]; [left; exact Hnone|].
    right. exists k, a. repeat split; auto.
    + intros Hin. apply Hbetween in Hin as (_ & _ & Hlt).
      specialize (Hlt k a Hd). lia.
    + eapply selected_due_is_latest; eauto.
  - destruct Hout as [[_ ->]|(k & a & Hd & Hk & Hdone & Hsub & ->)]; [exact Hadv|].
    apply Forall_forall. intros x Hx. apply Hbetween in Hx as (Hx & _ & Hlt).
    specialize (Hlt k a Hd). lia.
  - intros k a Hlast Hk Hsh.
    pose proof (all_due_selects_last (timeline st) now (shown st) k a Hs Hlast Hk Hsh)
      as Hsel'.
    rewrite Hsel in Hsel'. injection Hsel' as ->.
    split; [reflexivity|]. split.
    + subst between. rewrite Hspec. unfold strictly_between, deref. rewrite Hlast.
      reflexivity.
    + intros ->.
      destruct Hout as [[Hnone Hfin]|(k' & a' & Hd & _ & _ & Hsub & _)].
      * exfalso. revert Hnone.
        rewrite !submissions_app, submissions_skip, submissions_tail.
        unfold deref. rewrite Hlast. destruct (Z.ltb_spec now k); [lia|].
        unfold play_events. rewrite submissions_log. discriminate.
      * unfold deref in Hd. rewrite Hlast in Hd. injection Hd as <- <-. exact Hsub.
Qed.

(** A pass during which the driver reports the previous update as
    pending. *)
Lemma busy_pass st t now :
  valid st t -> t <= now -> shutdown st = false -> timeline st <> [] ->
  exists show st' evs,
    select_show (timeline st) now (shown st) = Some show /\
    step should_log ms (Iterate now false) st = Some (st', evs) /\
    submissions evs = [] /\
    shown st' =
      advance_through (strictly_between (timeline st) (shown st) show) (shown st) /\
    (forall k a, deref (timeline st) show = Some (k, a) -> shown st' < k).
Proof.
  intros [Hsi Hle] Hnow Hsd Hne.
  pose proof (strictly_increasing_sorted _ Hsi) as Hs. fold (sorted (timeline st)) in Hs.
  destruct (select_show_defined (timeline st) now (shown st)) as [show Hsel].
  pose proof (select_show_bounds (timeline st) now (shown st) show Hs ltac:(lia) Hsel)
    as Hb.
  pose proof (select_show_le_upper _ _ _ _ Hsel) as Hup.
  exists show. eexists _, _.
  split; [exact Hsel|].
  split; [apply (step_iterate_pass should_log ms st now false show); assumption|].
  rewrite <- (skipped_spec (timeline st) (shown st) show Hs (proj1 Hb)).
  destruct (pass_submits (timeline st) now false (shown st) show)
    as [[Hnone Hfin]|(k & a & _ & _ & Hdone & _)]; [|discriminate].
  cbn [shown with_shown]. rewrite Hfin.
  split; [exact Hnone|]. split; [reflexivity|].
  intros k a Hd. unfold deref in Hd.
  destruct (advance_through_last (skipped (timeline st) (shown st) show) (shown st))
    as [[_ ->]|Hin].
  - destruct (Z.le_gt_cases k now) as [Hdue|Hfut]; [|lia].
    eapply selected_due_is_newer; eauto.
  - destruct (skipped_facts _ _ now _ _ Hs Hup Hin) as (_ & _ & Hlt). eauto.
Qed.

Lemma run_single (a : @action Atom) st :
  run should_log ms [a] st =
  match step should_log ms a st with
  | Some (st', evs) => Some (st', evs ++ [])
  | None => None
  end.
Proof. reflexivity. Qed.

Lemma run_split (s1 s2 : list (@action Atom)) st t :
  valid st t -> admissible t (s1 ++ s2) = true ->
  exists st1 evs1 st2 evs2,
    run should_log ms s1 st = Some (st1, evs1) /\
    run should_log ms s2 st1 = Some (st2, evs2) /\
    run should_log ms (s1 ++ s2) st = Some (st2, evs1 ++ evs2) /\
    valid st1 (last_reading t s1) /\
    admissible (last_reading t s1) s2 = true.
Proof.
  intros Hv Hadm. rewrite admissible_app in Hadm.
  apply andb_prop in Hadm as [H1 H2].
  destruct (run_summary should_log ms s1 st t Hv H1) as (st1 & evs1 & Hr1 & Hv1 & _).
  destruct (run_summary should_log ms s2 st1 _ Hv1 H2) as (st2 & evs2 & Hr2 & _).
  exists st1, evs1, st2, evs2. rewrite run_app, Hr1, Hr2. auto.
Qed.

(** Claim C5.  In every execution (passes of the player thread
    interleaved with [set_timeline] calls and the destructor, under a
    clock that does not go back), [shown] after a longer prefix is at
    least [shown] after a shorter one; and after any single action
    [shown] is either unchanged or a key of the timeline the player held
    when the action began. *)
Theorem shown_monotone st t s1 s2 :
  valid st t -> admissible t (s1 ++ s2) = true ->
  exists st1 evs1 st2 evs2,
    run should_log ms s1 st = Some (st1, evs1) /\
    run should_log ms s2 st1 = Some (st2, evs2) /\
    run should_log ms (s1 ++ s2) st = Some (st2, evs1 ++ evs2) /\
    shown st1 <= shown st2 /\
    (forall a, s2 = [a] ->
       shown st2 = shown st1 \/
       ((exists now done, a = Iterate now done) /\
        In (shown st2) (keys (timeline st1)))).
Proof.
  intros Hv Hadm.
  destruct (run_split s1 s2 st t Hv Hadm)
    as (st1 & evs1 & st2 & evs2 & Hr1 & Hr2 & Hr & Hv1 & Hadm2).
  exists st1, evs1, st2, evs2. repeat (split; [assumption|]).
  destruct (run_summary should_log ms s2 st1 _ Hv1 Hadm2)
    as (st2' & evs2' & Hr2' & _ & Hmono & _).
  rewrite Hr2 in Hr2'. injection Hr2' as <- <-.
  split; [exact Hmono|].
  intros a ->. rewrite run_single in Hr2.
  destruct a as [now done|tl|].
  - cbn [admissible] in Hadm2. rewrite andb_true_r in Hadm2. apply Z.leb_le in Hadm2.
    destruct (iterate_summary should_log ms st1 _ now done Hv1 Hadm2)
      as (st' & evs' & Hstep & _ & _ & _ & Hmem & _).
    rewrite Hstep in Hr2. injection Hr2 as <- _.
    destruct Hmem as [E|Hin]; [left; exact E|right]. split; [eauto|exact Hin].
  - destruct (same_keys_defined tl (timeline st1)) as (b & Hsame & _).
    rewrite (step_set_timeline should_log ms st1 tl b Hsame) in Hr2.
    injection Hr2 as <- _. left. reflexivity.
  - rewrite (step_destroy should_log ms st1) in Hr2.
    injection Hr2 as <- _. left. reflexivity.
Qed.

(** Claim C6.  The keys of the entries handed to the driver's [update]
    over an execution are strictly increasing. *)
Theorem submissions_increasing st t sched :
  valid st t -> admissible t sched = true ->
  exists st' evs,
    run should_log ms sched st = Some (st', evs) /\
    StronglySorted Z.lt (map fst (submissions evs)).
Proof.
  intros Hv Hadm.
  destruct (run_summary should_log ms sched st t Hv Hadm)
    as (st' & evs & Hr & _ & _ & _ & Hsorted & _).
  exists st', evs. auto.
Qed.

(** Claim C10.  At every point of an execution, each entry submitted
    afterwards has a key greater than [shown] at that point, whatever
    timelines are installed in between. *)
Theorem never_submits_old_keys st t s1 s2 :
  valid st t -> admissible t (s1 ++ s2) = true ->
  exists st1 evs1 st2 evs2,
    run should_log ms s1 st = Some (st1, evs1) /\
    run should_log ms s2 st1 = Some (st2, evs2) /\
    run should_log ms (s1 ++ s2) st = Some (st2, evs1 ++ evs2) /\
    Forall (fun s => shown st1 < fst s) (submissions evs2).
Proof.
  intros Hv Hadm.
  destruct (run_split s1 s2 st t Hv Hadm)
    as (st1 & evs1 & st2 & evs2 & Hr1 & Hr2 & Hr & Hv1 & Hadm2).
  exists st1, evs1, st2, evs2. repeat (split; [assumption|]).
  destruct (run_summary should_log ms s2 st1 _ Hv1 Hadm2)
    as (st2' & evs2' & Hr2' & _ & _ & Hall & _).
  rewrite Hr2 in Hr2'. injection Hr2' as <- <-.
  eapply Forall_impl; [|exact Hall]. cbv beta. intros; lia.
Qed.

(** Claim C4, as the code behaves while the driver is busy.  If
    [update_done_yet] answers [false] every time, no [update] is ever
    called.  [shown] is not frozen: a busy pass still runs the skip loop,
    so [shown] ends at the last key strictly between its old value and
    the selected position (unchanged when there is none), which is
    below the key selected. *)
Theorem busy_hardware st t sched now :
  valid st t -> admissible t (sched ++ [Iterate now false]) = true ->
  all_busy sched = true ->
  exists st1 evs1 st2 evs2,
    run should_log ms sched st = Some (st1, evs1) /\
    step should_log ms (Iterate now false) st1 = Some (st2, evs2) /\
    run should_log ms (sched ++ [Iterate now false]) st = Some (st2, evs1 ++ evs2) /\
    submissions (evs1 ++ evs2) = [] /\
    (shutdown st1 = true \/ timeline st1 = [] -> shown st2 = shown st1) /\
    (shutdown st1 = false -> timeline st1 <> [] ->
     exists show,
       select_show (timeline st1) now (shown st1) = Some show /\
       shown st2 =
         advance_through (strictly_between (timeline st1) (shown st1) show)
           (shown st1) /\
       forall k a, deref (timeline st1) show = Some (k, a) -> shown st2 < k).
Proof.
  intros Hv Hadm Hbusy.
  destruct (run_split sched [Iterate now false] st t Hv Hadm)
    as (st1 & evs1 & st2 & evs2' & Hr1 & Hr2 & Hr & Hv1 & Hadm2).
  pose proof Hadm as Hadm1. rewrite admissible_app in Hadm1.
  apply andb_prop in Hadm1 as [Hadm1 _].
  destruct (run_summary should_log ms sched st t Hv Hadm1)
    as (st1' & evs1' & Hr1' & _ & _ & _ & _ & Hnone).
  rewrite Hr1 in Hr1'. injection Hr1' as <- <-.
  cbn [admissible] in Hadm2. rewrite andb_true_r in Hadm2. apply Z.leb_le in Hadm2.
  rewrite run_single in Hr2.
  destruct (step should_log ms (Iterate now false) st1) as [[st2' evs2]|] eqn:Hstep;
    [|discriminate].
  injection Hr2 as -> <-. rewrite app_nil_r in Hr.
  exists st1, evs1, st2, evs2. repeat (split; [auto; fail|]).
  destruct (shutdown st1) eqn:Hsd.
  { rewrite step_iterate_shutdown in Hstep by assumption. injection Hstep as <- <-.
    rewrite submissions_app, Hnone by assumption.
    split; [reflexivity|]. split; [reflexivity|discriminate]. }
  destruct (timeline st1) as [|e0 rest] eqn:Htl.
  { rewrite step_iterate_empty in Hstep by assumption. injection Hstep as <- <-.
    rewrite !submissions_app, submissions_log, Hnone by assumption.
    split; [reflexivity|]. split; [reflexivity|]. intros _ H. congruence. }
  rewrite <- Htl in *.
  assert (timeline st1 <> []) as Hne by congruence.
  destruct (busy_pass st1 _ now Hv1 Hadm2 Hsd Hne)
    as (show & st2' & evs2' & Hsel & Hstep' & Hsub & Hsh & Hlt).
  rewrite Hstep in Hstep'. injection Hstep' as <- <-.
  rewrite submissions_app, Hnone, Hsub by assumption.
  split; [reflexivity|]. split.
  - intros [H|H]; [discriminate|contradiction].
  - intros _ _. exists show. auto.
Qed.

(** *** Ownership of the mutex *)

Lemma held_log lvl m : held_unless_waiting (@log_events Atom should_log lvl m).
Proof.
  unfold held_unless_waiting, log_events.
  destruct (should_log lvl); repeat constructor.
Qed.

Lemma held_skip now ks : held_unless_waiting (@skip_events Atom should_log ms now ks).
Proof.
  unfold held_unless_waiting, skip_events.
  destruct (should_log log_level.warn); [|constructor].
  induction ks; simpl; constructor; auto.
Qed.

Lemma held_tail now done tl show :
  held_unless_waiting (tail_events should_log ms now done tl show).
Proof.
  unfold tail_events.
  destruct (deref tl show) as [[k a]|]; [destruct (now <? k); [|destruct done]|].
  all: repeat first [ apply Forall_app; split | apply held_log
                    | apply Forall_cons | apply Forall_nil | reflexivity ].
Qed.

Lemma pass_holds_mutex st t now done :
  valid st t -> t <= now ->
  exists st' evs,
    step should_log ms (Iterate now done) st = Some (st', evs) /\
    held_unless_waiting evs.
Proof.
  intros [Hsi Hle] Hnow.
  pose proof (strictly_increasing_sorted _ Hsi) as Hs. fold (sorted (timeline st)) in Hs.
  destruct (shutdown st) eqn:Hsd.
  { exists st, []. rewrite step_iterate_shutdown by assumption.
    split; [reflexivity|constructor]. }
  destruct (timeline st) as [|e0 rest] eqn:Htl.
  { eexists st, _. rewrite step_iterate_empty by assumption.
    split; [reflexivity|]. apply Forall_app. split; [apply held_log|].
    repeat constructor. }
  rewrite <- Htl in *.
  assert (timeline st <> []) as Hne by congruence.
  destruct (select_show_defined (timeline st) now (shown st)) as [show Hsel].
  pose proof (select_show_bounds (timeline st) now (shown st) show Hs ltac:(lia) Hsel)
    as Hb.
  eexists _, _. rewrite (step_iterate_pass should_log ms st now done show) by assumption.
  split; [reflexivity|].
  repeat (apply Forall_app; split);
    [apply held_log | apply held_skip | apply held_tail].
Qed.

Lemma driver_calls_hold_mutex evs :
  held_unless_waiting evs ->
  Forall (fun he => is_driver_call (snd he) = true -> fst he = true) evs.
Proof.
  apply Forall_impl. intros [h ev] Hh Hd. simpl in *. subst h.
  destruct ev; simpl in *; try discriminate; reflexivity.
Qed.

End Properties.

End PlayerFacts.

(** * Doubles: order, signs and NaN *)

Module DoubleFacts.

Import Double.

(** Comparing the other way round gives the opposite outcome. *)
Lemma compare_swap (a b : double) :
  SFcompare b a = option_map CompOpp (SFcompare a b).
Proof.
  destruct a as [sa|sa| |sa ma ea], b as [sb|sb| |sb mb eb]; cbn;
    try reflexivity; try (destruct sa; reflexivity); try (destruct sb; reflexivity);
    try (destruct sa, sb; reflexivity).
  destruct sa, sb; cbn; try reflexivity.
  - rewrite (Z.compare_antisym ea eb).
    destruct (ea ?= eb); cbn; try reflexivity.
    f_equal. f_equal. change (Pos.compare_cont Eq mb ma) with (Pos.compare mb ma).
    change (Pos.compare_cont Eq ma mb) with (Pos.compare ma mb).
    apply Pos.compare_antisym.
  - rewrite (Z.compare_antisym ea eb).
    destruct (ea ?= eb); cbn; try reflexivity.
    change (Pos.compare_cont Eq mb ma) with (Pos.compare mb ma).
    change (Pos.compare_cont Eq ma mb) with (Pos.compare ma mb).
    f_equal. apply Pos.compare_antisym.
Qed.

Lemma compare_defined (a b : double) :
  is_nan a = false -> is_nan b = false -> exists c, SFcompare a b = Some c.
Proof.
  destruct a, b; cbn; intros Ha Hb; try discriminate; eexists; reflexivity.
Qed.

Lemma ltb_leb (a b : double) : ltb a b = true -> leb a b = true.
Proof. unfold ltb, leb, SFltb, SFleb. destruct (SFcompare a b) as [[]|]; auto. Qed.

Lemma not_ltb_leb (a b : double) :
  is_nan a = false -> is_nan b = false -> ltb a b = false -> leb b a = true.
Proof.
  intros Ha Hb. unfold ltb, leb, SFltb, SFleb. rewrite (compare_swap a b).
  destruct (compare_defined a b Ha Hb) as [c ->]. destruct c; cbn; auto.
Qed.

Lemma leb_refl (a : double) : is_nan a = false -> leb a a = true.
Proof.
  intros Ha. unfold leb, SFleb.
  destruct a as [s|s| |s m e]; try discriminate; cbn; try (destruct s; reflexivity).
  destruct s; rewrite Z.compare_refl;
    change (Pos.compare_cont Eq m m) with (Pos.compare m m);
    now rewrite Pos.compare_refl.
Qed.

Lemma shr_1_nonneg mrs : 0 <= shr_m mrs -> 0 <= shr_m (shr_1 mrs).
Proof.
  destruct mrs as [m r s]. cbn [shr_m]. intros Hm.
  destruct m as [|p|p]; [cbn; lia| |lia].
  destruct p; cbn; lia.
Qed.

Lemma iter_shr_1_nonneg (p : positive) : forall mrs,
  0 <= shr_m mrs -> 0 <= shr_m (iter_pos shr_1 p mrs).
Proof.
  induction p as [p IH|p IH|]; intros mrs Hm; cbn [iter_pos].
  - apply IH, IH, shr_1_nonneg, Hm.
  - apply IH, IH, Hm.
  - apply shr_1_nonneg, Hm.
Qed.

Lemma shr_fexp_nonneg m e l :
  0 <= m -> 0 <= shr_m (fst (shr_fexp prec emax m e l)).
Proof.
  intros Hm. unfold shr_fexp, shr.
  assert (shr_m (shr_record_of_loc m l) = m) as Hrec
    by (destruct l as [|[]]; reflexivity).
  destruct (fexp prec emax (Zdigits2 m + e) - e) as [|p|p]; cbn [fst];
    [now rewrite Hrec | | now rewrite Hrec].
  apply iter_shr_1_nonneg. now rewrite Hrec.
Qed.

Lemma round_nearest_even_nonneg m l : 0 <= m -> 0 <= round_nearest_even m l.
Proof.
  intros Hm. unfold round_nearest_even.
  destruct l as [|[]]; try lia. destruct (Z.even m); lia.
Qed.

(** Rounding a mantissa that is not negative gives a number of the sign
    asked for: never NaN. *)
Lemma binary_round_aux_signed s m e l :
  0 <= m -> signed s (binary_round_aux prec emax s m e l).
Proof.
  intros Hm. unfold binary_round_aux.
  pose proof (shr_fexp_nonneg m e l Hm) as H1.
  destruct (shr_fexp prec emax m e l) as [mrs' e'] eqn:E1. cbn [fst] in H1.
  pose proof (shr_fexp_nonneg
                (round_nearest_even (shr_m mrs') (loc_of_shr_record mrs')) e' loc_Exact
                (round_nearest_even_nonneg _ _ H1)) as H2.
  destruct (shr_fexp prec emax
              (round_nearest_even (shr_m mrs') (loc_of_shr_record mrs')) e' loc_Exact)
    as [mrs'' e''] eqn:E2. cbn [fst] in H2.
  destruct (shr_m mrs'') as [|p|p]; [reflexivity| |lia].
  destruct (e'' <=? emax - prec); reflexivity.
Qed.

Lemma binary_round_signed s m e : signed s (binary_round prec emax s m e).
Proof.
  unfold binary_round.
  destruct (shl_align m e (fexp prec emax (Z.pos (digits2_pos m) + e))) as [mz ez].
  apply binary_round_aux_signed. lia.
Qed.

Lemma signed_not_nan s a : signed s a -> is_nan a = false.
Proof. destruct a; cbn; intros H; (reflexivity || contradiction). Qed.

Lemma signed_nonneg a : signed false a -> nonneg a = true.
Proof. destruct a as [s|s| |s m e]; cbn; intros H; subst; (reflexivity || contradiction). Qed.

Lemma nonneg_not_nan a : nonneg a = true -> is_nan a = false.
Proof. destruct a as [s|[]| |[] m e]; cbn; intros H; (reflexivity || discriminate). Qed.

Lemma finite_not_nan a : finite a = true -> is_nan a = false.
Proof. destruct a; cbn; intros H; (reflexivity || discriminate). Qed.

(** The sum of two numbers that are not negative is one. *)
Lemma add_nonneg a b : nonneg a = true -> nonneg b = true -> nonneg (add a b) = true.
Proof.
  destruct a as [sa|[]| |[] ma ea], b as [sb|[]| |[] mb eb]; cbn;
    intros Ha Hb; try discriminate; try reflexivity.
  - destruct sa, sb; reflexivity.
  - unfold add, SFadd. cbn [cond_Zopp].
    apply signed_nonneg. cbn [Z.add binary_normalize]. apply binary_round_signed.
Qed.

(** A finite number less a number that is not negative is not NaN. *)
Lemma sub_not_nan a b :
  finite a = true -> nonneg b = true -> is_nan (sub a b) = false.
Proof.
  destruct a as [sa|sa| |sa ma ea], b as [sb|[]| |[] mb eb]; cbn;
    intros Ha Hb; try discriminate; try reflexivity.
  - destruct sa, sb; reflexivity.
  - unfold sub, SFsub. cbn [cond_Zopp].
    destruct (cond_Zopp sa (Z.pos (fst (shl_align ma ea (Z.min ea eb))))
              - Z.pos (fst (shl_align mb eb (Z.min ea eb)))) as [|p|p];
      cbn [binary_normalize]; [reflexivity| |];
      eapply signed_not_nan, binary_round_signed.
Qed.

Lemma ltb_zero_positive a :
  ltb zero a = true ->
  match a with
  | S754_infinity false | S754_finite false _ _ => True
  | _ => False
  end.
Proof. destruct a as [s|[]| |[] m e]; cbn; intros H; (exact I || discriminate). Qed.

(** The period of a positive rate is a number that is not negative. *)
Lemma period_nonneg hz : ltb zero hz = true -> nonneg (div one hz) = true.
Proof.
  intros H. apply ltb_zero_positive in H.
  destruct hz as [s|[]| |[] m e]; try contradiction; [reflexivity|].
  unfold div, one, of_Z, scaled. 
  change (binary_normalize prec emax 1 0 false)
    with (S754_finite false 4503599627370496 (-52)).
  unfold SFdiv. cbn [xorb].
  destruct (SFdiv_core_binary prec emax 4503599627370496 (-52) (Z.pos m) e)
    as [[mz ez] lz] eqn:E.
  apply signed_nonneg, binary_round_aux_signed.
  unfold SFdiv_core_binary in E.
  set (s := -52 - e - _) in E.
  assert (0 <= match s with
               | 0 => 4503599627370496
               | Z.pos _ => Z.shiftl 4503599627370496 s
               | Z.neg _ => 0
               end) as Hm'.
  { destruct s; try lia. apply Z.shiftl_nonneg. lia. }
  revert E Hm'. generalize (match s with
               | 0 => 4503599627370496
               | Z.pos _ => Z.shiftl 4503599627370496 s
               | Z.neg _ => 0
               end). intros m' E Hm'.
  pose proof (Z.div_pos m' (Z.pos m) Hm' ltac:(lia)) as Hq.
  unfold Z.div in Hq. destruct (Z.div_eucl m' (Z.pos m)) as [q r].
  injection E as <- _ _. exact Hq.
Qed.

(** What lies above a number that is not negative is not negative. *)
Lemma ltb_nonneg a b : nonneg a = true -> ltb a b = true -> nonneg b = true.
Proof.
  destruct a as [sa|[]| |[] ma ea], b as [sb|[]| |[] mb eb]; cbn;
    intros Ha H; try discriminate; try reflexivity.
Qed.

End DoubleFacts.

(** * Properties of the main loop *)

Module LoopFacts.

Import Double DoubleFacts MainLoop.

(** [std::max] returns one of its arguments, and one that is not below
    the other when neither is NaN. *)
Lemma std_max_bounds (a b : double) :
  (std_max a b = a \/ std_max a b = b) /\
  (is_nan a = false -> is_nan b = false ->
   leb a (std_max a b) = true /\ leb b (std_max a b) = true).
Proof.
  unfold std_max. destruct (ltb a b) eqn:Hlt.
  - split; [now right|]. intros Ha Hb. split; [now apply ltb_leb | now apply leb_refl].
  - split; [now left|]. intros Ha Hb. split; [now apply leb_refl | now apply not_ltb_leb].
Qed.

Lemma std_max_nonneg (a b : double) : nonneg a = true -> nonneg (std_max a b) = true.
Proof.
  intros Ha. unfold std_max. destruct (ltb a b) eqn:Hlt; [|exact Ha].
  exact (ltb_nonneg a b Ha Hlt).
Qed.

Section Loop.
Context {Script : Type}.
Variable main_loop_hz : Script -> double.
Variable should_log : log_level.t -> bool.
Implicit Types (st : @LoopState Script) (evs : list (bool * @event Script)).

Lemma tick_shutdown st mono :
  shutdown st = true -> step main_loop_hz should_log (Tick mono) st = Some (st, []).
Proof.
  intros H. unfold step, exec, main_loop_step, bind, get_vars, ret. simpl.
  rewrite H. reflexivity.
Qed.

Lemma tick_no_script st mono :
  shutdown st = false -> script st = None ->
  step main_loop_hz should_log (Tick mono) st =
  Some (st, log_events should_log log_level.trace WaitForScript ++ [(false, Sleep)]).
Proof.
  intros H Hs. unfold step, main_loop_step, main_loop_iteration, log_events.
  thread_ops. rewrite H. cbn [vars]. rewrite Hs.
  destruct (should_log log_level.trace); reflexivity.
Qed.

Lemma tick_abort st mono sc :
  shutdown st = false -> script st = Some sc -> ltb zero (main_loop_hz sc) = false ->
  step main_loop_hz should_log (Tick mono) st = None.
Proof.
  intros H Hs Hz. unfold step, exec, main_loop_step, main_loop_iteration.
  unfold bind, get_vars, ret. cbn [vars]. rewrite H. cbn [vars]. rewrite Hs, Hz.
  reflexivity.
Qed.

Lemma tick_sleep st mono sc :
  shutdown st = false -> script st = Some sc -> ltb zero (main_loop_hz sc) = true ->
  ltb mono (add (last_mono st) (div one (main_loop_hz sc))) = true ->
  step main_loop_hz should_log (Tick mono) st =
  Some (st,
        log_events should_log log_level.trace
          (SleepFor (sub (add (last_mono st) (div one (main_loop_hz sc))) mono))
        ++ [(false, SleepUntil (add (last_mono st) (div one (main_loop_hz sc))))]).
Proof.
  intros H Hs Hz Hm. unfold step, exec, main_loop_step, main_loop_iteration.
  unfold bind, get_vars, ret. cbn [vars]. rewrite H. cbn [vars]. rewrite Hs, Hz, Hm.
  unfold log, log_events, when, mutex_unlock, mutex_lock, emit, bind.
  destruct (should_log log_level.trace); reflexivity.
Qed.

Lemma tick_update st mono sc :
  shutdown st = false -> script st = Some sc -> ltb zero (main_loop_hz sc) = true ->
  ltb mono (add (last_mono st) (div one (main_loop_hz sc))) = false ->
  step main_loop_hz should_log (Tick mono) st =
  Some ({| script := script st; shutdown := shutdown st;
           last_mono := std_max (add (last_mono st) (div one (main_loop_hz sc)))
                                (sub mono (div one (main_loop_hz sc))) |},
        log_events should_log log_level.debug (UpdateAt mono)
        ++ [(false, RunnerUpdate sc)]).
Proof.
  intros H Hs Hz Hm. destruct st as [scr sd lm]. cbn [shutdown script last_mono] in *.
  subst scr sd.
  unfold step, exec, main_loop_step, main_loop_iteration.
  unfold bind, get_vars, ret. cbn [vars shutdown script last_mono]. rewrite Hz, Hm.
  unfold log, log_events, when, set_last_mono, mutex_unlock, mutex_lock, emit, bind,
    get_vars, put_vars.
  destruct (should_log log_level.debug); reflexivity.
Qed.

Lemma runner_updates_app evs1 evs2 :
  runner_updates (evs1 ++ evs2) = runner_updates evs1 ++ runner_updates evs2.
Proof.
  induction evs1 as [|[h ev] rest IH]; [reflexivity|].
  destruct ev; simpl; rewrite IH; reflexivity.
Qed.

Lemma runner_updates_log lvl m :
  runner_updates (@log_events Script should_log lvl m) = [].
Proof. unfold log_events. destruct (should_log lvl); reflexivity. Qed.

(** The passes that call the runner. *)
Lemma tick_cases st mono st' evs :
  step main_loop_hz should_log (Tick mono) st = Some (st', evs) ->
  (runner_updates evs = [] /\ st' = st) \/
  (exists sc,
      shutdown st = false /\ script st = Some sc /\ ltb zero (main_loop_hz sc) = true /\
      ltb mono (add (last_mono st) (div one (main_loop_hz sc))) = false /\
      runner_updates evs = [(false, sc)] /\
      st' = {| script := script st; shutdown := shutdown st;
               last_mono := std_max (add (last_mono st) (div one (main_loop_hz sc)))
                                    (sub mono (div one (main_loop_hz sc))) |}).
Proof.
  intros Hstep.
  destruct (shutdown st) eqn:Hsd.
  { rewrite tick_shutdown in Hstep by assumption. injection Hstep as <- <-. now left. }
  destruct (script st) as [sc|] eqn:Hsc.
  2:{ rewrite tick_no_script in Hstep by assumption. injection Hstep as <- <-.
      left. rewrite runner_updates_app, runner_updates_log. now split. }
  destruct (ltb zero (main_loop_hz sc)) eqn:Hz.
  2:{ rewrite (tick_abort st mono sc) in Hstep by assumption. discriminate. }
  destruct (ltb mono (add (last_mono st) (div one (main_loop_hz sc)))) eqn:Hm.
  - rewrite (tick_sleep st mono sc) in Hstep by assumption. injection Hstep as <- <-.
    left. rewrite runner_updates_app, runner_updates_log. now split.
  - rewrite (tick_update st mono sc) in Hstep by assumption. injection Hstep as <- <-.
    right. exists sc. rewrite runner_updates_app, runner_updates_log.
    repeat split; auto. now rewrite Hsc, Hsd.
Qed.

(** Claim C7, as the code computes.  A pass of the main loop that calls
    the script runner does so once, for the installed script, when the
    clock reading is not below [last_mono + period], and sets
    [last_mono] to [max(last_mono + period, mono - period)], where
    [period = 1.0 / main_loop_hz] and the quotient, the sum and the
    difference are the rounded operations on doubles.  The new
    [last_mono] is one of the two.  When [last_mono] was a number that
    is not negative, as it is from its initial [0.0] on, and the clock
    reading is finite, none of these is NaN: the new [last_mono] is at
    least the rounded [last_mono + period] and at least the rounded
    [mono - period], the rounded [last_mono + period] is at most the
    clock reading, and the new [last_mono] is again not negative. *)
Theorem tick_advances_last_mono st mono st' evs :
  step main_loop_hz should_log (Tick mono) st = Some (st', evs) ->
  runner_updates evs <> [] ->
  exists sc,
    script st = Some sc /\ ltb zero (main_loop_hz sc) = true /\
    runner_updates evs = [(false, sc)] /\
    let period := div one (main_loop_hz sc) in
    let next := add (last_mono st) period in
    let back := sub mono period in
    ltb mono next = false /\
    last_mono st' = std_max next back /\
    (last_mono st' = next \/ last_mono st' = back) /\
    (nonneg (last_mono st) = true -> finite mono = true ->
     leb next (last_mono st') = true /\ leb back (last_mono st') = true /\
     leb next mono = true /\ nonneg (last_mono st') = true).
Proof.
  intros Hstep Hcalls.
  destruct (tick_cases st mono st' evs Hstep)
    as [[Hnone _]|(sc & Hsd & Hsc & Hz & Hm & Hup & ->)]; [contradiction|].
  exists sc. split; [exact Hsc|]. split; [exact Hz|]. split; [exact Hup|].
  cbv zeta. cbn [last_mono].
  destruct (std_max_bounds (add (last_mono st) (div one (main_loop_hz sc)))
              (sub mono (div one (main_loop_hz sc)))) as (Hor & Hle).
  split; [exact Hm|]. split; [reflexivity|]. split; [exact Hor|].
  intros Hlast Hmono.
  pose proof (period_nonneg _ Hz) as Hp.
  pose proof (add_nonneg _ _ Hlast Hp) as Hnext.
  pose proof (sub_not_nan _ _ Hmono Hp) as Hback.
  destruct (Hle (nonneg_not_nan _ Hnext) Hback) as [H1 H2].
  split; [exact H1|]. split; [exact H2|]. split.
  - apply not_ltb_leb; [apply finite_not_nan, Hmono | apply nonneg_not_nan, Hnext | exact Hm].
  - apply (std_max_nonneg _ _ Hnext).
Qed.

(** The mutex is free whenever the runner is called. *)
Lemma step_releases_for_runner (a : @action Script) st st' evs :
  step main_loop_hz should_log a st = Some (st', evs) ->
  Forall (fun hs => fst hs = false) (runner_updates evs).
Proof.
  destruct a as [mono|s|]; intros Hstep.
  - destruct (tick_cases st mono st' evs Hstep)
      as [[-> _]|(sc & _ & _ & _ & _ & -> & _)]; repeat constructor.
  - unfold step, on_play in Hstep. thread_ops_in Hstep. simpl in Hstep.
    injection Hstep as _ <-. constructor.
  - unfold step, on_quit in Hstep. thread_ops_in Hstep.
    destruct (should_log log_level.debug); simpl in Hstep; injection Hstep as _ <-;
      constructor.
Qed.

Lemma run_releases_for_runner (sched : list (@action Script)) : forall st st' evs,
  run main_loop_hz should_log sched st = Some (st', evs) ->
  Forall (fun hs => fst hs = false) (runner_updates evs).
Proof.
  induction sched as [|a rest IH]; intros st st' evs Hrun; cbn [run] in Hrun.
  - injection Hrun as _ <-. constructor.
  - destruct (step main_loop_hz should_log a st) as [[st1 evs1]|] eqn:Hstep;
      [|discriminate].
    destruct (run main_loop_hz should_log rest st1) as [[st2 evs2]|] eqn:Hrest;
      [|discriminate].
    injection Hrun as _ <-. rewrite runner_updates_app. apply Forall_app. split.
    + eapply step_releases_for_runner; eauto.
    + eapply IH; eauto.
Qed.

Lemma step_defined (a : @action Script) st :
  script_ok main_loop_hz st -> positive_rates main_loop_hz [a] = true ->
  exists st' evs,
    step main_loop_hz should_log a st = Some (st', evs) /\
    script_ok main_loop_hz st'.
Proof.
  intros Hok Hpos. destruct a as [mono|s|].
  - destruct (shutdown st) eqn:Hsd.
    { exists st, []. rewrite tick_shutdown by assumption. auto. }
    unfold script_ok in Hok.
    destruct (script st) as [sc|] eqn:Hsc.
    2:{ eexists st, _. rewrite tick_no_script by assumption.
        split; [reflexivity|]. unfold script_ok. now rewrite Hsc. }
    destruct (ltb mono (add (last_mono st) (div one (main_loop_hz sc)))) eqn:Hm.
    + eexists st, _. rewrite (tick_sleep st mono sc) by assumption.
      split; [reflexivity|]. unfold script_ok. now rewrite Hsc.
    + eexists _, _. rewrite (tick_update st mono sc) by assumption.
      split; [reflexivity|]. unfold script_ok. cbn [script]. now rewrite Hsc.
  - cbn [positive_rates] in Hpos. rewrite andb_true_r in Hpos.
    eexists _, _. split; [reflexivity|]. exact Hpos.
  - unfold step, on_quit. thread_ops.
    destruct (should_log log_level.debug); eexists _, _; (split; [reflexivity|]);
      exact Hok.
Qed.

Lemma run_defined (sched : list (@action Script)) : forall st,
  script_ok main_loop_hz st -> positive_rates main_loop_hz sched = true ->
  exists st' evs, run main_loop_hz should_log sched st = Some (st', evs).
Proof.
  induction sched as [|a rest IH]; intros st Hok Hpos.
  - exists st, []. reflexivity.
  - assert (positive_rates main_loop_hz [a] = true /\
            positive_rates main_loop_hz rest = true) as [Ha Hrest].
    { destruct a; cbn [positive_rates] in *; auto.
      apply andb_prop in Hpos as [H1 H2]. rewrite H1. auto. }
    destruct (step_defined a st Hok Ha) as (st1 & evs1 & Hstep & Hok1).
    destruct (IH st1 Hok1 Hrest) as (st2 & evs2 & Hrun).
    exists st2, (evs1 ++ evs2). cbn [run]. now rewrite Hstep, Hrun.
Qed.

End Loop.

End LoopFacts.

(** * The mutexes and the calls made under them *)

Module Locking.

Section Discipline.

Context {Atom Script : Type}.
Variable player_log : log_level.t -> bool.
Variable ms : Z.
Variable main_loop_hz : Script -> Double.double.
Variable server_log : log_level.t -> bool.

(** Claim C8, as the code locks.  The player thread owns its mutex at
    every call it makes except the waits: in particular it owns it
    during [update_done_yet] and [update].  The main loop never owns its
    mutex when it calls the script runner's [update]. *)
Theorem mutex_discipline
    (st : @FramePlayer.PlayerState Atom) (t now : Z) (done : bool)
    (lst : @MainLoop.LoopState Script) (sched : list (@MainLoop.action Script)) :
  FramePlayer.valid st t -> t <= now ->
  MainLoop.script_ok main_loop_hz lst ->
  MainLoop.positive_rates main_loop_hz sched = true ->
  (exists st' evs,
      FramePlayer.step player_log ms (FramePlayer.Iterate now done) st = Some (st', evs) /\
      FramePlayer.held_unless_waiting evs /\
      Forall (fun he => FramePlayer.is_driver_call (snd he) = true -> fst he = true) evs) /\
  (exists lst' levs,
      MainLoop.run main_loop_hz server_log sched lst = Some (lst', levs) /\
      Forall (fun hs => fst hs = false) (MainLoop.runner_updates levs)).
Proof.
  intros Hv Hnow Hok Hpos. split.
  - destruct (PlayerFacts.pass_holds_mutex player_log ms st t now done Hv Hnow)
      as (st' & evs & Hstep & Hheld).
    exists st', evs. repeat split; [exact Hstep | exact Hheld |].
    apply PlayerFacts.driver_calls_hold_mutex. exact Hheld.
  - destruct (LoopFacts.run_defined main_loop_hz server_log sched lst Hok Hpos)
      as (lst' & levs & Hrun).
    exists lst', levs. split; [exact Hrun|].
    eapply LoopFacts.run_releases_for_runner. exact Hrun.
Qed.

End Discipline.

End Locking.

(** * Passes and executions of the frame player *)

Module PlayerRuns.

Import FramePlayer PlayerFacts.

Section Runs.

Context {Atom : Type}.
Variable should_log : log_level.t -> bool.
Variable ms : Z.
Implicit Types (tl : @Timeline Atom) (e : Z * Atom) (st : @PlayerState Atom)
  (evs : list (bool * @event Atom)).

(** What a pass from a valid state does, by the state it finds. *)
Lemma pass_cases st t now done :
  valid st t -> t <= now ->
  (shutdown st = true /\ step should_log ms (Iterate now done) st = Some (st, [])) \/
  (shutdown st = false /\ timeline st = [] /\
   step should_log ms (Iterate now done) st =
   Some (st, log_events should_log log_level.trace PlayNoFrames ++ [(false, Wait)])) \/
  (shutdown st = false /\ timeline st <> [] /\
   exists show,
     select_show (timeline st) now (shown st) = Some show /\
     (upper_bound (timeline st) (shown st) <= show <= upper_bound (timeline st) now)%nat /\
     step should_log ms (Iterate now done) st =
     Some (with_shown (final_shown now done (timeline st) (shown st) show) st,
           play_events should_log (timeline st)
           ++ skip_events should_log ms now (skipped (timeline st) (shown st) show)
           ++ tail_events should_log ms now done (timeline st) show)).
Proof.
  intros [Hsi Hle] Hnow.
  pose proof (strictly_increasing_sorted _ Hsi) as Hs. fold (sorted (timeline st)) in Hs.
  destruct (shutdown st) eqn:Hsd.
  { left. split; [reflexivity|]. now apply step_iterate_shutdown. }
  right. destruct (timeline st) as [|e0 rest] eqn:Htl.
  { left. repeat split. now apply step_iterate_empty. }
  right. rewrite <- Htl in *.
  assert (timeline st <> []) as Hne by congruence.
  destruct (select_show_defined (timeline st) now (shown st)) as [show Hsel].
  pose proof (select_show_bounds (timeline st) now (shown st) show Hs ltac:(lia) Hsel)
    as Hb.
  pose proof (select_show_le_upper _ _ _ _ Hsel) as Hup.
  repeat split; [assumption|]. exists show. repeat split; try assumption; try lia.
  apply step_iterate_pass; assumption.
Qed.

(** *** Observations on the parts of a pass's trace *)

Lemma waits_app evs1 evs2 : waits (evs1 ++ evs2) = waits evs1 ++ waits evs2.
Proof. unfold waits. now rewrite map_app, filter_app. Qed.

Lemma waits_cons h (ev : @event Atom) evs :
  waits ((h, ev) :: evs) = if is_wait ev then ev :: waits evs else waits evs.
Proof. reflexivity. Qed.

Lemma waits_log lvl m : waits (@log_events Atom should_log lvl m) = [].
Proof. unfold log_events. destruct (should_log lvl); reflexivity. Qed.

Lemma waits_skip now ks : waits (@skip_events Atom should_log ms now ks) = [].
Proof.
  unfold skip_events. destruct (should_log log_level.warn); [|reflexivity].
  induction ks; simpl; auto.
Qed.

Lemma driver_calls_app evs1 evs2 :
  driver_calls (evs1 ++ evs2) = driver_calls evs1 ++ driver_calls evs2.
Proof. unfold driver_calls. now rewrite map_app, filter_app. Qed.

Lemma driver_calls_log lvl m : driver_calls (@log_events Atom should_log lvl m) = [].
Proof. unfold log_events. destruct (should_log lvl); reflexivity. Qed.

Lemma driver_calls_skip now ks :
  driver_calls (@skip_events Atom should_log ms now ks) = [].
Proof.
  unfold skip_events. destruct (should_log log_level.warn); [|reflexivity].
  induction ks; simpl; auto.
Qed.

Lemma polled_app evs1 evs2 ready :
  polled ready evs1 = true -> (forall r, polled r evs2 = true) ->
  polled ready (evs1 ++ evs2) = true.
Proof.
  revert ready. induction evs1 as [|[h ev] rest IH]; intros ready H1 H2; [apply H2|].
  destruct ev; simpl in *; auto.
  apply andb_prop in H1 as [-> H1]. simpl. auto.
Qed.

Lemma polled_log lvl m r : polled r (@log_events Atom should_log lvl m) = true.
Proof. unfold log_events. destruct (should_log lvl); reflexivity. Qed.

Lemma polled_skip now ks r : polled r (@skip_events Atom should_log ms now ks) = true.
Proof.
  unfold skip_events. destruct (should_log log_level.warn); [|reflexivity].
  revert r. induction ks; intros r; simpl; auto.
Qed.

Lemma polled_tail now done tl show r :
  polled r (tail_events should_log ms now done tl show) = true.
Proof.
  unfold tail_events, log_events.
  destruct (deref tl show) as [[k a]|]; [destruct (now <? k); [|destruct done]|];
    repeat match goal with |- context [should_log ?l] => destruct (should_log l) end;
    reflexivity.
Qed.

Lemma polled_set_timeline tl same r :
  polled r (set_timeline_events should_log tl same) = true.
Proof.
  unfold set_timeline_events, log_events.
  destruct tl; destruct (should_log log_level.trace); try destruct same; reflexivity.
Qed.

(** *** Whole executions, step by step *)

Lemma run_steps (Q : list (bool * @event Atom) -> Prop) :
  Q [] -> (forall evs1 evs2, Q evs1 -> Q evs2 -> Q (evs1 ++ evs2)) ->
  (forall now done st t st' evs,
      valid st t -> t <= now ->
      step should_log ms (Iterate now done) st = Some (st', evs) -> Q evs) ->
  (forall tl same, Q (set_timeline_events should_log tl same)) ->
  Q (log_events should_log log_level.debug Stopping ++ [(false, NotifyAll)]) ->
  forall sched st t,
    valid st t -> admissible t sched = true ->
    exists st' evs, run should_log ms sched st = Some (st', evs) /\ Q evs.
Proof.
  intros Hnil Happ Hpass Hset Hdestroy.
  induction sched as [|a rest IH]; intros st t Hv Hadm.
  { exists st, []. auto. }
  destruct (run_split should_log ms [a] rest st t Hv Hadm)
    as (st1 & evs1 & st2 & evs2 & Hr1 & _ & Hr & Hv1 & Hadm2).
  destruct (IH st1 _ Hv1 Hadm2) as (st2' & evs2' & Hr2 & HQ2).
  change (a :: rest) with ([a] ++ rest).
  rewrite run_app, Hr1, Hr2.
  exists st2', (evs1 ++ evs2'). split; [reflexivity|]. apply Happ; [|exact HQ2].
  rewrite run_single in Hr1.
  destruct (step should_log ms a st) as [[st1' evs1']|] eqn:Hstep; [|discriminate].
  injection Hr1 as _ <-. rewrite app_nil_r.
  destruct a as [now done|tl|].
  - cbn [admissible] in Hadm. apply andb_prop in Hadm as [Ht _]. apply Z.leb_le in Ht.
    exact (Hpass now done st t st1' evs1' Hv Ht Hstep).
  - destruct (same_keys_defined tl (timeline st)) as (b & Hsame & _).
    rewrite (step_set_timeline should_log ms st tl b Hsame) in Hstep.
    injection Hstep as _ <-. apply Hset.
  - rewrite step_destroy in Hstep. injection Hstep as _ <-. exact Hdestroy.
Qed.

(** Property X1.  The player never runs ahead of the clock: over every
    execution whose clock does not go back, [shown] ends at or before
    the last clock reading, and so does the key of every atom handed to
    the driver. *)
Theorem shown_not_ahead_of_clock st t sched :
  valid st t -> admissible t sched = true ->
  exists st' evs,
    run should_log ms sched st = Some (st', evs) /\
    shown st' <= last_reading t sched /\
    Forall (fun s => fst s <= last_reading t sched) (submissions evs).
Proof.
  intros Hv Hadm.
  destruct (run_summary should_log ms sched st t Hv Hadm)
    as (st' & evs & Hr & [_ Hle] & _ & Hall & _).
  exists st', evs. repeat split; auto.
  eapply Forall_impl; [|exact Hall]. cbv beta. intros; lia.
Qed.

Lemma skip_loop_overrun now (rest : @Timeline Atom) : forall s show w,
  (show < s)%nat -> skip_loop should_log ms now rest s show w = None.
Proof.
  induction rest as [|[k a] rest IH]; intros s show w Hlt; cbn [skip_loop];
    destruct (Nat.eqb_spec s show); try lia; [reflexivity|].
  unfold bind, when, log, emit, set_shown, get_vars, put_vars.
  destruct (should_log log_level.warn); cbn; apply IH; lia.
Qed.

(** Property X2.  The skip loop relies on [shown] not being ahead of
    the clock.  If the clock reads less than a timeline key that is at
    or below [shown], the iterator of the skip loop starts after the
    selected position and runs off the end of the timeline: the pass
    has no defined outcome. *)
Theorem clock_behind_shown_undefined st now done k :
  strictly_increasing (keys (timeline st)) = true -> shutdown st = false ->
  In k (keys (timeline st)) -> now < k -> k <= shown st ->
  step should_log ms (Iterate now done) st = None.
Proof.
  intros Hsi Hsd Hin Hnow Hk.
  pose proof (strictly_increasing_sorted _ Hsi) as Hs. fold (sorted (timeline st)) in Hs.
  unfold keys in Hin. apply in_map_iff in Hin as (e & He & Hin).
  apply In_nth_error in Hin as [i Hi].
  destruct (select_show_defined (timeline st) now (shown st)) as [show Hsel].
  pose proof (select_show_le_upper _ _ _ _ Hsel) as Hup.
  assert (upper_bound (timeline st) now <= i)%nat as Hlo.
  { destruct (Nat.le_gt_cases (upper_bound (timeline st) now) i) as [|Hlt]; [assumption|].
    pose proof (upper_bound_before _ _ _ _ Hi Hlt). lia. }
  pose proof (due_key_position (timeline st) (shown st) i e Hs Hi ltac:(lia)) as Hhi.
  assert (timeline st <> []) as Hne by (intros E; rewrite E in Hi; destruct i; discriminate).
  destruct (front_key_defined _ Hne) as [f Hf].
  destruct (back_key_defined _ Hne) as [b Hb].
  unfold step, exec, player_thread_step.
  unfold bind at 1. unfold get_vars at 1. cbn [vars]. rewrite Hsd.
  unfold bind at 1. unfold player_iteration. unfold bind at 1. unfold get_vars at 1.
  cbn [vars].
  destruct (timeline st) as [|e0 rest] eqn:Htl; [congruence|]. rewrite <- Htl in *.
  rewrite Hf, Hb. unfold log. unfold bind, when, lift, emit, ret. rewrite Hsel.
  destruct (should_log log_level.trace); cbn [vars held events];
    rewrite skip_loop_overrun by lia; reflexivity.
Qed.

(** Property X3.  Over every execution, each call of the driver's
    [update] directly follows a call of [update_done_yet] that returned
    true: no wait, no installation of a timeline and no other driver
    call comes in between. *)
Theorem update_follows_ready_poll st t sched :
  valid st t -> admissible t sched = true ->
  exists st' evs,
    run should_log ms sched st = Some (st', evs) /\ polled false evs = true.
Proof.
  intros Hv Hadm.
  assert (exists st' evs,
             run should_log ms sched st = Some (st', evs) /\
             forall r, polled r evs = true) as (st' & evs & Hr & HQ).
  { apply (run_steps (fun evs => forall r, polled r evs = true)) with (t := t);
      try assumption.
    - reflexivity.
    - intros evs1 evs2 H1 H2 r. apply polled_app; auto.
    - intros now done st0 t0 st1 evs0 Hv0 Ht0 Hstep r.
      destruct (pass_cases st0 t0 now done Hv0 Ht0)
        as [[_ E]|[(_ & _ & E)|(_ & _ & show & _ & _ & E)]];
        rewrite E in Hstep; injection Hstep as _ <-.
      + reflexivity.
      + apply polled_app; [apply polled_log|]. intros r'. reflexivity.
      + apply polled_app; [apply polled_log|]. intros r1.
        apply polled_app; [apply polled_skip|]. intros r2. apply polled_tail.
    - intros tl same r. apply polled_set_timeline.
    - intros r. apply polled_app; [apply polled_log|]. intros r'. reflexivity. }
  exists st', evs. auto.
Qed.

(** *** What is showable and what is upcoming *)

Lemma filter_all {A} (f : A -> bool) (l : list A) :
  (forall x, In x l -> f x = true) -> filter f l = l.
Proof.
  induction l as [|x l IH]; intros H; [reflexivity|].
  simpl. rewrite (H x (or_introl eq_refl)). f_equal. apply IH.
  intros y Hy. apply H. now right.
Qed.

Lemma upcoming_is_suffix tl now :
  sorted tl -> upcoming tl now = skipn (upper_bound tl now) tl.
Proof.
  induction tl as [|[k a] rest IH]; intros Hs; [reflexivity|].
  unfold upcoming in *. cbn [upper_bound].
  destruct (Z.ltb_spec now k) as [Hlt|Hge].
  - cbn [skipn]. apply filter_all. intros e [<-|Hin].
    + apply Z.ltb_lt. simpl. lia.
    + pose proof (sorted_head _ _ _ Hs Hin). simpl in *. apply Z.ltb_lt. lia.
  - cbn [filter fst skipn]. destruct (Z.ltb_spec now k); [lia|].
    apply IH. eapply sorted_tail; eassumption.
Qed.

Lemma deref_upper_bound tl now :
  sorted tl -> deref tl (upper_bound tl now) = hd_error (upcoming tl now).
Proof.
  intros Hs. rewrite (upcoming_is_suffix tl now Hs). unfold deref.
  rewrite <- (Nat.add_0_r (upper_bound tl now)) at 1.
  rewrite <- nth_error_skipn. now destruct (skipn (upper_bound tl now) tl).
Qed.

Lemma showable_In tl sh now e :
  In e (showable tl sh now) <-> In e tl /\ sh < fst e <= now.
Proof.
  unfold showable. rewrite filter_In, andb_true_iff, Z.ltb_lt, Z.leb_le. tauto.
Qed.

Lemma sorted_cons_inv e tl :
  sorted tl -> (forall e', In e' tl -> fst e < fst e') -> sorted (e :: tl).
Proof.
  intros Hs Hall. unfold sorted in *. cbn [keys map]. constructor; [exact Hs|].
  apply Forall_forall. intros k Hk. unfold keys in Hk.
  apply in_map_iff in Hk as (e' & <- & Hin). auto.
Qed.

Lemma sorted_filter_entries (f : Z * Atom -> bool) tl : sorted tl -> sorted (filter f tl).
Proof.
  induction tl as [|e rest IH]; intros Hs; [exact Hs|].
  pose proof (sorted_tail _ _ Hs) as Hrest. cbn [filter].
  destruct (f e); [|auto].
  apply sorted_cons_inv; [auto|].
  intros e' Hin. apply filter_In in Hin as [Hin _].
  eapply sorted_head; eassumption.
Qed.

(** In a sorted timeline the entry with the greatest key comes last. *)
Lemma sorted_last tl e :
  sorted tl -> In e tl -> (forall e', In e' tl -> fst e' <= fst e) ->
  exists l, rev tl = e :: l.
Proof.
  induction tl as [|x rest IH]; intros Hs Hin Hmax; [contradiction|].
  cbn [rev]. destruct rest as [|y rest'].
  - destruct Hin as [->|[]]. now exists [].
  - assert (In e (y :: rest')) as Hin'.
    { destruct Hin as [<-|Hin]; [|exact Hin]. exfalso.
      pose proof (sorted_head _ _ y Hs (or_introl eq_refl)).
      specialize (Hmax y (or_intror (or_introl eq_refl))). lia. }
    destruct (IH (sorted_tail _ _ Hs) Hin') as [l Hl].
    { intros e' He'. apply Hmax. now right. }
    rewrite Hl. now exists (l ++ [x]).
Qed.

(** The selection, in terms of what is showable: either nothing is, and
    the position selected is the upper bound on [now]; or the position
    selected holds the last showable entry. *)
Lemma showable_selected tl sh now show :
  sorted tl -> sh <= now -> select_show tl now sh = Some show ->
  (showable tl sh now = [] /\ show = upper_bound tl now /\ skipped tl sh show = []) \/
  (exists k a l,
      deref tl show = Some (k, a) /\ sh < k <= now /\
      rev (showable tl sh now) = (k, a) :: l).
Proof.
  intros Hs Hle Hsel.
  assert (forall e, In e (showable tl sh now) ->
            exists i, nth_error tl i = Some e /\ (i < upper_bound tl now)%nat /\
                      sh < fst e) as Hpos.
  { intros e He. apply showable_In in He as [Hin [Hlo Hhi]].
    apply In_nth_error in Hin as [i Hi]. exists i. repeat split; auto.
    eapply due_key_position; eauto. }
  assert (showable tl sh now = [] -> forall show', (show' <= upper_bound tl now)%nat ->
            skipped tl sh show' = []) as Hnoskip.
  { intros Hnone show' Hs'. destruct (skipped tl sh show') as [|x l] eqn:Hsk; [reflexivity|].
    exfalso.
    destruct (skipped_facts tl sh now show' x Hs Hs') as ([Hx1 Hx2] & Hin & _).
    { rewrite Hsk. now left. }
    unfold keys in Hin. apply in_map_iff in Hin as (e & He & Hin).
    assert (In e (showable tl sh now)) as Hc by (apply showable_In; split; [auto|lia]).
    rewrite Hnone in Hc. contradiction. }
  destruct (select_show_cases tl now sh) as [[Hub E]|(b & k & a & Hub & Hn & Hk & E)];
    rewrite E in Hsel; injection Hsel as <-.
  - left. assert (showable tl sh now = []) as Hnone.
    { destruct (showable tl sh now) as [|e l] eqn:Hsh; [reflexivity|exfalso].
      destruct (Hpos e) as (i & _ & Hi & _); [now left|lia]. }
    split; [exact Hnone|]. split; [congruence|]. apply Hnoskip; [exact Hnone|lia].
  - destruct (Z.ltb_spec sh k) as [Hlt|Hge].
    + right.
      assert (exists l, rev (showable tl sh now) = (k, a) :: l) as [l Hl].
      { apply sorted_last.
        - apply sorted_filter_entries. exact Hs.
        - apply showable_In. split; [eapply nth_error_In; eauto|simpl; lia].
        - intros e' He'. destruct (Hpos e' He') as (i & Hi & Hlt' & _). simpl.
          destruct (Nat.eq_dec i b) as [->|Hne].
          + rewrite Hn in Hi. injection Hi as <-. simpl. lia.
          + pose proof (sorted_nth_lt tl i b _ _ Hs Hi Hn ltac:(lia)). simpl in *. lia. }
      exists k, a, l. repeat split; auto.
    + left. assert (showable tl sh now = []) as Hnone.
      { destruct (showable tl sh now) as [|e l] eqn:Hsh; [reflexivity|exfalso].
        destruct (Hpos e) as (i & Hi & Hlt' & Hnew); [now left|].
        destruct (Nat.eq_dec i b) as [->|Hne].
        - rewrite Hn in Hi. injection Hi as <-. simpl in *. lia.
        - pose proof (sorted_nth_lt tl i b _ _ Hs Hi Hn ltac:(lia)). simpl in *. lia. }
      split; [exact Hnone|]. split; [congruence|]. apply Hnoskip; [exact Hnone|lia].
Qed.

(** Property X4.  A pass with a ready driver shows the latest entry that
    is due: of the entries whose key is greater than [shown] and at
    most [now], the last one is handed to the driver and becomes
    [shown]; when there is none, nothing is handed over and the state
    is unchanged. *)
Theorem ready_pass_shows_latest st t now :
  valid st t -> t <= now -> shutdown st = false ->
  exists st' evs,
    step should_log ms (Iterate now true) st = Some (st', evs) /\
    match rev (showable (timeline st) (shown st) now) with
    | [] => submissions evs = [] /\ st' = st
    | e :: _ => submissions evs = [e] /\ shown st' = fst e
    end.
Proof.
  intros Hv Hnow Hsd. pose proof Hv as [Hsi Hle].
  pose proof (strictly_increasing_sorted _ Hsi) as Hs. fold (sorted (timeline st)) in Hs.
  destruct (pass_cases st t now true Hv Hnow)
    as [[E _]|[(_ & Htl & E)|(_ & Hne & show & Hsel & Hb & E)]]; [congruence| |].
  - exists st. eexists. split; [exact E|]. rewrite Htl. cbn.
    rewrite submissions_app, submissions_log. auto.
  - eexists _, _. split; [exact E|].
    rewrite !submissions_app, submissions_skip, submissions_tail.
    unfold play_events. rewrite submissions_log. cbn [app].
    unfold final_shown.
    destruct (showable_selected (timeline st) (shown st) now show Hs ltac:(lia) Hsel)
      as [(Hnone & Hshow & Hskip)|(k & a & l & Hd & Hk & Hrev)].
    + rewrite Hnone, Hskip. cbn [rev].
      rewrite Hshow, (deref_upper_bound _ _ Hs).
      destruct (upcoming (timeline st) now) as [|[k a] rest] eqn:Hup; cbn [hd_error].
      * split; [reflexivity|apply with_shown_same].
      * assert (now < k) as Hfut.
        { assert (In (k, a) (upcoming (timeline st) now)) as Hin by (rewrite Hup; now left).
          unfold upcoming in Hin. apply filter_In in Hin as [_ Hin].
          now apply Z.ltb_lt in Hin. }
        destruct (Z.ltb_spec now k); [|lia]. cbn [orb].
        split; [reflexivity|apply with_shown_same].
    + rewrite Hrev, Hd. destruct (Z.ltb_spec now k); [lia|]. cbn [orb negb].
      split; reflexivity.
Qed.

(** Property X5.  A pass that finds nothing to show or to skip calls no
    driver function, leaves the state as it is and waits once: until the
    first key in the future, or for a wakeup when no key is in the
    future. *)
Theorem idle_pass_waits_for_next st t now done :
  valid st t -> t <= now -> shutdown st = false ->
  showable (timeline st) (shown st) now = [] ->
  exists evs,
    step should_log ms (Iterate now done) st = Some (st, evs) /\
    driver_calls evs = [] /\
    waits evs =
      match upcoming (timeline st) now with
      | [] => [Wait]
      | e :: _ => [WaitUntil (fst e)]
      end.
Proof.
  intros Hv Hnow Hsd Hnone. pose proof Hv as [Hsi Hle].
  pose proof (strictly_increasing_sorted _ Hsi) as Hs. fold (sorted (timeline st)) in Hs.
  destruct (pass_cases st t now done Hv Hnow)
    as [[E _]|[(_ & Htl & E)|(_ & Hne & show & Hsel & Hb & E)]]; [congruence| |].
  - eexists. split; [exact E|]. rewrite Htl. cbn [upcoming filter].
    rewrite driver_calls_app, driver_calls_log, waits_app, waits_log. split; reflexivity.
  - destruct (showable_selected (timeline st) (shown st) now show Hs ltac:(lia) Hsel)
      as [(_ & Hshow & Hskip)|(k & a & l & _ & _ & Hrev)].
    2:{ rewrite Hnone in Hrev. discriminate. }
    assert (Hd := deref_upper_bound (timeline st) now Hs). rewrite <- Hshow in Hd.
    unfold final_shown, tail_events in E. rewrite Hd, Hskip in E.
    cbn [advance_through fold_left] in E.
    destruct (upcoming (timeline st) now) as [|[k a] rest] eqn:Hup; cbn [hd_error] in E.
    + rewrite with_shown_same in E. eexists. split; [exact E|].
      rewrite !driver_calls_app, !waits_app, driver_calls_skip, waits_skip.
      unfold play_events. rewrite !driver_calls_log, !waits_log. split; reflexivity.
    + assert (now < k) as Hfut.
      { assert (In (k, a) (upcoming (timeline st) now)) as Hin by (rewrite Hup; now left).
        unfold upcoming in Hin. apply filter_In in Hin as [_ Hin].
        now apply Z.ltb_lt in Hin. }
      destruct (Z.ltb_spec now k); [|lia].
      rewrite with_shown_same in E. eexists. split; [exact E|].
      rewrite !driver_calls_app, !waits_app, driver_calls_skip, waits_skip.
      unfold play_events. rewrite !driver_calls_log, !waits_log. split; reflexivity.
Qed.

(** Property X6.  A pass of a running player either hands one atom to
    the driver and does not wait, advancing [shown], or hands over
    nothing and ends with exactly one wait, made with the mutex
    released; a timed wait ends in the future, so the thread does not
    spin.  The retry after a busy driver is [5 * ms] later, [ms] being
    positive: the clock reading, the [5ms] and their sum are taken to
    be within the 64-bit tick count of the clock, where the sum is the
    one the code computes. *)
Theorem pass_submits_or_waits st t now done :
  valid st t -> t <= now -> shutdown st = false -> 0 < ms ->
  representable now -> representable (5 * ms) -> representable (now + 5 * ms) ->
  exists st' evs,
    step should_log ms (Iterate now done) st = Some (st', evs) /\
    ((exists e, submissions evs = [e] /\ waits evs = [] /\ shown st < shown st') \/
     (submissions evs = [] /\
      exists pre w,
        evs = pre ++ [(false, w)] /\ waits evs = [w] /\
        forall d, w = WaitUntil d -> now < d)).
Proof.
  intros Hv Hnow Hsd Hms _ _ _. pose proof Hv as [Hsi Hle].
  pose proof (strictly_increasing_sorted _ Hsi) as Hs. fold (sorted (timeline st)) in Hs.
  assert (now < now + 5 * ms) as Hbusy by lia.
  destruct (pass_cases st t now done Hv Hnow)
    as [[E _]|[(_ & Htl & E)|(_ & Hne & show & Hsel & Hb & E)]]; [congruence| |].
  - eexists _, _. split; [exact E|]. right.
    rewrite submissions_app, submissions_log, waits_app, waits_log.
    split; [reflexivity|]. eexists _, Wait. repeat split. discriminate.
  - eexists _, _. split; [exact E|].
    rewrite !submissions_app, !waits_app, submissions_skip, waits_skip.
    unfold play_events. rewrite submissions_log, waits_log, submissions_tail. cbn [app].
    cbn [shown with_shown]. unfold final_shown, tail_events.
    destruct (deref (timeline st) show) as [[k a]|] eqn:Hd.
    + destruct (Z.ltb_spec now k) as [Hfut|Hdue]; cbn [orb].
      * right. split; [reflexivity|].
        exists (log_events should_log log_level.trace
                  (PlayTimeline (length (timeline st)) (key_or_zero (front_key (timeline st)))
                     (key_or_zero (back_key (timeline st))))
                ++ skip_events should_log ms now (skipped (timeline st) (shown st) show)
                ++ log_events should_log log_level.trace
                     (WaitingForFrame (Z.quot (k - now) ms))),
               (WaitUntil k).
        rewrite waits_app, waits_log, <- !app_assoc. repeat split.
        intros d [= <-]. exact Hfut.
      * destruct done; cbn [negb].
        -- left. exists (k, a). repeat split.
           ++ rewrite !waits_cons. cbn [is_wait]. apply waits_log.
           ++ eapply selected_due_is_newer; eauto.
        -- right. split; [reflexivity|].
           exists (log_events should_log log_level.trace
                     (PlayTimeline (length (timeline st))
                        (key_or_zero (front_key (timeline st)))
                        (key_or_zero (back_key (timeline st))))
                   ++ skip_events should_log ms now (skipped (timeline st) (shown st) show)
                   ++ (true, UpdateDoneYet false)
                      :: log_events should_log log_level.trace UpdatePending),
                  (WaitUntil (now + 5 * ms)).
           split; [now rewrite <- !app_assoc|]. split.
           ++ rewrite waits_cons. cbn [is_wait].
              rewrite waits_app, waits_log. reflexivity.
           ++ intros d [= <-]. exact Hbusy.
    + right. split; [reflexivity|].
      exists (log_events should_log log_level.trace
                (PlayTimeline (length (timeline st)) (key_or_zero (front_key (timeline st)))
                   (key_or_zero (back_key (timeline st))))
              ++ skip_events should_log ms now (skipped (timeline st) (shown st) show)
              ++ log_events should_log log_level.trace NoMoreFrames),
             Wait.
      rewrite waits_app, waits_log, <- !app_assoc. repeat split. discriminate.
Qed.

Lemma driver_calls_set_timeline tl same :
  driver_calls (set_timeline_events should_log tl same) = [].
Proof.
  unfold set_timeline_events, log_events.
  destruct tl; destruct (should_log log_level.trace); try destruct same; reflexivity.
Qed.

Lemma waits_set_timeline tl same :
  waits (set_timeline_events should_log tl same) = [].
Proof.
  unfold set_timeline_events, log_events.
  destruct tl; destruct (should_log log_level.trace); try destruct same; reflexivity.
Qed.

Lemma after_shutdown (sched : list (@action Atom)) : forall st,
  shutdown st = true ->
  exists st' evs,
    run should_log ms sched st = Some (st', evs) /\
    shutdown st' = true /\ shown st' = shown st /\
    driver_calls evs = [] /\ waits evs = [].
Proof.
  induction sched as [|a rest IH]; intros st Hsd.
  { exists st, []. repeat split; auto. }
  cbn [run]. destruct a as [now done|tl|].
  - rewrite step_iterate_shutdown by assumption.
    destruct (IH st Hsd) as (st' & evs & Hr & H1 & H2 & H4 & H5).
    rewrite Hr. exists st', ([] ++ evs). repeat split; auto.
  - destruct (same_keys_defined tl (timeline st)) as (b & Hsame & _).
    rewrite (step_set_timeline should_log ms st tl b Hsame).
    destruct (IH {| timeline := tl; shown := shown st; shutdown := shutdown st |} Hsd)
      as (st' & evs & Hr & H1 & H2 & H4 & H5).
    rewrite Hr. eexists st', _. split; [reflexivity|].
    rewrite driver_calls_app, waits_app, driver_calls_set_timeline, waits_set_timeline.
    repeat split; auto.
  - rewrite step_destroy.
    destruct (IH {| timeline := timeline st; shown := shown st; shutdown := true |}
                eq_refl)
      as (st' & evs & Hr & H1 & H2 & H4 & H5).
    rewrite Hr. eexists st', _. split; [reflexivity|].
    rewrite !driver_calls_app, !waits_app, driver_calls_log, waits_log.
    repeat split; auto.
Qed.

(** Property X7.  Shutdown is final: once the destructor has run, no
    pass calls the driver or waits, whatever timelines are installed
    afterwards, and [shown] stays where it was. *)
Theorem shutdown_is_final st sched :
  exists st' evs,
    run should_log ms (Destroy :: sched) st = Some (st', evs) /\
    shutdown st' = true /\ shown st' = shown st /\
    driver_calls evs = [] /\ waits evs = [].
Proof.
  destruct (after_shutdown sched
              {| timeline := timeline st; shown := shown st; shutdown := true |} eq_refl)
    as (st' & evs & Hr & H1 & H2 & H4 & H5).
  cbn [run]. rewrite step_destroy, Hr. eexists st', _. split; [reflexivity|].
  rewrite !driver_calls_app, !waits_app, driver_calls_log, waits_log.
  repeat split; auto.
Qed.

(** Property X8.  Only the last timeline counts: installing [tl1] and
    then [tl2] leaves the player in the state that installing [tl2]
    alone gives, and the second installation wakes the thread exactly
    when [tl2] is non-empty and its keys are not those of [tl1]. *)
Theorem set_timeline_twice st tl1 tl2 :
  exists st1 evs1 st2 evs2 evs,
    step should_log ms (SetTimeline tl1) st = Some (st1, evs1) /\
    step should_log ms (SetTimeline tl2) st1 = Some (st2, evs2) /\
    step should_log ms (SetTimeline tl2) st = Some (st2, evs) /\
    (wakes evs2 = true <-> tl2 <> [] /\ keys tl2 <> keys tl1).
Proof.
  destruct (same_keys_defined tl1 (timeline st)) as (b1 & Hsame1 & _).
  destruct (same_keys_defined tl2 tl1) as (b2 & Hsame2 & Hb2).
  destruct (same_keys_defined tl2 (timeline st)) as (b & Hsame & _).
  exists {| timeline := tl1; shown := shown st; shutdown := shutdown st |},
         (set_timeline_events should_log tl1 b1),
         {| timeline := tl2; shown := shown st; shutdown := shutdown st |},
         (set_timeline_events should_log tl2 b2),
         (set_timeline_events should_log tl2 b).
  split; [apply step_set_timeline; exact Hsame1|].
  split.
  { exact (step_set_timeline should_log ms
             {| timeline := tl1; shown := shown st; shutdown := shutdown st |}
             tl2 b2 Hsame2). }
  split; [apply step_set_timeline; exact Hsame|].
  rewrite wakes_set_timeline, <- Hb2.
  destruct tl2 as [|e0 rest], b2; cbn; split; try discriminate; try tauto; try congruence.
  intros _. split; discriminate.
Qed.

(** *** What a pass reads of the atoms *)

Lemma upper_bound_keys tl1 : forall tl2 k,
  keys tl1 = keys tl2 -> upper_bound tl1 k = upper_bound tl2 k.
Proof.
  induction tl1 as [|[k1 a1] r1 IH]; intros [|[k2 a2] r2] k E; try discriminate;
    [reflexivity|].
  cbn in E. injection E as -> E. cbn [upper_bound].
  destruct (k <? k2); [reflexivity|]. f_equal. now apply IH.
Qed.

Lemma deref_keys tl1 tl2 i :
  keys tl1 = keys tl2 -> option_map fst (deref tl1 i) = option_map fst (deref tl2 i).
Proof.
  intros E. unfold deref. rewrite <- !nth_error_map. fold (keys tl1) (keys tl2).
  now rewrite E.
Qed.

Lemma select_show_keys tl1 tl2 now sh :
  keys tl1 = keys tl2 -> select_show tl1 now sh = select_show tl2 now sh.
Proof.
  intros E. unfold select_show. rewrite (upper_bound_keys tl1 tl2 now E).
  destruct (negb (upper_bound tl2 now =? 0)%nat); [|reflexivity].
  pose proof (deref_keys tl1 tl2 (upper_bound tl2 now - 1) E) as Hd.
  destruct (deref tl1 (upper_bound tl2 now - 1)) as [[k1 a1]|],
           (deref tl2 (upper_bound tl2 now - 1)) as [[k2 a2]|];
    cbn in Hd; try discriminate; [|reflexivity].
  injection Hd as ->. reflexivity.
Qed.

Lemma skipped_keys tl1 tl2 sh show :
  keys tl1 = keys tl2 -> skipped tl1 sh show = skipped tl2 sh show.
Proof.
  intros E. unfold skipped. rewrite (upper_bound_keys tl1 tl2 sh E).
  unfold keys in *. now rewrite <- !firstn_map, <- !skipn_map, E.
Qed.

Lemma tail_keys tl1 tl2 now done sh show :
  keys tl1 = keys tl2 ->
  waits (tail_events should_log ms now done tl1 show) =
    waits (tail_events should_log ms now done tl2 show) /\
  map fst (submissions (tail_events should_log ms now done tl1 show)) =
    map fst (submissions (tail_events should_log ms now done tl2 show)) /\
  final_shown now done tl1 sh show = final_shown now done tl2 sh show.
Proof.
  intros E. rewrite !submissions_tail. unfold tail_events, final_shown.
  rewrite (skipped_keys tl1 tl2 sh show E).
  pose proof (deref_keys tl1 tl2 show E) as Hd.
  destruct (deref tl1 show) as [[k1 a1]|], (deref tl2 show) as [[k2 a2]|];
    cbn in Hd; try discriminate.
  - injection Hd as ->.
    destruct (now <? k2), done; cbn [is_wait orb negb map fst];
      rewrite ?waits_cons, ?waits_app, ?waits_log; cbn [is_wait];
      rewrite ?waits_app, ?waits_log; auto.
  - rewrite !waits_app, !waits_log. auto.
Qed.

(** Property X9.  What a pass waits for and which keys it skips and
    submits depend on the keys of the timeline only: two players whose
    timelines have the same keys, with equal [shown] and [shutdown],
    make the same waits, submit atoms of the same keys and end with the
    same [shown].  This is why [set_timeline] need not wake the thread
    when the keys are unchanged. *)
Theorem pass_reads_keys_only st1 st2 t now done :
  valid st1 t -> t <= now ->
  keys (timeline st1) = keys (timeline st2) ->
  shown st1 = shown st2 -> shutdown st1 = shutdown st2 ->
  exists st1' evs1 st2' evs2,
    step should_log ms (Iterate now done) st1 = Some (st1', evs1) /\
    step should_log ms (Iterate now done) st2 = Some (st2', evs2) /\
    waits evs1 = waits evs2 /\
    map fst (submissions evs1) = map fst (submissions evs2) /\
    shown st1' = shown st2'.
Proof.
  intros Hv1 Hnow Hk Hsh Hsd.
  assert (valid st2 t) as Hv2.
  { destruct Hv1 as [H1 H2]. split; [now rewrite <- Hk | now rewrite <- Hsh]. }
  destruct (pass_cases st1 t now done Hv1 Hnow)
    as [[S1 E1]|[(S1 & T1 & E1)|(S1 & T1 & show1 & Hsel1 & _ & E1)]];
  destruct (pass_cases st2 t now done Hv2 Hnow)
    as [[S2 E2]|[(S2 & T2 & E2)|(S2 & T2 & show2 & Hsel2 & _ & E2)]];
    try congruence;
    try (exfalso; rewrite T1 in Hk; destruct (timeline st2); [congruence|discriminate]);
    try (exfalso; rewrite T2 in Hk; destruct (timeline st1); [congruence|discriminate]).
  - eexists _, _, _, _. split; [exact E1|]. split; [exact E2|]. auto.
  - eexists _, _, _, _. split; [exact E1|]. split; [exact E2|].
    rewrite !waits_app, !submissions_app, !submissions_log, !waits_log. auto.
  - rewrite (select_show_keys _ _ now (shown st1) Hk), Hsh, Hsel2 in Hsel1.
    injection Hsel1 as <-.
    destruct (tail_keys (timeline st1) (timeline st2) now done (shown st1) show2 Hk)
      as (Hw & Hs & Hf).
    eexists _, _, _, _. split; [exact E1|]. split; [exact E2|].
    rewrite !waits_app, !submissions_app, !submissions_skip, !waits_skip.
    unfold play_events. rewrite !submissions_log, !waits_log. cbn [app shown with_shown].
    rewrite Hw, Hs, Hf, Hsh. auto.
Qed.

End Runs.

End PlayerRuns.

(** * Passes and executions of the main loop *)

Module LoopRuns.

Import Double DoubleFacts MainLoop LoopFacts.

Section Runs.

Context {Script : Type}.
Variable main_loop_hz : Script -> double.
Variable should_log : log_level.t -> bool.
Implicit Types (st : @LoopState Script) (evs : list (bool * @event Script)).

Lemma sleeps_app evs1 evs2 : sleeps (evs1 ++ evs2) = sleeps evs1 ++ sleeps evs2.
Proof. unfold sleeps. now rewrite map_app, filter_app. Qed.

Lemma sleeps_log lvl m : sleeps (@log_events Script should_log lvl m) = [].
Proof. unfold log_events. destruct (should_log lvl); reflexivity. Qed.

(** What a pass of the loop does, by the state it finds. *)
Lemma tick_outcomes st mono :
  (shutdown st = true /\
   step main_loop_hz should_log (Tick mono) st = Some (st, [])) \/
  (shutdown st = false /\ script st = None /\
   step main_loop_hz should_log (Tick mono) st =
   Some (st, log_events should_log log_level.trace WaitForScript ++ [(false, Sleep)])) \/
  (exists sc, shutdown st = false /\ script st = Some sc /\
   ltb zero (main_loop_hz sc) = false /\
   step main_loop_hz should_log (Tick mono) st = None) \/
  (exists sc, shutdown st = false /\ script st = Some sc /\
   ltb zero (main_loop_hz sc) = true /\
   ltb mono (add (last_mono st) (div one (main_loop_hz sc))) = true /\
   step main_loop_hz should_log (Tick mono) st =
   Some (st,
         log_events should_log log_level.trace
           (SleepFor (sub (add (last_mono st) (div one (main_loop_hz sc))) mono))
         ++ [(false, SleepUntil (add (last_mono st) (div one (main_loop_hz sc))))])) \/
  (exists sc, shutdown st = false /\ script st = Some sc /\
   ltb zero (main_loop_hz sc) = true /\
   ltb mono (add (last_mono st) (div one (main_loop_hz sc))) = false /\
   step main_loop_hz should_log (Tick mono) st =
   Some ({| script := script st; shutdown := shutdown st;
            last_mono := std_max (add (last_mono st) (div one (main_loop_hz sc)))
                                 (sub mono (div one (main_loop_hz sc))) |},
         log_events should_log log_level.debug (UpdateAt mono)
         ++ [(false, RunnerUpdate sc)])).
Proof.
  destruct (shutdown st) eqn:Hsd.
  { left. split; [reflexivity|]. now apply tick_shutdown. }
  right. destruct (script st) as [sc|] eqn:Hsc.
  2:{ left. repeat split. now apply tick_no_script. }
  right. destruct (ltb zero (main_loop_hz sc)) eqn:Hz.
  2:{ left. exists sc. repeat split; auto.
      now apply (tick_abort main_loop_hz should_log st mono sc). }
  right. destruct (ltb mono (add (last_mono st) (div one (main_loop_hz sc)))) eqn:Hm.
  - left. exists sc. repeat split; auto.
    now apply (tick_sleep main_loop_hz should_log st mono sc).
  - right. exists sc. repeat split; auto.
    rewrite (tick_update main_loop_hz should_log st mono sc) by assumption.
    now rewrite Hsc, Hsd.
Qed.

Lemma step_play st s :
  step main_loop_hz should_log (Play s) st =
  Some ({| script := Some s; shutdown := shutdown st; last_mono := last_mono st |},
        [(true, SetFlag)]).
Proof. reflexivity. Qed.

Lemma step_quit st :
  step main_loop_hz should_log Quit st =
  Some ({| script := script st; shutdown := true; last_mono := last_mono st |},
        log_events should_log log_level.debug Stop
        ++ [(true, HttpStop); (true, SetFlag)]).
Proof.
  unfold step, on_quit, log_events. thread_ops.
  destruct (should_log log_level.debug); reflexivity.
Qed.

(** Property X10.  A pass of the main loop aborts on its [ASSERT]
    exactly when the loop is running and the installed script has a
    rate that is not positive: zero, negative or NaN. *)
Theorem tick_aborts_iff st mono :
  step main_loop_hz should_log (Tick mono) st = None <->
  shutdown st = false /\
  exists sc, script st = Some sc /\ ltb zero (main_loop_hz sc) = false.
Proof.
  destruct (tick_outcomes st mono)
    as [[Hsd E]|[(Hsd & Hsc & E)|[(sc & Hsd & Hsc & Hz & E)|[(sc & Hsd & Hsc & Hz & _ & E)
       |(sc & Hsd & Hsc & Hz & _ & E)]]]]; rewrite E; split;
    try discriminate; try (intros [H _]; congruence).
  - intros [_ (sc & H & _)]. congruence.
  - intros _. split; [exact Hsd|]. exists sc. auto.
  - intros [_ (sc' & H & Hz')]. rewrite Hsc in H. injection H as <-. congruence.
  - intros [_ (sc' & H & Hz')]. rewrite Hsc in H. injection H as <-. congruence.
Qed.

Lemma sleeps_cons h (ev : @event Script) evs :
  sleeps ((h, ev) :: evs) = if is_sleep ev then ev :: sleeps evs else sleeps evs.
Proof. reflexivity. Qed.

(** Property X11.  A pass of a running main loop either calls the
    script runner once, for the installed script and with the mutex
    released, without sleeping, the clock reading being not below the
    rounded [last_mono + period]; or it calls nothing, changes nothing
    and ends with exactly one sleep, made with the mutex released: an
    untimed one exactly when no script is installed, and otherwise one
    until the rounded [last_mono + period], which the clock reading is
    below. *)
Theorem tick_calls_or_sleeps st mono :
  shutdown st = false -> script_ok main_loop_hz st ->
  exists st' evs,
    step main_loop_hz should_log (Tick mono) st = Some (st', evs) /\
    ((exists sc,
         script st = Some sc /\ runner_updates evs = [(false, sc)] /\
         sleeps evs = [] /\
         ltb mono (add (last_mono st) (div one (main_loop_hz sc))) = false) \/
     (runner_updates evs = [] /\ st' = st /\
      exists pre w,
        evs = pre ++ [(false, w)] /\ sleeps evs = [w] /\
        (script st = None <-> w = Sleep) /\
        forall d, w = SleepUntil d ->
          ltb mono d = true /\
          exists sc, script st = Some sc /\
                     d = add (last_mono st) (div one (main_loop_hz sc)))).
Proof.
  intros Hsd Hok. unfold script_ok in Hok.
  destruct (tick_outcomes st mono)
    as [[Hsd' E]|[(_ & Hsc & E)|[(sc & _ & Hsc & Hz & E)|[(sc & _ & Hsc & Hz & Hm & E)
       |(sc & _ & Hsc & Hz & Hm & E)]]]].
  - congruence.
  - eexists _, _. split; [exact E|]. right.
    rewrite runner_updates_app, runner_updates_log, sleeps_app, sleeps_log.
    repeat split. eexists _, Sleep. repeat split; auto; discriminate.
  - rewrite Hsc in Hok. congruence.
  - eexists _, _. split; [exact E|]. right.
    rewrite runner_updates_app, runner_updates_log, sleeps_app, sleeps_log.
    split; [reflexivity|]. split; [reflexivity|].
    eexists _, (SleepUntil _). split; [reflexivity|]. split; [reflexivity|]. split.
    + split; intros H; [congruence|discriminate].
    + intros d [= <-]. split; [exact Hm|]. exists sc. split; [exact Hsc|reflexivity].
  - eexists _, _. split; [exact E|]. left. exists sc.
    rewrite runner_updates_app, runner_updates_log, sleeps_app, sleeps_log.
    repeat split; auto.
Qed.

(** *** Whole executions of the loop *)


(** What one defined pass does to [last_mono]. *)
Lemma tick_last_mono st mono st' evs :
  nonneg (last_mono st) = true -> finite mono = true ->
  step main_loop_hz should_log (Tick mono) st = Some (st', evs) ->
  nonneg (last_mono st') = true.
Proof.
  intros Hlast Hmono Hstep.
  destruct (tick_cases main_loop_hz should_log st mono st' evs Hstep)
    as [[_ ->]|(sc & _ & _ & Hz & _ & _ & ->)]; [exact Hlast|].
  cbn [last_mono]. apply std_max_nonneg, add_nonneg; [exact Hlast|].
  apply period_nonneg, Hz.
Qed.

(** Property X12.  Over every execution of the loop with scripts of
    positive rates and finite clock readings, [last_mono] stays a
    number that is not negative, as its initial [0.0] is: it never
    becomes NaN, so that the comparisons of the loop against it are
    those of numbers. *)
Theorem last_mono_stays_a_number (sched : list (@action Script)) : forall st,
  nonneg (last_mono st) = true -> script_ok main_loop_hz st ->
  positive_rates main_loop_hz sched = true ->
  forallb finite (readings sched) = true ->
  exists st' evs,
    run main_loop_hz should_log sched st = Some (st', evs) /\
    nonneg (last_mono st') = true.
Proof.
  induction sched as [|a rest IH]; intros st Hlast Hok Hpos Hfin.
  { exists st, []. split; [reflexivity | exact Hlast]. }
  assert (positive_rates main_loop_hz [a] = true /\
          positive_rates main_loop_hz rest = true) as [Ha Hrest].
  { destruct a; cbn [positive_rates] in *; auto.
    apply andb_prop in Hpos as [H1 H2]. rewrite H1. auto. }
  destruct (step_defined main_loop_hz should_log a st Hok Ha) as (st1 & evs1 & Hstep & Hok1).
  assert (nonneg (last_mono st1) = true /\ forallb finite (readings rest) = true)
    as [Hlast1 Hfin1].
  { destruct a as [mono|s|].
    - cbn [readings forallb] in Hfin. apply andb_prop in Hfin as [Hm Hr].
      split; [|exact Hr]. exact (tick_last_mono st mono st1 evs1 Hlast Hm Hstep).
    - rewrite step_play in Hstep. injection Hstep as <- _. split; assumption.
    - rewrite step_quit in Hstep. injection Hstep as <- _. split; assumption. }
  destruct (IH st1 Hlast1 Hok1 Hrest Hfin1) as (st2 & evs2 & Hrun & Hlast2).
  exists st2, (evs1 ++ evs2). cbn [run]. rewrite Hstep, Hrun. split; [reflexivity|exact Hlast2].
Qed.



Lemma after_quit (sched : list (@action Script)) : forall st,
  shutdown st = true ->
  exists st' evs,
    run main_loop_hz should_log sched st = Some (st', evs) /\
    shutdown st' = true /\ last_mono st' = last_mono st /\
    runner_updates evs = [] /\ sleeps evs = [].
Proof.
  induction sched as [|a rest IH]; intros st Hsd.
  { exists st, []. repeat split; auto. }
  cbn [run]. destruct a as [mono|s|].
  - rewrite tick_shutdown by assumption.
    destruct (IH st Hsd) as (st' & evs & Hr & H1 & H2 & H3 & H4).
    rewrite Hr. exists st', ([] ++ evs). repeat split; auto.
  - rewrite step_play.
    destruct (IH {| script := Some s; shutdown := shutdown st; last_mono := last_mono st |}
                Hsd) as (st' & evs & Hr & H1 & H2 & H3 & H4).
    rewrite Hr. eexists st', _. split; [reflexivity|].
    rewrite runner_updates_app, sleeps_app, H3, H4. repeat split; auto.
  - rewrite step_quit.
    destruct (IH {| script := script st; shutdown := true; last_mono := last_mono st |}
                eq_refl) as (st' & evs & Hr & H1 & H2 & H3 & H4).
    rewrite Hr. eexists st', _. split; [reflexivity|].
    rewrite !runner_updates_app, !sleeps_app, runner_updates_log, sleeps_log, H3, H4.
    repeat split; auto.
Qed.

(** Property X15.  After [on_quit] the loop neither calls the runner
    nor sleeps, whatever is posted afterwards, and [last_mono] stays
    where it was. *)
Theorem quit_is_final st sched :
  exists st' evs,
    run main_loop_hz should_log (Quit :: sched) st = Some (st', evs) /\
    shutdown st' = true /\ last_mono st' = last_mono st /\
    runner_updates evs = [] /\ sleeps evs = [].
Proof.
  destruct (after_quit sched
              {| script := script st; shutdown := true; last_mono := last_mono st |}
              eq_refl) as (st' & evs & Hr & H1 & H2 & H3 & H4).
  cbn [run]. rewrite step_quit, Hr. eexists st', _. split; [reflexivity|].
  rewrite !runner_updates_app, !sleeps_app, runner_updates_log, sleeps_log, H3, H4.
  repeat split; auto.
Qed.

End Runs.

End LoopRuns.

(** * The modes listed by [on_screens] *)

Module ScreenFacts.

Import Screens.

Lemma triple_eqb_eq (a b : triple) : triple_eqb a b = true <-> a = b.
Proof.
  destruct a as [[a1 a2] a3], b as [[b1 b2] b3]. unfold triple_eqb.
  rewrite !andb_true_iff, !Z.eqb_eq. split.
  - intros [[-> ->] ->]. reflexivity.
  - intros [= -> -> ->]. auto.
Qed.

Lemma existsb_triple (t : triple) (l : list triple) :
  existsb (triple_eqb t) l = true <-> In t l.
Proof.
  rewrite existsb_exists. split.
  - intros (x & Hin & Heq). apply triple_eqb_eq in Heq. now subst.
  - intros Hin. exists t. split; [exact Hin|]. now apply triple_eqb_eq.
Qed.

Section Facts.

Context {DisplayMode : Type} {fields : ModeFields DisplayMode}.

Lemma elements_push_back j t : elements (push_back j t) = elements j ++ [t].
Proof. destruct j; reflexivity. Qed.

Lemma modes_loop_app (ms1 ms2 : list DisplayMode) : forall added j,
  agree added j ->
  exists added',
    agree added' (modes_loop ms1 added j) /\
    modes_loop (ms1 ++ ms2) added j = modes_loop ms2 added' (modes_loop ms1 added j).
Proof.
  induction ms1 as [|m rest IH]; intros added j Hag.
  { exists added. split; [exact Hag | reflexivity]. }
  cbn [modes_loop app]. unfold emplace.
  destruct (existsb (triple_eqb (triple_of m)) added) eqn:Hex.
  - apply IH. exact Hag.
  - apply IH. intros t. rewrite elements_push_back, in_app_iff. cbn [In].
    rewrite <- (Hag t). tauto.
Qed.

Lemma modes_loop_facts (ms : list DisplayMode) : forall added j,
  agree added j -> NoDup (elements j) ->
  NoDup (elements (modes_loop ms added j)) /\
  (forall t, In t (elements (modes_loop ms added j)) <->
             In t (elements j) \/ In t (map triple_of ms)) /\
  (modes_loop ms added j = None <-> j = None /\ ms = []).
Proof.
  induction ms as [|m rest IH]; intros added j Hag Hnd.
  { cbn [modes_loop map In]. split; [exact Hnd|]. split; [intros t; tauto|].
    split; [intros H; now split | now intros [H _]]. }
  cbn [modes_loop map In]. unfold emplace.
  destruct (existsb (triple_eqb (triple_of m)) added) eqn:Hex.
  - destruct (IH added j Hag Hnd) as (H1 & H2 & H3).
    split; [exact H1|]. split.
    + intros t. rewrite H2. apply existsb_triple in Hex. apply Hag in Hex.
      split; [tauto|]. intros [H|[<-|H]]; auto.
    + rewrite H3. split; [|intros [_ H]; discriminate].
      intros [-> ->]. apply existsb_triple in Hex. apply Hag in Hex. destruct Hex.
  - assert (~ In (triple_of m) (elements j)) as Hnew.
    { intros H. apply Hag in H. apply existsb_triple in H. congruence. }
    destruct (IH (triple_of m :: added) (push_back j (triple_of m))) as (H1 & H2 & H3).
    + intros t. rewrite elements_push_back, in_app_iff. cbn [In].
      rewrite <- (Hag t). tauto.
    + rewrite elements_push_back. apply NoDup_app; [exact Hnd|repeat constructor; auto|].
      intros t Ht [<-|[]]. contradiction.
    + split; [exact H1|]. split.
      * intros t. rewrite H2, elements_push_back, in_app_iff. cbn [In]. tauto.
      * rewrite H3. split; [|intros [_ H]; discriminate].
        intros [H _]. destruct j; discriminate.
Qed.

(** Property X16.  [on_screens] lists each mode of a screen once: the
    value of ["modes"] is [null] exactly when the screen has no modes,
    and otherwise an array without repetition that holds exactly the
    (width, height, rate) triples of the screen's modes. *)
Theorem modes_listed_once (modes : list DisplayMode) :
  (listed_modes modes = None <-> modes = []) /\
  NoDup (elements (listed_modes modes)) /\
  (forall t, In t (elements (listed_modes modes)) <-> In t (map triple_of modes)).
Proof.
  destruct (modes_loop_facts modes [] None) as (H1 & H2 & H3).
  - intros t. reflexivity.
  - constructor.
  - split; [|split].
    + unfold listed_modes. rewrite H3. tauto.
    + exact H1.
    + intros t. unfold listed_modes. rewrite H2. cbn [elements In]. tauto.
Qed.

(** Property X17.  The modes are listed in the order of their first
    appearance: a further mode at the end of the screen's list is added
    at the end of the value when its triple is new, and leaves the
    value as it is otherwise. *)
Theorem modes_listed_in_order (modes : list DisplayMode) (m : DisplayMode) :
  listed_modes (modes ++ [m]) =
  if existsb (triple_eqb (triple_of m)) (map triple_of modes)
  then listed_modes modes
  else push_back (listed_modes modes) (triple_of m).
Proof.
  unfold listed_modes.
  destruct (modes_loop_app modes [m] [] None) as (added & Hag & ->).
  { intros t. reflexivity. }
  cbn [modes_loop]. unfold emplace.
  destruct (modes_loop_facts modes [] None) as (_ & H2 & _).
  { intros t. reflexivity. }
  { constructor. }
  assert (existsb (triple_eqb (triple_of m)) added =
          existsb (triple_eqb (triple_of m)) (map triple_of modes)) as ->.
  { apply eq_true_iff_eq. rewrite !existsb_triple, (Hag (triple_of m)), H2.
    cbn [elements In]. tauto. }
  destruct (existsb _ _); reflexivity.
Qed.

End Facts.

End ScreenFacts.

(** * The device lister *)

Module V4LFacts.

Import V4L String Ascii.

(** Property X18.  The version printed is the packed one: for
    a version word that holds [a], [b] and [c] in its three low bytes,
    [print_videodev_driver] prints [a.b.c]; what the word holds above
    them is not printed. *)
Theorem version_fields_packed (h a b c : Z) :
  0 <= h -> 0 <= a < 256 -> 0 <= b < 256 -> 0 <= c < 256 ->
  version_fields (h * 2 ^ 24 + a * 2 ^ 16 + b * 2 ^ 8 + c) = (a, b, c).
Proof.
  intros Hh Ha Hb Hc. unfold version_fields.
  change 255 with (Z.ones 8).
  rewrite !Z.land_ones, !Z.shiftr_div_pow2 by lia.
  change (2 ^ 24) with 16777216. change (2 ^ 16) with 65536. change (2 ^ 8) with 256.
  repeat f_equal; Z.div_mod_to_equations; lia.
Qed.

Lemma land_bit (flags i : Z) :
  0 <= i -> (Z.land flags (2 ^ i) =? 0) = negb (Z.testbit flags i).
Proof.
  intros Hi. destruct (Z.testbit flags i) eqn:Hb; cbn [negb].
  - apply Z.eqb_neq. intros H0.
    assert (Z.testbit (Z.land flags (2 ^ i)) i = true) as Ht
      by (rewrite Z.land_spec, Hb, Z.pow2_bits_true; auto).
    rewrite H0, Z.bits_0 in Ht. discriminate.
  - apply Z.eqb_eq. apply Z.bits_inj'. intros n Hn.
    rewrite Z.land_spec, Z.bits_0, Z.pow2_bits_eqb by assumption.
    destruct (Z.eqb_spec i n) as [<-|_]; [now rewrite Hb | apply andb_false_r].
Qed.

Lemma next_bit (i : Z) :
  0 <= i < 32 -> uint32 (Z.shiftl (uint32 (2 ^ i)) 1) = uint32 (2 ^ (i + 1)).
Proof.
  intros Hi. unfold uint32. rewrite Z.shiftl_mul_pow2 by lia.
  rewrite (Z.mod_small (2 ^ i)).
  - now rewrite Z.pow_add_r by lia.
  - split; [apply Z.pow_nonneg; lia | apply Z.pow_lt_mono_r; lia].
Qed.

Section Flags.

Variable label : Z -> option string.

(** The loop from bit [i] on, [n] bits being left. *)
Lemma flags_loop_from (flags : Z) (n : nat) : forall (i fuel : nat) out,
  (i + n = 32)%nat -> (n < fuel)%nat ->
  flags_loop label fuel (uint32 (2 ^ Z.of_nat i)) flags out =
  Some (out ++ map (fun k => token_of label (2 ^ k))
                   (filter (Z.testbit flags) (map Z.of_nat (seq i n)))).
Proof.
  induction n as [|n IH]; intros i fuel out Hi Hfuel.
  - destruct fuel as [|fuel]; [lia|].
    replace i with 32%nat by lia. cbn [flags_loop seq map filter].
    change (uint32 (2 ^ Z.of_nat 32)) with 0. cbn. now rewrite app_nil_r.
  - destruct fuel as [|fuel]; [lia|]. cbn [flags_loop].
    assert (uint32 (2 ^ Z.of_nat i) = 2 ^ Z.of_nat i) as Hsmall.
    { unfold uint32. apply Z.mod_small.
      split; [apply Z.pow_nonneg; lia | apply Z.pow_lt_mono_r; lia]. }
    assert (0 < 2 ^ Z.of_nat i) as Hpos by (apply Z.pow_pos_nonneg; lia).
    destruct (Z.eqb_spec (uint32 (2 ^ Z.of_nat i)) 0) as [H0|_]; [lia|].
    rewrite next_bit by lia. rewrite !Hsmall.
    rewrite land_bit by lia.
    replace (Z.of_nat i + 1) with (Z.of_nat (S i)) by lia.
    rewrite IH by lia. cbn [seq map filter].
    destruct (Z.testbit flags (Z.of_nat i)); cbn [negb map].
    + now rewrite <- app_assoc.
    + reflexivity.
Qed.

(** Property X19.  The loop over the bits of a [uint32_t] ends, the
    shift carrying the bit out after the 32nd pass, and prints one token
    for each bit that is set in the flags, from the lowest bit up. *)
Theorem flags_loop_prints_set_bits (fuel : nat) (flags : Z) :
  (33 <= fuel)%nat ->
  flags_loop label fuel 1 flags [] =
  Some (map (fun k => token_of label (2 ^ k)) (set_bits flags)).
Proof.
  intros Hfuel.
  assert (32 < fuel)%nat as Hf by lia.
  pose proof (flags_loop_from flags 32 0 fuel [] eq_refl Hf) as Hloop.
  change (uint32 (2 ^ Z.of_nat 0)) with 1 in Hloop.
  rewrite app_nil_l in Hloop. unfold set_bits. exact Hloop.
Qed.

End Flags.

(** Property X20.  [scan_videodevs] reads no character beyond the end of
    a name, and opens exactly the entries whose name is [video]
    followed by a decimal digit and by anything. *)
Theorem videodev_names (filename : string) :
  exists b,
    is_videodev filename = Some b /\
    (b = true <->
     exists d rest, filename = ("video" ++ String d rest)%string /\ isdigit d = true).
Proof.
  unfold is_videodev.
  destruct (String.eqb_spec (substring 0 5 filename) "video") as [Heq|Hne].
  - destruct filename as [|c1 [|c2 [|c3 [|c4 [|c5 rest]]]]]; try discriminate.
    cbn in Heq. injection Heq as -> -> -> -> -> Hrest.
    destruct rest as [|d rest].
    + exists false. split; [reflexivity|]. split; [discriminate|].
      intros (d & rest & Hf & _). discriminate.
    + exists (isdigit d). split; [reflexivity|]. split.
      * intros Hd. exists d, rest. split; [reflexivity | exact Hd].
      * intros (d' & rest' & Hf & Hd). injection Hf as <- _. exact Hd.
  - exists false. split; [reflexivity|]. split; [discriminate|].
    intros (d & rest & -> & _). exfalso. apply Hne. reflexivity.
Qed.

End V4LFacts.

(** * The destructors and the threads they join *)

Module TeardownFacts.

Import Teardown.

Module LoopThread.

Import Teardown.Loop.

Lemma joining_step (m : move) (s s' : state) :
  joining s = true -> step m s = Some s' -> joining s' = true.
Proof.
  destruct s as [[] [] [] [] [] []]; try discriminate;
    destruct m as [[]| | |]; cbn; intros _ [= <-]; reflexivity.
Qed.

Lemma joining_run (sched : list move) : forall s s',
  joining s = true -> run sched s = Some s' -> joining s' = true.
Proof.
  induction sched as [|m rest IH]; intros s s' Hj Hrun; cbn [run] in Hrun.
  - now injection Hrun as <-.
  - destruct (step m s) as [s1|] eqn:Hstep; [|discriminate].
    eapply IH; [|exact Hrun]. eapply joining_step; eassumption.
Qed.

Lemma joining_not_done (s : state) :
  joining s = true -> dtor s <> Done /\ running s = true.
Proof.
  destruct s as [[] [] [] [] [] []]; cbn; intros H;
    (discriminate || (split; [discriminate|reflexivity])).
Qed.

(** Property X21.  [~Server] joins the loop thread while it still owns
    the mutex.  From the moment the destructor owns the mutex, it can
    return if and only if the loop thread has already returned or was
    never started: a loop thread that is still alive needs the mutex
    to see [shutdown]. *)
Theorem server_destructor_returns_iff (s : state) :
  consistent s = true -> dtor s = AtJoinable ->
  (exists sched s', run sched s = Some s' /\ dtor s' = Done) <-> running s = false.
Proof.
  intros Hc Hd. split.
  - intros (sched & s' & Hrun & Hdone).
    destruct (running s) eqn:Hr; [|reflexivity].
    assert (joining s = true) as Hj by (unfold joining; now rewrite Hc, Hr, Hd).
    destruct (joining_not_done s' (joining_run sched s s' Hj Hrun)) as [Hnd _].
    contradiction.
  - intros Hr. destruct s as [mu sh sc fl lp dt]. cbn in Hd. subst dt.
    destruct lp; try discriminate.
    + exists [DtorMove]. eexists. split; reflexivity.
    + exists [DtorMove; DtorMove]. eexists. split; reflexivity.
Qed.

Lemma entered_step (m : move) (s s' : state) :
  entered s = true -> is_quit m = false -> step m s = Some s' ->
  entered s' = true \/ joining s' = true.
Proof.
  destruct s as [[] [] [] [] [] []]; try discriminate;
    destruct m as [[]| | |]; cbn; try discriminate; intros _ _ [= <-]; auto.
Qed.

(** Property X22.  When [~Server] is entered while the loop thread is
    alive and no quit has been posted (as when [run] returns without
    one), the destructor never returns and the loop thread never ends,
    whatever the threads do afterwards short of a quit. *)
Theorem server_destructor_hangs (sched : list move) : forall s s',
  entered s = true -> forallb (fun m => negb (is_quit m)) sched = true ->
  run sched s = Some s' ->
  dtor s' <> Done /\ running s' = true.
Proof.
  induction sched as [|m rest IH]; intros s s' He Hq Hrun; cbn [run] in Hrun.
  - injection Hrun as <-. destruct s as [[] [] [] [] [] []]; try discriminate;
      (split; [discriminate|reflexivity]).
  - cbn [forallb] in Hq. apply andb_prop in Hq as [Hm Hrest].
    apply negb_true_iff in Hm.
    destruct (step m s) as [s1|] eqn:Hstep; [|discriminate].
    destruct (entered_step m s s1 He Hm Hstep) as [He1|Hj1].
    + exact (IH s1 s' He1 Hrest Hrun).
    + apply joining_not_done. exact (joining_run rest s1 s' Hj1 Hrun).
Qed.

(** Property X23.  The wait of [~Server] can end in a deadlock even
    after a quit: when the destructor is entered while the loop thread
    is alive and outside the mutex, some schedule leads to a state in
    which the destructor waits in [thread.join()], the loop thread
    waits for the mutex, and no thread can move. *)
Theorem server_destructor_deadlock (s : state) :
  consistent s = true -> dtor s = AtEntry -> mutex s = Free -> running s = true ->
  exists sched s',
    run sched s = Some s' /\ dtor s' = AtJoin /\ loop s' = AtLock /\ stuck s'.
Proof.
  intros Hc Hd Hm Hr. destruct s as [mu sh sc fl lp dt]. cbn in Hd, Hm. subst dt mu.
  destruct lp; try discriminate.
  - exists [DtorMove; DtorMove]. eexists. split; [reflexivity|].
    repeat split. intros [[]| | |]; reflexivity.
  - exists [DtorMove; DtorMove; LoopMove true]. eexists. split; [reflexivity|].
    repeat split. intros [[]| | |]; reflexivity.
  - exists [DtorMove; DtorMove; LoopMove true]. eexists. split; [reflexivity|].
    repeat split. intros [[]| | |]; reflexivity.
  - exists [DtorMove; DtorMove; LoopMove true]. eexists. split; [reflexivity|].
    repeat split. intros [[]| | |]; reflexivity.
Qed.

Lemma alert_step (m : move) (s s' : state) :
  alert s = true -> step m s = Some s' -> alert s' = true.
Proof.
  destruct s as [[] [] [] [] [] []]; try discriminate;
    destruct m as [[]| | |]; cbn; try discriminate; intros _ [= <-]; reflexivity.
Qed.

Lemma alert_run (sched : list move) : forall s s',
  alert s = true -> run sched s = Some s' -> alert s' = true.
Proof.
  induction sched as [|m rest IH]; intros s s' Ha Hrun; cbn [run] in Hrun.
  - now injection Hrun as <-.
  - destruct (step m s) as [s1|] eqn:Hstep; [|discriminate].
    eapply IH; [|exact Hrun]. eapply alert_step; eassumption.
Qed.

(** Property X25.  No wakeup of the main loop is lost: however the
    loop thread, the handlers and the destructor interleave from the
    start of the server, a loop thread that is in [sleep()] while a
    script is installed or [shutdown] is set finds the flag set, so
    that its sleep returns. *)
Theorem no_lost_wakeup (sched : list move) (s : state) :
  run sched started = Some s -> loop s = InSleep -> wanted s = true ->
  flag s = true /\ exists s', step (LoopMove true) s = Some s' /\ loop s' = AtLock.
Proof.
  intros Hrun Hl Hw.
  pose proof (alert_run sched started s eq_refl Hrun) as Ha.
  unfold alert in Ha. rewrite Hl, Hw in Ha. cbn in Ha.
  split; [exact Ha|]. cbn. unfold loop_move. rewrite Hl, Ha.
  eexists. split; reflexivity.
Qed.

End LoopThread.

Module PlayerThread.

Import Teardown.Player.

Lemma leaving_step (m : move) (s s' : state) :
  leaving s = true -> step m s = Some s' ->
  leaving s' = true /\
  (rank s' + (if is_thread_move m then 1 else 0) <= rank s)%nat.
Proof.
  destruct s as [[] [] [] []]; try discriminate;
    destruct m as [[]| | |[]]; cbn; try discriminate;
    intros _ [= <-]; cbn; split; (reflexivity || lia).
Qed.

Lemma leaving_run (sched : list move) : forall s s',
  leaving s = true -> run sched s = Some s' ->
  leaving s' = true /\ (rank s' + thread_moves sched <= rank s)%nat.
Proof.
  induction sched as [|m rest IH]; intros s s' Hl Hrun; cbn [run] in Hrun.
  - injection Hrun as <-. split; [exact Hl|]. cbn. lia.
  - destruct (step m s) as [s1|] eqn:Hstep; [|discriminate].
    destruct (leaving_step m s s1 Hl Hstep) as [Hl1 Hle].
    destruct (IH s1 s' Hl1 Hrun) as [Hl' Hle'].
    split; [exact Hl'|]. unfold thread_moves in *. cbn [filter].
    destruct (is_thread_move m); cbn [length]; lia.
Qed.

Lemma leaving_progress (s : state) :
  leaving s = true ->
  dtor s = Done \/ exists m, is_thread_move m = true /\ step m s <> None.
Proof.
  destruct s as [[] [] [] []]; try discriminate; cbn; intros _;
    first [ left; reflexivity
          | right; exists DtorMove; split; [reflexivity|discriminate]
          | right; exists (PlayerMove Waits); split; [reflexivity|discriminate] ].
Qed.

(** Property X24.  [~ThreadFramePlayer] releases the mutex before it
    notifies and joins the player thread, and so it returns: from the
    moment the destructor owns the mutex, the two threads have at most
    six moves between them, whatever else happens (calls of
    [set_timeline], spurious wakeups); and as long as the destructor
    has not returned, one of the two threads can move. *)
Theorem player_destructor_returns (sched : list move) (s s' : state) :
  consistent s = true -> dtor s = AtJoinable ->
  run sched s = Some s' ->
  (thread_moves sched <= 6)%nat /\
  (dtor s' = Done \/ exists m, is_thread_move m = true /\ step m s' <> None).
Proof.
  intros Hc Hd Hrun.
  assert (leaving s = true) as Hl by (unfold leaving; now rewrite Hc, Hd).
  destruct (leaving_run sched s s' Hl Hrun) as [Hl' Hle].
  split; [|exact (leaving_progress s' Hl')].
  assert (rank s <= 6)%nat; [|lia].
  unfold rank. rewrite Hd. destruct (player s); cbn; lia.
Qed.

End PlayerThread.

End TeardownFacts.

(** * The properties at concrete inputs *)

Module Checks.

Import FramePlayer Scenarios String.

(** The selection at 20 on [{10: A, 20: B, 30: C}] with [shown = 10]:
    the entry of key 20. *)
Lemma show_selection_witness :
  strictly_increasing (keys tl_abc) = true /\
  select_show tl_abc 20 10 = Some 1%nat /\
  deref tl_abc 1 = Some (20, "B"%string) /\
  ~ In 20 (skipped tl_abc 10 1).
Proof.
  split; [reflexivity|].
  destruct (PlayerFacts.show_selection tl_abc 20 10 eq_refl) as [Hsel Hkey].
  split; [exact Hsel|].
  apply (Hkey "B"%string); [simpl; auto | lia].
Defined.

(** After [A] of [{10: A}] has been shown at 10, a pass at the same
    clock reading finds 10 among the keys and selects [end()], not the
    entry of key 10. *)
Lemma show_selection_counterexample :
  option_map fst (run all_levels 1 [SetTimeline tl_a; Iterate 10 true] initial)
    = Some shown_a /\
  In (10, "A"%string) (timeline shown_a) /\
  select_show (timeline shown_a) 10 (shown shown_a) = Some 1%nat /\
  deref (timeline shown_a) 1 = None.
Proof. repeat split. simpl. auto. Qed.



(** The skip scenario: [{10: A, 20: B}] at clock 25 with a ready
    driver.  Key 10 is reported as skipped, 15 ms old; [B] is
    submitted. *)
Lemma skip_accounting_witness :
  valid fresh_ab 0 /\ 0 <= 25 /\ shutdown fresh_ab = false /\ timeline fresh_ab <> [] /\
  exists show st' evs,
    select_show (timeline fresh_ab) 25 (shown fresh_ab) = Some show /\
    step all_levels 1 (Iterate 25 true) fresh_ab = Some (st', evs) /\
    skip_warnings evs = [(10, 15)] /\
    submissions evs = [(20, "B"%string)] /\
    shown st' = 20.
Proof.
  assert (valid fresh_ab 0) as Hv by (split; [reflexivity | simpl; lia]).
  assert (0 <= 25) as Ht by lia.
  assert (timeline fresh_ab <> []) as Hne by discriminate.
  repeat (split; [assumption || reflexivity|]).
  destruct (PlayerFacts.skip_accounting all_levels 1 fresh_ab 0 25 true Hv Ht eq_refl Hne)
    as (show & st' & evs & Hsel & Hstep & _ & Hwarn & Hsub & _ & Hlast).
  exists show, st', evs. split; [exact Hsel|]. split; [exact Hstep|].
  destruct (Hlast 20 "B"%string eq_refl ltac:(lia) ltac:(simpl; lia)) as (-> & _ & Hsubmit).
  split; [exact Hwarn|]. split; [exact (Hsubmit eq_refl)|].
  destruct Hsub as [[Hnone _]|(k & a & _ & _ & _ & Hs & _ & Hk & _)].
  - rewrite (Hsubmit eq_refl) in Hnone. discriminate.
  - rewrite (Hsubmit eq_refl) in Hs. injection Hs as <- _. exact Hk.
Defined.

(** Three executions in which every key of the timeline is in the past.
    With a busy driver the latest atom is not submitted.  After [X] was
    shown at 15 and [{10: A, 20: B}] installed, the earlier key 10 is
    neither submitted nor reported.  With a logger that drops warnings
    the skip of key 10 is not reported. *)
Lemma skip_accounting_counterexample :
  (exists st' evs,
      run all_levels 1 [SetTimeline tl_ab; Iterate 25 false] initial = Some (st', evs) /\
      Forall (fun k => k <= 25) (keys (timeline st')) /\
      submissions evs = []) /\
  (exists st' evs,
      run all_levels 1
        [SetTimeline tl_x; Iterate 15 true; SetTimeline tl_ab; Iterate 25 true] initial
        = Some (st', evs) /\
      Forall (fun k => k <= 25) (keys (timeline st')) /\
      submissions evs = [(15, "X"%string); (20, "B"%string)] /\
      skip_warnings evs = []) /\
  (exists st' evs,
      run no_levels 1 [SetTimeline tl_ab; Iterate 25 true] initial = Some (st', evs) /\
      submissions evs = [(20, "B"%string)] /\
      skip_warnings evs = []).
Proof.
  split; [|split].
  - eexists _, _. split; [vm_compute; reflexivity|]. split; [|reflexivity].
    simpl. repeat (constructor; [lia|]). constructor.
  - eexists _, _. split; [vm_compute; reflexivity|]. split; [|split; reflexivity].
    simpl. repeat (constructor; [lia|]). constructor.
  - eexists _, _. split; [vm_compute; reflexivity|]. split; reflexivity.
Qed.

(** [{10: A, 20: B}] at clock 25 with a driver that is always busy. *)
Lemma busy_hardware_witness :
  valid (@initial string) 0 /\
  admissible 0 ([SetTimeline tl_ab] ++ [Iterate 25 false]) = true /\
  all_busy [SetTimeline tl_ab] = true /\
  exists st1 evs1 st2 evs2,
    run all_levels 1 [SetTimeline tl_ab] initial = Some (st1, evs1) /\
    step all_levels 1 (Iterate 25 false) st1 = Some (st2, evs2) /\
    submissions (evs1 ++ evs2) = [] /\
    exists show,
      select_show (timeline st1) 25 (shown st1) = Some show /\
      shown st2 =
        advance_through (strictly_between (timeline st1) (shown st1) show) (shown st1) /\
      forall k a, deref (timeline st1) show = Some (k, a) -> shown st2 < k.
Proof.
  assert (valid (@initial string) 0) as Hv by (split; [reflexivity | simpl; lia]).
  split; [exact Hv|]. split; [reflexivity|]. split; [reflexivity|].
  destruct (PlayerFacts.busy_hardware all_levels 1 initial 0 [SetTimeline tl_ab] 25
              Hv eq_refl eq_refl)
    as (st1 & evs1 & st2 & evs2 & Hr1 & Hstep & _ & Hsub & _ & Hpass).
  exists st1, evs1, st2, evs2. repeat (split; [assumption|]).
  apply Hpass.
  - vm_compute in Hr1. injection Hr1 as <- _. reflexivity.
  - vm_compute in Hr1. injection Hr1 as <- _. discriminate.
Defined.

(** With a driver that is always busy, [shown] still goes from 0 to 10:
    key 10 is skipped on the way to key 20. *)
Lemma busy_hardware_counterexample :
  all_busy [SetTimeline tl_ab; Iterate 25 false] = true /\
  exists st' evs,
    run all_levels 1 [SetTimeline tl_ab; Iterate 25 false] initial = Some (st', evs) /\
    shown (@initial string) = 0 /\ shown st' = 10.
Proof.
  split; [reflexivity|]. eexists _, _. split; [vm_compute; reflexivity|].
  split; reflexivity.
Qed.

(** [{10: A, 20: B, 30: C}]: a pass at 25, then a pass at 30. *)
Lemma shown_monotone_witness :
  valid (@initial string) 0 /\
  admissible 0 ([SetTimeline tl_abc; Iterate 25 true] ++ [Iterate 30 true]) = true /\
  exists st1 evs1 st2 evs2,
    run all_levels 1 [SetTimeline tl_abc; Iterate 25 true] initial = Some (st1, evs1) /\
    run all_levels 1 [Iterate 30 true] st1 = Some (st2, evs2) /\
    shown st1 <= shown st2.
Proof.
  assert (valid (@initial string) 0) as Hv by (split; [reflexivity | simpl; lia]).
  split; [exact Hv|]. split; [reflexivity|].
  destruct (PlayerFacts.shown_monotone all_levels 1 initial 0
              [SetTimeline tl_abc; Iterate 25 true] [Iterate 30 true] Hv eq_refl)
    as (st1 & evs1 & st2 & evs2 & Hr1 & Hr2 & _ & Hle & _).
  exists st1, evs1, st2, evs2. auto.
Defined.

(** [{10: A, 20: B, 30: C}]: passes at 25 and 30 submit [B], then [C]. *)
Lemma submissions_increasing_witness :
  valid (@initial string) 0 /\
  admissible 0 [SetTimeline tl_abc; Iterate 25 true; Iterate 30 true] = true /\
  exists st' evs,
    run all_levels 1 [SetTimeline tl_abc; Iterate 25 true; Iterate 30 true] initial
      = Some (st', evs) /\
    StronglySorted Z.lt (map fst (submissions evs)).
Proof.
  assert (valid (@initial string) 0) as Hv by (split; [reflexivity | simpl; lia]).
  split; [exact Hv|]. split; [reflexivity|].
  apply (PlayerFacts.submissions_increasing all_levels 1 initial 0
           [SetTimeline tl_abc; Iterate 25 true; Iterate 30 true] Hv eq_refl).
Defined.

(** [X] is shown at 15; of [{10: A, 20: B}], installed afterwards, only
    [B] can follow. *)
Lemma never_submits_old_keys_witness :
  valid (@initial string) 0 /\
  admissible 0 ([SetTimeline tl_x; Iterate 15 true] ++ [SetTimeline tl_ab; Iterate 25 true])
    = true /\
  exists st1 evs1 st2 evs2,
    run all_levels 1 [SetTimeline tl_x; Iterate 15 true] initial = Some (st1, evs1) /\
    run all_levels 1 [SetTimeline tl_ab; Iterate 25 true] st1 = Some (st2, evs2) /\
    Forall (fun s => shown st1 < fst s) (submissions evs2).
Proof.
  assert (valid (@initial string) 0) as Hv by (split; [reflexivity | simpl; lia]).
  split; [exact Hv|]. split; [reflexivity|].
  destruct (PlayerFacts.never_submits_old_keys all_levels 1 initial 0
              [SetTimeline tl_x; Iterate 15 true] [SetTimeline tl_ab; Iterate 25 true]
              Hv eq_refl)
    as (st1 & evs1 & st2 & evs2 & Hr1 & Hr2 & _ & Hall).
  exists st1, evs1, st2, evs2. auto.
Defined.

(** A 10 Hz script, the last tick at 1 s, the clock at 5 s: the runner
    is called and [last_mono] becomes the rounded [5 - 0.1]. *)
Lemma tick_advances_last_mono_witness :
  let period := Double.div Double.one (Double.of_Z 10) in
  let next := Double.add (Double.of_Z 1) period in
  let back := Double.sub (Double.of_Z 5) period in
  Double.nonneg (MainLoop.last_mono loop_10hz) = true /\
  Double.finite (Double.of_Z 5) = true /\
  exists st' evs,
    MainLoop.step hz_of all_levels (MainLoop.Tick (Double.of_Z 5)) loop_10hz
      = Some (st', evs) /\
    MainLoop.runner_updates evs <> [] /\
    MainLoop.last_mono st' = back /\
    Double.leb next (MainLoop.last_mono st') = true /\
    Double.leb back (MainLoop.last_mono st') = true /\
    Double.leb next (Double.of_Z 5) = true.
Proof.
  intros period next back. split; [reflexivity|]. split; [reflexivity|].
  eexists _, _. split; [vm_compute; reflexivity|].
  split; [discriminate|].
  destruct (LoopFacts.tick_advances_last_mono hz_of all_levels loop_10hz (Double.of_Z 5)
              _ _ eq_refl ltac:(discriminate))
    as (sc & Hsc & _ & _ & _ & _ & _ & Hle).
  injection Hsc as <-.
  destruct (Hle eq_refl eq_refl) as (Hnext & Hback & Hclock & _).
  split; [reflexivity|]. split; [exact Hnext|]. split; [exact Hback|]. exact Hclock.
Defined.

(** Three passes that call the runner.  With a rate of [2 ^ 40] and
    [last_mono] at 8192 s the period is half the spacing of the doubles
    at 8192: the sum rounds back to 8192, [last_mono] is left as it
    was, and a further pass at the same clock reading calls again.
    With 30 Hz, [last_mono] at 3 s and the clock at 3.0625 s, the new
    [last_mono] is the rounded [3 + 1/30], which exceeds 3 by less than
    the period.  With 30 Hz, [last_mono] at 1 s and the clock at 1.5 s,
    the new [last_mono] is the rounded [1.5 - 1/30], and the clock
    reading exceeds it by more than the period. *)
Lemma tick_advances_last_mono_counterexample :
  (exists evs,
      MainLoop.step hz_of all_levels (MainLoop.Tick (Double.of_Z 8192)) loop_fast
        = Some (loop_fast, evs) /\
      MainLoop.runner_updates evs = [(false, Double.scaled 1 40)]) /\
  (exists st' evs,
      MainLoop.step hz_of all_levels (MainLoop.Tick (Double.scaled 49 (-4)))
        {| MainLoop.script := Some (Double.of_Z 30);
           MainLoop.shutdown := false;
           MainLoop.last_mono := Double.of_Z 3 |}
        = Some (st', evs) /\
      MainLoop.runner_updates evs = [(false, Double.of_Z 30)] /\
      Double.ltb (Double.sub (MainLoop.last_mono st') (Double.of_Z 3))
        (Double.div Double.one (Double.of_Z 30)) = true) /\
  (exists st' evs,
      MainLoop.step hz_of all_levels (MainLoop.Tick (Double.scaled 3 (-1))) loop_30hz
        = Some (st', evs) /\
      MainLoop.runner_updates evs = [(false, Double.of_Z 30)] /\
      Double.ltb (Double.div Double.one (Double.of_Z 30))
        (Double.sub (Double.scaled 3 (-1)) (MainLoop.last_mono st')) = true).
Proof.
  split; [|split].
  - eexists. split; vm_compute; reflexivity.
  - eexists _, _. split; [vm_compute; reflexivity|]. split; vm_compute; reflexivity.
  - eexists _, _. split; [vm_compute; reflexivity|]. split; vm_compute; reflexivity.
Qed.

(** A pass of the player that submits, and three actions of the main
    loop. *)
Lemma mutex_discipline_witness :
  valid fresh_ab 0 /\ 0 <= 25 /\
  MainLoop.script_ok hz_of loop_10hz /\
  MainLoop.positive_rates hz_of
    [MainLoop.Tick (Double.of_Z 5); MainLoop.Play (Double.of_Z 30);
     MainLoop.Tick (Double.of_Z 6)] = true /\
  (exists st' evs,
      step all_levels 1 (Iterate 25 true) fresh_ab = Some (st', evs) /\
      held_unless_waiting evs) /\
  (exists lst' levs,
      MainLoop.run hz_of all_levels
        [MainLoop.Tick (Double.of_Z 5); MainLoop.Play (Double.of_Z 30);
     MainLoop.Tick (Double.of_Z 6)]
        loop_10hz = Some (lst', levs) /\
      Forall (fun hs => fst hs = false) (MainLoop.runner_updates levs)).
Proof.
  assert (valid fresh_ab 0) as Hv by (split; [reflexivity | simpl; lia]).
  assert (0 <= 25) as Ht by lia.
  assert (MainLoop.script_ok hz_of loop_10hz) as Hok by reflexivity.
  split; [exact Hv|]. split; [exact Ht|]. split; [exact Hok|]. split; [reflexivity|].
  destruct (Locking.mutex_discipline all_levels 1 hz_of all_levels fresh_ab 0 25 true
              loop_10hz
              [MainLoop.Tick (Double.of_Z 5); MainLoop.Play (Double.of_Z 30);
     MainLoop.Tick (Double.of_Z 6)]
              Hv Ht Hok eq_refl)
    as [(st' & evs & Hstep & Hheld & _) Hloop].
  split; [exists st', evs; auto | exact Hloop].
Defined.

(** The player thread owns its mutex when it calls the driver's
    [update] for [{100: A}] at clock 100. *)
Lemma mutex_discipline_counterexample :
  exists st' evs,
    run all_levels 1 [SetTimeline tl_a100; Iterate 100 true] initial = Some (st', evs) /\
    In (true, Update 100 "A"%string) evs.
Proof.
  eexists _, _. split; [vm_compute; reflexivity|]. simpl. auto 10.
Qed.

End Checks.

(** * Passes and executions at concrete inputs *)

Module RunChecks.

Import FramePlayer Scenarios String.

(** [{10: A, 20: B}] installed in a fresh player, then a pass at clock
    25 with a ready driver. *)
Lemma shown_not_ahead_of_clock_witness :
  valid (@initial string) 0 /\
  admissible 0 [SetTimeline tl_ab; Iterate 25 true] = true /\
  exists st' evs,
    run all_levels 1 [SetTimeline tl_ab; Iterate 25 true] initial = Some (st', evs) /\
    shown st' <= 25 /\
    Forall (fun s => fst s <= 25) (submissions evs).
Proof.
  assert (valid (@initial string) 0) as Hv by (split; [reflexivity | simpl; lia]).
  split; [exact Hv|]. split; [reflexivity|].
  exact (PlayerRuns.shown_not_ahead_of_clock all_levels 1 initial 0
           [SetTimeline tl_ab; Iterate 25 true] Hv eq_refl).
Defined.

(** A player that has shown key 10 of [{10: A}] and then reads the
    clock at 5. *)
Lemma clock_behind_shown_undefined_witness :
  strictly_increasing (keys (timeline shown_a)) = true /\
  In 10 (keys (timeline shown_a)) /\ 5 < 10 /\ 10 <= shown shown_a /\
  step all_levels 1 (Iterate 5 true) shown_a = None.
Proof.
  assert (In 10 (keys (timeline shown_a))) as Hin by (simpl; auto).
  assert (5 < 10) as Hlt by lia.
  assert (10 <= shown shown_a) as Hle by (simpl; lia).
  repeat (split; [assumption || reflexivity|]).
  exact (PlayerRuns.clock_behind_shown_undefined all_levels 1 shown_a 5 true 10
           eq_refl eq_refl Hin Hlt Hle).
Defined.

(** A busy pass followed by a ready one on [{10: A, 20: B}]. *)
Lemma update_follows_ready_poll_witness :
  valid fresh_ab 0 /\
  admissible 0 [@Iterate string 25 false; Iterate 30 true] = true /\
  exists st' evs,
    run all_levels 1 [@Iterate string 25 false; Iterate 30 true] fresh_ab = Some (st', evs) /\
    polled false evs = true.
Proof.
  assert (valid fresh_ab 0) as Hv by (split; [reflexivity | simpl; lia]).
  split; [exact Hv|]. split; [reflexivity|].
  exact (PlayerRuns.update_follows_ready_poll all_levels 1 fresh_ab 0
           [@Iterate string 25 false; Iterate 30 true] Hv eq_refl).
Defined.

(** [{10: A, 20: B}] at clock 25: [B] is shown. *)
Lemma ready_pass_shows_latest_witness :
  valid fresh_ab 0 /\ 0 <= 25 /\
  exists st' evs,
    step all_levels 1 (Iterate 25 true) fresh_ab = Some (st', evs) /\
    submissions evs = [(20, "B"%string)] /\ shown st' = 20.
Proof.
  assert (valid fresh_ab 0) as Hv by (split; [reflexivity | simpl; lia]).
  assert (0 <= 25) as Ht by lia.
  split; [exact Hv|]. split; [exact Ht|].
  exact (PlayerRuns.ready_pass_shows_latest all_levels 1 fresh_ab 0 25 Hv Ht eq_refl).
Defined.

(** [{10: A, 20: B}] after [A] was shown, at clock 15: the pass waits
    until 20. *)
Lemma idle_pass_waits_for_next_witness :
  let st := {| timeline := tl_ab; shown := 10; shutdown := false |} in
  valid st 10 /\ 10 <= 15 /\ showable (timeline st) (shown st) 15 = [] /\
  exists evs,
    step all_levels 1 (Iterate 15 true) st = Some (st, evs) /\
    driver_calls evs = [] /\ waits evs = [WaitUntil 20].
Proof.
  intros st.
  assert (valid st 10) as Hv by (split; [reflexivity | simpl; lia]).
  assert (10 <= 15) as Ht by lia.
  split; [exact Hv|]. split; [exact Ht|]. split; [reflexivity|].
  exact (PlayerRuns.idle_pass_waits_for_next all_levels 1 st 10 15 true
           Hv Ht eq_refl eq_refl).
Defined.

(** [{10: A, 20: B}] at clock 25 with a busy driver: the pass ends with
    a wait until 30. *)
Lemma pass_submits_or_waits_witness :
  valid fresh_ab 0 /\ 0 <= 25 /\ 0 < 1 /\
  representable 25 /\ representable (5 * 1) /\ representable (25 + 5 * 1) /\
  exists st' evs,
    step all_levels 1 (Iterate 25 false) fresh_ab = Some (st', evs) /\
    ((exists e, submissions evs = [e] /\ waits evs = [] /\ shown fresh_ab < shown st') \/
     (submissions evs = [] /\
      exists pre w,
        evs = pre ++ [(false, w)] /\ waits evs = [w] /\
        forall d, w = WaitUntil d -> 25 < d)).
Proof.
  assert (valid fresh_ab 0) as Hv by (split; [reflexivity | simpl; lia]).
  assert (0 <= 25) as Ht by lia.
  assert (0 < 1) as Hms by lia.
  assert (representable 25) as Hr1 by (unfold representable; lia).
  assert (representable (5 * 1)) as Hr2 by (unfold representable; lia).
  assert (representable (25 + 5 * 1)) as Hr3 by (unfold representable; lia).
  repeat (split; [assumption|]).
  exact (PlayerRuns.pass_submits_or_waits all_levels 1 fresh_ab 0 25 false
           Hv Ht eq_refl Hms Hr1 Hr2 Hr3).
Defined.

(** [{10: A, 20: B}] and [{10: X, 20: Y}] at clock 25. *)
Lemma pass_reads_keys_only_witness :
  let other := {| timeline := [(10, "X"%string); (20, "Y"%string)];
                  shown := 0; shutdown := false |} in
  valid fresh_ab 0 /\ 0 <= 25 /\
  keys (timeline fresh_ab) = keys (timeline other) /\
  exists st1' evs1 st2' evs2,
    step all_levels 1 (Iterate 25 true) fresh_ab = Some (st1', evs1) /\
    step all_levels 1 (Iterate 25 true) other = Some (st2', evs2) /\
    waits evs1 = waits evs2 /\
    map fst (submissions evs1) = map fst (submissions evs2) /\
    shown st1' = shown st2'.
Proof.
  intros other.
  assert (valid fresh_ab 0) as Hv by (split; [reflexivity | simpl; lia]).
  assert (0 <= 25) as Ht by lia.
  split; [exact Hv|]. split; [exact Ht|]. split; [reflexivity|].
  exact (PlayerRuns.pass_reads_keys_only all_levels 1 fresh_ab other 0 25 true
           Hv Ht eq_refl eq_refl eq_refl).
Defined.

(** A 10 Hz script, the last tick at 1 s, the clock at 1.0625 s: the
    pass sleeps until the rounded [1 + 0.1]. *)
Lemma tick_calls_or_sleeps_witness :
  let mono := Double.scaled 17 (-4) in
  MainLoop.script_ok hz_of loop_10hz /\
  exists st' evs,
    MainLoop.step hz_of all_levels (MainLoop.Tick mono) loop_10hz = Some (st', evs) /\
    ((exists sc,
         MainLoop.script loop_10hz = Some sc /\
         MainLoop.runner_updates evs = [(false, sc)] /\
         MainLoop.sleeps evs = [] /\
         Double.ltb mono
           (Double.add (MainLoop.last_mono loop_10hz) (Double.div Double.one (hz_of sc)))
           = false) \/
     (MainLoop.runner_updates evs = [] /\ st' = loop_10hz /\
      exists pre w,
        evs = pre ++ [(false, w)] /\ MainLoop.sleeps evs = [w] /\
        (MainLoop.script loop_10hz = None <-> w = MainLoop.Sleep) /\
        forall d, w = MainLoop.SleepUntil d ->
          Double.ltb mono d = true /\
          exists sc, MainLoop.script loop_10hz = Some sc /\
                     d = Double.add (MainLoop.last_mono loop_10hz)
                           (Double.div Double.one (hz_of sc)))).
Proof.
  intros mono.
  assert (MainLoop.script_ok hz_of loop_10hz) as Hok by reflexivity.
  split; [exact Hok|].
  exact (LoopRuns.tick_calls_or_sleeps hz_of all_levels loop_10hz mono eq_refl Hok).
Defined.

(** Two passes and a new script, the clock reaching 6 s. *)
Lemma last_mono_stays_a_number_witness :
  let sched := [MainLoop.Tick (Double.of_Z 5); MainLoop.Play (Double.of_Z 30);
                MainLoop.Tick (Double.of_Z 6)] in
  Double.nonneg (MainLoop.last_mono loop_10hz) = true /\
  MainLoop.script_ok hz_of loop_10hz /\
  MainLoop.positive_rates hz_of sched = true /\
  forallb Double.finite (MainLoop.readings sched) = true /\
  exists st' evs,
    MainLoop.run hz_of all_levels sched loop_10hz = Some (st', evs) /\
    Double.nonneg (MainLoop.last_mono st') = true.
Proof.
  intros sched.
  assert (MainLoop.script_ok hz_of loop_10hz) as Hok by reflexivity.
  split; [reflexivity|]. split; [exact Hok|]. split; [reflexivity|]. split; [reflexivity|].
  exact (LoopRuns.last_mono_stays_a_number hz_of all_levels sched loop_10hz
           eq_refl Hok eq_refl eq_refl).
Defined.


End RunChecks.

(** * The device lister and the destructors at concrete inputs *)

Module V4LChecks.

Import V4L String.

(** Version 5.10.52. *)
Lemma version_fields_packed_witness :
  0 <= 0 /\ 0 <= 5 < 256 /\ 0 <= 10 < 256 /\ 0 <= 52 < 256 /\
  version_fields (0 * 2 ^ 24 + 5 * 2 ^ 16 + 10 * 2 ^ 8 + 52) = (5, 10, 52).
Proof.
  assert (0 <= 0) as Hh by lia.
  assert (0 <= 5 < 256) as Ha by lia.
  assert (0 <= 10 < 256) as Hb by lia.
  assert (0 <= 52 < 256) as Hc by lia.
  repeat (split; [assumption|]).
  exact (V4LFacts.version_fields_packed 0 5 10 52 Hh Ha Hb Hc).
Defined.

(** Flags 5 with a [switch] that knows bit 1 only. *)
Lemma flags_loop_prints_set_bits_witness :
  let label := fun bit => if bit =? 1 then Some "VIDEO_CAPTURE"%string else None in
  (33 <= 40)%nat /\
  flags_loop label 40 1 5 [] = Some [Named "VIDEO_CAPTURE"; Unknown 4].
Proof.
  intros label.
  assert (33 <= 40)%nat as Hfuel by lia.
  split; [exact Hfuel|].
  exact (V4LFacts.flags_loop_prints_set_bits label 40 5 Hfuel).
Defined.

End V4LChecks.

Module TeardownChecks.

Import Teardown.

(** The destructor owns the mutex while the runner is updating. *)
Lemma server_destructor_returns_iff_witness :
  let s := Loop.State Caller false true false Loop.InUpdate Loop.AtJoinable in
  Loop.consistent s = true /\ Loop.dtor s = Loop.AtJoinable /\
  ((exists sched s', Loop.run sched s = Some s' /\ Loop.dtor s' = Loop.Done)
   <-> Loop.running s = false).
Proof.
  intros s. split; [reflexivity|]. split; [reflexivity|].
  exact (TeardownFacts.LoopThread.server_destructor_returns_iff s eq_refl eq_refl).
Defined.

(** The destructor is entered while the loop sleeps for want of a
    script; a script is posted first. *)
Lemma server_destructor_hangs_witness :
  let s := Loop.State Free false false false Loop.InSleep Loop.AtEntry in
  let sched := [Loop.Play; Loop.DtorMove; Loop.DtorMove; Loop.LoopMove true] in
  let s' := Loop.State Caller true true false Loop.AtLock Loop.AtJoin in
  Loop.entered s = true /\
  forallb (fun m => negb (Loop.is_quit m)) sched = true /\
  Loop.run sched s = Some s' /\
  Loop.dtor s' <> Loop.Done /\ Loop.running s' = true.
Proof.
  intros s sched s'. split; [reflexivity|]. split; [reflexivity|]. split; [reflexivity|].
  exact (TeardownFacts.LoopThread.server_destructor_hangs sched s s' eq_refl eq_refl eq_refl).
Defined.

(** A quit has been posted while the runner is updating, and the
    destructor is entered. *)
Lemma server_destructor_deadlock_witness :
  let s := Loop.State Free true true true Loop.InUpdate Loop.AtEntry in
  Loop.consistent s = true /\ Loop.running s = true /\
  exists sched s',
    Loop.run sched s = Some s' /\ Loop.dtor s' = Loop.AtJoin /\
    Loop.loop s' = Loop.AtLock /\ Loop.stuck s'.
Proof.
  intros s. split; [reflexivity|]. split; [reflexivity|].
  exact (TeardownFacts.LoopThread.server_destructor_deadlock s eq_refl eq_refl eq_refl eq_refl).
Defined.

(** The loop finds no script and releases the mutex; a script is
    posted before the loop is in its sleep. *)
Lemma no_lost_wakeup_witness :
  let sched := [Loop.LoopMove false; Loop.LoopMove false; Loop.Play] in
  let s := Loop.State Free false true true Loop.InSleep Loop.AtEntry in
  Loop.run sched Loop.started = Some s /\ Loop.wanted s = true /\
  Loop.flag s = true /\
  exists s', Loop.step (Loop.LoopMove true) s = Some s' /\ Loop.loop s' = Loop.AtLock.
Proof.
  intros sched s. split; [reflexivity|]. split; [reflexivity|].
  exact (TeardownFacts.LoopThread.no_lost_wakeup sched s eq_refl eq_refl eq_refl).
Defined.

(** The destructor owns the mutex while the player waits for a
    wakeup. *)
Lemma player_destructor_returns_witness :
  let s := Player.State Caller false Player.InWait Player.AtJoinable in
  let sched := [Player.DtorMove; Player.DtorMove; Player.PlayerMove Player.Waits;
                Player.PlayerMove Player.Waits; Player.DtorMove] in
  let s' := Player.State Free true Player.Returned Player.Done in
  Player.consistent s = true /\ Player.run sched s = Some s' /\
  (Player.thread_moves sched <= 6)%nat /\
  (Player.dtor s' = Player.Done \/
   exists m, Player.is_thread_move m = true /\ Player.step m s' <> None).
Proof.
  intros s sched s'. split; [reflexivity|]. split; [reflexivity|].
  exact (TeardownFacts.PlayerThread.player_destructor_returns sched s s'
           eq_refl eq_refl eq_refl).
Defined.

End TeardownChecks.
